(** * phosphor-ui: split layout sizing and widget lifecycle

    A shallow embedding of the interactive sizer adjustment and the fit
    pass of [SplitLayout] (split panel source) and of the lifecycle state
    machine of [Widget] (widgets/widget.ts).

    Numbers.  A JavaScript [number] is modelled as an exact rational [Q]
    (no rounding); the only non-finite value the sizing code ever stores is
    [Infinity], in [maxSize], which gets its own constructor.  Equalities
    between computed numbers are therefore stated with [==] on [Q]. *)

From Stdlib Require Import QArith Qminmax Lqa Lia ZArith List Bool String.
From stdpp Require Import base option list gmap.
Import ListNotations.

(* ================================================================== *)
(** * Part I.  Definitions *)
(* ================================================================== *)

(** ** Numbers extended with [Infinity] *)

Module Num.

Local Open Scope Q_scope.

Inductive num : Type :=
| Fin (q : Q)
| Infinity.

(** [a - b] with [a] possibly infinite. *)
Definition sub (a : num) (b : Q) : num :=
  match a with
  | Fin x => Fin (x - b)
  | Infinity => Infinity
  end.

(** [a + b]. *)
Definition add (a b : num) : num :=
  match a, b with
  | Fin x, Fin y => Fin (x + y)
  | _, _ => Infinity
  end.

(** [Math.min(a, b)] with [b] possibly infinite. *)
Definition min (a : Q) (b : num) : Q :=
  match b with
  | Fin y => Qmin a y
  | Infinity => a
  end.

(** [a <= b] as a proposition, [b] possibly infinite. *)
Definition le (a : Q) (b : num) : Prop :=
  match b with
  | Fin y => a <= y
  | Infinity => True
  end.

(** [a == b] on extended numbers. *)
Definition eq (a b : num) : Prop :=
  match a, b with
  | Fin x, Fin y => x == y
  | Infinity, Infinity => True
  | _, _ => False
  end.

(** [a <= b] as a test, [a] possibly infinite. *)
Definition leb (a : num) (b : Q) : bool :=
  match a with
  | Fin x => Qle_bool x b
  | Infinity => false
  end.

(** The sum of a list of extended numbers. *)
Definition sum (l : list num) : num := fold_right add (Fin 0) l.

End Num.

Abbreviation num := Num.num.
Abbreviation Fin := Num.Fin.
Abbreviation Infinity := Num.Infinity.

(** The sum of a list of rationals. *)
Definition Qsum (l : list Q) : Q := fold_right Qplus 0%Q l.

(** ** Box sizers *)

Module BoxEngine.

Local Open Scope Q_scope.

(** The fields of a [BoxSizer] that the split layout reads and writes. *)
Record BoxSizer : Type := mkSizer {
  sizeHint : Q;
  minSize : Q;
  maxSize : num;
  stretch : nat;
  size : Q
}.

Definition set_sizeHint (z : BoxSizer) (v : Q) : BoxSizer :=
  {| sizeHint := v; minSize := minSize z; maxSize := maxSize z;
     stretch := stretch z; size := size z |}.

Definition set_size (z : BoxSizer) (v : Q) : BoxSizer :=
  {| sizeHint := sizeHint z; minSize := minSize z; maxSize := maxSize z;
     stretch := stretch z; size := v |}.

(** *** The allocation engine *)

(** Modelled from the spec: one participant of a distribution round of
    the allocation engine (section 4.1; the source of [boxCalc] is not
    among the sources): the room it still has, its stretch weight and
    what it has been granted so far. *)
Record Slot : Type := mkSlot {
  room : num;
  weight : Q;
  granted : Q
}.

(** Modelled from the spec: a slot "not yet at maxSize" (for shrinking,
    not yet at its floor) still has headroom. *)
Definition isOpen (s : Slot) : bool :=
  match room s with
  | Fin r => negb (Qle_bool r (granted s))
  | Infinity => true
  end.

(** Modelled from the spec: a slot absorbs a share until it saturates
    ("a sizer that saturates at maxSize stops absorbing"). *)
Definition grant (s : Slot) (share : Q) : Slot :=
  {| room := room s; weight := weight s;
     granted := Num.min (granted s + share) (room s) |}.

(** Modelled from the spec: some slot with headroom has a positive
    stretch (section 4.1, step 5). *)
Definition anyWeighted (slots : list Slot) : bool :=
  existsb (fun s => isOpen s && negb (Qle_bool (weight s) 0)) slots.

(** Modelled from the spec: the weight a slot takes part with in a round:
    its stretch among the slots with headroom; when every slot of
    positive stretch is saturated, the slots with headroom share
    equally (section 4.1, steps 4 and 5). *)
Definition roundWeight (weighted : bool) (s : Slot) : Q :=
  if isOpen s then
    if weighted then (if Qle_bool (weight s) 0 then 0 else weight s) else 1
  else 0.

(** Modelled from the spec: one round distributes the surplus
    "proportionally to stretch weight among sizers not yet at maxSize"
    (section 4.1, step 4). *)
Definition round (surplus : Q) (slots : list Slot) : list Slot :=
  let weighted := anyWeighted slots in
  let total := Qsum (map (roundWeight weighted) slots) in
  map (fun s => grant s (surplus * roundWeight weighted s / total)) slots.

(** Modelled from the spec: rounds are iterated "until either the surplus
    is exhausted or no sizer has remaining headroom" (section 4.1,
    step 4); [fuel] bounds the number of rounds. *)
Fixpoint fill (fuel : nat) (amount : Q) (slots : list Slot) : list Slot :=
  match fuel with
  | O => slots
  | S fuel' =>
    let surplus := amount - Qsum (map granted slots) in
    if Qlt_le_dec 0 surplus then
      if existsb isOpen slots
      then fill fuel' amount (round surplus slots)
      else slots
    else slots
  end.

(** Modelled from the spec: the distribution of [amount] over slots given
    by their rooms and weights; every round but the last saturates a
    slot, so one round per slot is enough. *)
Definition distribute (amount : Q) (slots : list (num * Q)) : list Q :=
  map granted
      (fill (length slots) amount
            (map (fun rw => mkSlot (fst rw) (snd rw) 0) slots)).

(** Modelled from the spec: "clamped into [min,max]". *)
Definition clamp (lo : Q) (hi : num) (v : Q) : Q := Qmax lo (Num.min v hi).

(** The stretch factor as a number. *)
Definition weightOf (z : BoxSizer) : Q := inject_Z (Z.of_nat (stretch z)).

(** What a sizer can still grow by and what it can still give up. *)
Definition headroom (z : BoxSizer) : num := Num.sub (maxSize z) (size z).
Definition slack (z : BoxSizer) : num := Fin (size z - minSize z).

(** [size = maxSize], for a finite [maxSize]. *)
Definition maximize (z : BoxSizer) : BoxSizer :=
  match maxSize z with
  | Fin m => set_size z m
  | Infinity => z
  end.

(** Modelled from the spec: the allocation engine [allocate] / [boxCalc]
    (section 4.1, steps 1 to 5; its source file is not among the
    sources).  Below the total minimum every sizer gets its minimum,
    above the total maximum its maximum; in between the clamped hints
    are the starting point and the residual space is distributed, as
    growth or as shrinkage. *)
Definition boxCalc (sizers : list BoxSizer) (space : Q) : list BoxSizer :=
  let totalMin := Qsum (map minSize sizers) in
  let totalMax := Num.sum (map maxSize sizers) in
  if Qle_bool space totalMin then
    map (fun z => set_size z (minSize z)) sizers
  else if Num.leb totalMax space then
    map maximize sizers
  else
    let start :=
      map (fun z => set_size z (clamp (minSize z) (maxSize z) (sizeHint z)))
          sizers in
    let residual := space - Qsum (map size start) in
    if Qlt_le_dec 0 residual then
      zip_with (fun z g => set_size z (size z + g)) start
        (distribute residual (map (fun z => (headroom z, weightOf z)) start))
    else if Qlt_le_dec residual 0 then
      zip_with (fun z g => set_size z (size z - g)) start
        (distribute (- residual) (map (fun z => (slack z, weightOf z)) start))
    else start.

End BoxEngine.

(** ** The split layout *)

Module Split.

Import BoxEngine.
Local Open Scope Q_scope.

Inductive Orientation : Type := Horizontal | Vertical.

(** A split handle: the presence of the hidden class and the two offsets
    the layout reads back from the DOM. *)
Record Handle : Type := mkHandle {
  hidden : bool;
  offsetLeft : Q;
  offsetTop : Q
}.

Definition set_hidden (b : bool) (h : Handle) : Handle :=
  {| hidden := b; offsetLeft := offsetLeft h; offsetTop := offsetTop h |}.

(** Messages the layout posts to its parent widget. *)
Inductive Posted : Type := PostUpdateRequest | PostFitRequest.

Record SplitLayout : Type := mkLayout {
  _sizers : list BoxSizer;
  _handles : list Handle;
  _orientation : Orientation;
  _spacing : Q;
  _fixed : Q;
  _dirty : bool;
  hasParent : bool;
  posted : list Posted
}.

(** [Vector.at]: [undefined] outside the vector. *)
Definition at_ {A : Type} (v : list A) (index : Z) : option A :=
  if (index <? 0)%Z then None else v !! Z.to_nat index.

(** [sizes()]. *)
Definition sizes (L : SplitLayout) : list Q := map size (_sizers L).

(** [sizer.maxSize - sizer.size] and [sizer.size - sizer.minSize]. *)
Definition growRoom (z : BoxSizer) : num := Num.sub (maxSize z) (size z).
Definition shrinkRoom (z : BoxSizer) : Q := size z - minSize z.

(** The two accumulation loops of [growSizer] and [shrinkSizer]. *)
Definition accGrowRoom (zs : list BoxSizer) : num :=
  fold_left (fun acc z => Num.add acc (growRoom z)) zs (Fin 0).
Definition accShrinkRoom (zs : list BoxSizer) : Q :=
  fold_left (fun acc z => acc + shrinkRoom z) zs 0.

(** The growing loop, over the sizers in the order the loop visits them:
    it runs while [grow > 0]. *)
Fixpoint growLoop (grow : Q) (zs : list BoxSizer) : list BoxSizer :=
  match zs with
  | [] => []
  | z :: rest =>
    if Qlt_le_dec 0 grow then
      match growRoom z with
      | Infinity => set_sizeHint z (size z + grow) :: growLoop 0 rest
      | Fin limit =>
        if Qle_bool grow limit
        then set_sizeHint z (size z + grow) :: growLoop 0 rest
        else set_sizeHint z (size z + limit) :: growLoop (grow - limit) rest
      end
    else z :: rest
  end.

(** The shrinking loop, likewise. *)
Fixpoint shrinkLoop (shrink : Q) (zs : list BoxSizer) : list BoxSizer :=
  match zs with
  | [] => []
  | z :: rest =>
    if Qlt_le_dec 0 shrink then
      let limit := shrinkRoom z in
      if Qle_bool shrink limit
      then set_sizeHint z (size z - shrink) :: shrinkLoop 0 rest
      else set_sizeHint z (size z - limit) :: shrinkLoop (shrink - limit) rest
    else z :: rest
  end.

(** [Private.growSizer].  The sizers [0 .. index] are the left group,
    visited from [index] down to [0]; the sizers after [index] are the
    right group, visited upwards.  With [index] outside the vector the
    first loop reads a field of [undefined] before anything is written:
    [None]. *)
Definition growSizer (sizers : list BoxSizer) (index : nat) (delta : Q)
  : option (list BoxSizer) :=
  if (index <? length sizers)%nat then
    let left := take (S index) sizers in
    let right := drop (S index) sizers in
    let growLimit := accGrowRoom left in
    let shrinkLimit := accShrinkRoom right in
    let delta := Qmin (Num.min delta growLimit) shrinkLimit in
    Some (reverse (growLoop delta (reverse left)) ++ shrinkLoop delta right)
  else None.

(** [Private.shrinkSizer]: the right group grows, the left one shrinks. *)
Definition shrinkSizer (sizers : list BoxSizer) (index : nat) (delta : Q)
  : option (list BoxSizer) :=
  if (index <? length sizers)%nat then
    let left := take (S index) sizers in
    let right := drop (S index) sizers in
    let growLimit := accGrowRoom right in
    let shrinkLimit := accShrinkRoom left in
    let delta := Qmin (Num.min delta growLimit) shrinkLimit in
    Some (reverse (shrinkLoop delta (reverse left)) ++ growLoop delta right)
  else None.

(** [if (sizer.size > 0) sizer.sizeHint = sizer.size]. *)
Definition pinHint (z : BoxSizer) : BoxSizer :=
  if Qlt_le_dec 0 (size z) then set_sizeHint z (size z) else z.

Definition set_sizers (L : SplitLayout) (zs : list BoxSizer) : SplitLayout :=
  {| _sizers := zs; _handles := _handles L; _orientation := _orientation L;
     _spacing := _spacing L; _fixed := _fixed L; _dirty := _dirty L;
     hasParent := hasParent L; posted := posted L |}.

(** [if (this.parent) this.parent.update()]. *)
Definition requestUpdate (L : SplitLayout) : SplitLayout :=
  if hasParent L then
    {| _sizers := _sizers L; _handles := _handles L;
       _orientation := _orientation L; _spacing := _spacing L;
       _fixed := _fixed L; _dirty := _dirty L; hasParent := hasParent L;
       posted := posted L ++ [PostUpdateRequest] |}
  else L.

(** The desired movement of a handle: [position - handle.offsetLeft] or
    [position - handle.offsetTop]. *)
Definition handleDelta (o : Orientation) (handle : Handle) (position : Q)
  : Q :=
  match o with
  | Horizontal => position - offsetLeft handle
  | Vertical => position - offsetTop handle
  end.

(** The outcome of a layout method: it returns, or a [TypeError] escapes
    with the layout as it was left. *)
Inductive outcome : Type :=
| Returned (L : SplitLayout)
| TypeError (L : SplitLayout).

(** [SplitLayout.setHandlePosition]. *)
Definition setHandlePosition (L : SplitLayout) (index : Z) (position : Q)
  : outcome :=
  match at_ (_handles L) index with
  | None => Returned L
  | Some handle =>
    if hidden handle then Returned L
    else
      let delta := handleDelta (_orientation L) handle position in
      if Qeq_bool delta 0 then Returned L
      else
        let pinned := map pinHint (_sizers L) in
        let adjusted :=
          if Qlt_le_dec 0 delta
          then growSizer pinned (Z.to_nat index) delta
          else shrinkSizer pinned (Z.to_nat index) (- delta) in
        match adjusted with
        | Some zs => Returned (requestUpdate (set_sizers L zs))
        | None => TypeError (set_sizers L pinned)
        end
  end.

(** What the fit pass reads of a child widget. *)
Record Child : Type := mkChild {
  isHidden : bool
}.

(** The first loop of [_fit], from index [i] on: a handle gets the hidden
    class when its widget is hidden and loses it otherwise; [lastHandle]
    is kept as the index of the handle it refers to.  A missing handle is
    a [TypeError]: [None]. *)
Fixpoint fitHandlesLoop (i : nat) (widgets : list Child)
         (handles : list Handle) (lastHandle : option nat) (nVisible : nat)
  : option (list Handle * option nat * nat) :=
  match widgets with
  | [] => Some (handles, lastHandle, nVisible)
  | w :: rest =>
    match handles !! i with
    | None => None
    | Some handle =>
      if isHidden w
      then fitHandlesLoop (S i) rest (<[i := set_hidden true handle]> handles)
                          lastHandle nVisible
      else fitHandlesLoop (S i) rest (<[i := set_hidden false handle]> handles)
                          (Some i) (S nVisible)
    end
  end.

(** The handle part of [_fit]: the loop, then
    [if (lastHandle) lastHandle.classList.add(HIDDEN_CLASS)]; the result
    is the handles and [nVisible]. *)
Definition fitHandles (widgets : list Child) (handles : list Handle)
  : option (list Handle * nat) :=
  match fitHandlesLoop 0 widgets handles None 0 with
  | None => None
  | Some (hs, lastHandle, nVisible) =>
    Some (match lastHandle with
          | Some i => alter (set_hidden true) i hs
          | None => hs
          end, nVisible)
  end.

(** The box sizing of the parent node: the sums of its border and
    padding. *)
Record BoxSizing : Type := mkBox {
  horizontalSum : Q;
  verticalSum : Q
}.

(** The space [_update] hands to [boxCalc]:
    [Math.max(0, width - this._fixed)] or
    [Math.max(0, height - this._fixed)]. *)
Definition layoutSpace (L : SplitLayout) (width height : Q) : Q :=
  match _orientation L with
  | Horizontal => Qmax 0 (width - _fixed L)
  | Vertical => Qmax 0 (height - _fixed L)
  end.

(** [SplitLayout._update], up to the distribution of the space: the
    dirty flag is cleared, nothing more happens without widgets,
    unknown offset dimensions are measured ([measured] is what the
    parent node reports) and [boxCalc] runs on the space left inside the
    box.  The placement of the child nodes that follows writes no
    sizer. *)
Definition _update (L : SplitLayout) (widgets : list Child)
           (measured : Q * Q) (box : BoxSizing)
           (offsetWidth offsetHeight : Q) : SplitLayout :=
  let L :=
    {| _sizers := _sizers L; _handles := _handles L;
       _orientation := _orientation L; _spacing := _spacing L;
       _fixed := _fixed L; _dirty := false; hasParent := hasParent L;
       posted := posted L |} in
  match widgets with
  | [] => L
  | _ =>
    let offsetWidth :=
      if Qlt_le_dec offsetWidth 0 then fst measured else offsetWidth in
    let offsetHeight :=
      if Qlt_le_dec offsetHeight 0 then snd measured else offsetHeight in
    let width := offsetWidth - horizontalSum box in
    let height := offsetHeight - verticalSum box in
    set_sizers L (boxCalc (_sizers L) (layoutSpace L width height))
  end.

(** [this._fixed = this._spacing * Math.max(0, nVisible - 1)]. *)
Definition fixedSpace (spacing : Q) (nVisible : nat) : Q :=
  spacing * Qmax 0 (inject_Z (Z.of_nat nVisible) - 1).

End Split.


(** ** Vocabulary of the sizer claims *)

Module SizerSpec.

Import BoxEngine Split.
Local Open Scope Q_scope.

(** Every field but [sizeHint] is kept. *)
Definition frame (z z' : BoxSizer) : Prop :=
  minSize z' = minSize z /\ maxSize z' = maxSize z /\
  stretch z' = stretch z /\ size z' = size z.

(** [minSize <= size <= maxSize]. *)
Definition in_bounds (z : BoxSizer) : Prop :=
  minSize z <= size z /\ Num.le (size z) (maxSize z).

(** [minSize <= sizeHint <= maxSize]. *)
Definition hint_in_bounds (z : BoxSizer) : Prop :=
  minSize z <= sizeHint z /\ Num.le (sizeHint z) (maxSize z).

(** The hint agrees with the size. *)
Definition synced (z : BoxSizer) : Prop := sizeHint z == size z.

(** [shrinkRoom] as an extended number. *)
Definition shrinkRoomN (z : BoxSizer) : num := Fin (shrinkRoom z).

(** [Math.min(delta, growLimit, shrinkLimit)]. *)
Definition effective (delta : Q) (growLimit : num) (shrinkLimit : Q) : Q :=
  Qmin (Num.min delta growLimit) shrinkLimit.

(** What is left of [amount] for the next sizer once the sizers with the
    rooms [nearer] have each taken all they can. *)
Definition overflow (amount : Q) (nearer : list num) : Q :=
  match Num.sum nearer with
  | Fin s => Qmax 0 (amount - s)
  | Infinity => 0
  end.

(** A sizer reached by the part [o] of the movement absorbs it up to its
    [room]; a sizer that nothing reaches is not written. *)
Definition absorbed (o : Q) (room : num) (z z' : BoxSizer) : Prop :=
  (0 < o -> frame z z' /\ sizeHint z' == size z + Num.min o room) /\
  (o <= 0 -> z' = z).

(** Likewise for a sizer that gives space up. *)
Definition released (o : Q) (room : Q) (z z' : BoxSizer) : Prop :=
  (0 < o -> frame z z' /\ sizeHint z' == size z - Qmin o room) /\
  (o <= 0 -> z' = z).

(** The sizers strictly between [j] and the boundary: [j+1 .. i] on the
    left of it, [i+1 .. j-1] on the right. *)
Definition nearerLeft (s : list BoxSizer) (i j : nat) : list BoxSizer :=
  take (i - j) (drop (S j) s).
Definition nearerRight (s : list BoxSizer) (i j : nat) : list BoxSizer :=
  take (j - S i) (drop (S i) s).

(** The cascade of [growSizer], sizer by sizer: the left group absorbs
    walking backward from [i], the right group releases walking forward
    from [i + 1]. *)
Definition grow_cascade (s s' : list BoxSizer) (i : nat) (eff : Q) : Prop :=
  forall j z z', s !! j = Some z -> s' !! j = Some z' ->
    ((j <= i)%nat ->
       absorbed (overflow eff (map growRoom (nearerLeft s i j)))
                (growRoom z) z z') /\
    ((i < j)%nat ->
       released (overflow eff (map shrinkRoomN (nearerRight s i j)))
                (shrinkRoom z) z z').

(** The cascade of [shrinkSizer]: the mirror image. *)
Definition shrink_cascade (s s' : list BoxSizer) (i : nat) (eff : Q)
  : Prop :=
  forall j z z', s !! j = Some z -> s' !! j = Some z' ->
    ((j <= i)%nat ->
       released (overflow eff (map shrinkRoomN (nearerLeft s i j)))
                (shrinkRoom z) z z') /\
    ((i < j)%nat ->
       absorbed (overflow eff (map growRoom (nearerRight s i j)))
                (growRoom z) z z').

(** The call reaches the adjustment: the handle exists, is not hidden and
    has to move. *)
Definition adjusts (L : SplitLayout) (index : Z) (position : Q) : Prop :=
  exists h, at_ (_handles L) index = Some h /\ hidden h = false /\
            ~ handleDelta (_orientation L) h position == 0.

(** The layout an outcome leaves behind. *)
Definition layout_after (o : outcome) : SplitLayout :=
  match o with
  | Returned L => L
  | TypeError L => L
  end.

(** A slot has been granted something between nothing and its room. *)
Definition slot_ok (s : Slot) : Prop :=
  0 <= granted s /\ Num.le (granted s) (room s).

(** The number of slots that still have headroom. *)
Definition countOpen (slots : list Slot) : nat :=
  length (List.filter isOpen slots).

(** [minSize <= maxSize], as the data model requires. *)
Definition well_bounded (z : BoxSizer) : Prop :=
  Num.le (minSize z) (maxSize z).

(** Every field but [size] is kept. *)
Definition resized (z z' : BoxSizer) : Prop :=
  sizeHint z' = sizeHint z /\ minSize z' = minSize z /\
  maxSize z' = maxSize z /\ stretch z' = stretch z.

(** The size sits at the maximum. *)
Definition at_max (z : BoxSizer) : Prop := Num.eq (Fin (size z)) (maxSize z).

(** The starting point of the distribution: the clamped hints. *)
Definition start (sizers : list BoxSizer) : list BoxSizer :=
  map (fun z => set_size z (clamp (minSize z) (maxSize z) (sizeHint z)))
      sizers.

(** A granted share fits in the room left or saturates the slot. *)
Definition fits (share : Slot -> Q) (s : Slot) : bool :=
  match room s with
  | Fin r => Qle_bool (granted s + share s) r
  | Infinity => true
  end.

(** The extent [_update] lays the children out in, along the main axis:
    the offset dimension (measured when unknown) less border and
    padding. *)
Definition contentExtent (L : SplitLayout) (measured : Q * Q)
           (box : BoxSizing) (offsetWidth offsetHeight : Q) : Q :=
  match _orientation L with
  | Horizontal =>
    (if Qlt_le_dec offsetWidth 0 then fst measured else offsetWidth)
    - horizontalSum box
  | Vertical =>
    (if Qlt_le_dec offsetHeight 0 then snd measured else offsetHeight)
    - verticalSum box
  end.

(** The child at index [i] is the last one that is not hidden. *)
Definition last_visible (widgets : list Child) (i : nat) : Prop :=
  (exists w, widgets !! i = Some w /\ isHidden w = false) /\
  forall j w, (i < j)%nat -> widgets !! j = Some w -> isHidden w = true.

(** The drag example: two sizers with bounds [10, 100] at size 50, the
    first handle at offset 50. *)
Definition drag_sizers : list BoxSizer :=
  [ mkSizer 50 10 (Fin 100) 1 50; mkSizer 50 10 (Fin 100) 1 50 ].

Definition drag_layout : SplitLayout :=
  {| _sizers := drag_sizers;
     _handles := [ mkHandle false 50 0; mkHandle true 103 0 ];
     _orientation := Horizontal; _spacing := 3; _fixed := 3;
     _dirty := false; hasParent := true; posted := [] |}.

(** The drag example as the specification words it, reading the value of
    a sizer through [value]. *)
Definition drag_clamp_claim (value : BoxSizer -> Q) : Prop :=
  exists z0 z1, growSizer drag_sizers 0 1000 = Some [z0; z1] /\
    value z0 == 100 /\ value z1 == 10 /\ value z0 + value z1 == 110.

End SizerSpec.

(** ** Widgets *)

Module Widgets.

Local Open Scope Z_scope.

(** A widget is a heap object; [wid] is its identity. *)
Definition wid : Type := nat.

(** The enum [WidgetFlag] and its bit values. *)
Inductive WidgetFlag : Type :=
| IsDisposed
| IsAttached
| IsHidden
| IsVisible
| DisallowLayout.

#[global] Instance WidgetFlag_eq_dec : EqDecision WidgetFlag.
Proof. solve_decision. Defined.

Definition flagBit (f : WidgetFlag) : Z :=
  match f with
  | IsDisposed => 0x1
  | IsAttached => 0x2
  | IsHidden => 0x4
  | IsVisible => 0x8
  | DisallowLayout => 0x10
  end.

(** The position of the bit of a flag. *)
Definition flagIndex (f : WidgetFlag) : Z :=
  match f with
  | IsDisposed => 0
  | IsAttached => 1
  | IsHidden => 2
  | IsVisible => 3
  | DisallowLayout => 4
  end.

(** The DOM node of a widget, as far as the widget code looks at it:
    whether [document.body] contains it and whether it carries the hidden
    class. *)
Record Node : Type := mkNode {
  inBody : bool;
  classHidden : bool
}.

(** Modelled from the spec: a layout (layout.ts is not among the sources)
    holds "an ordered child sequence"; the widget delegates its children
    to it. *)
Record Layout : Type := mkLayoutOf {
  children : list wid
}.

(** The fields of a [Widget]; [attachedData] stands for the signal,
    message and property data the core library keeps for the widget. *)
Record Widget : Type := mkWidget {
  _flags : Z;
  _node : option Node;
  _layout : option Layout;
  _parent : option wid;
  attachedData : bool
}.

(** The message types [processMessage] dispatches on. *)
Inductive Msg : Type :=
| Resize
| UpdateRequest
| AfterShow
| BeforeHide
| AfterAttach
| BeforeDetach
| CloseRequest
| ChildAdded (child : wid)
| ChildRemoved (child : wid)
| ChildShown (child : wid)
| ChildHidden (child : wid)
| FitRequest
| LayoutChanged
| ParentChanged.

(** What a run leaves in the trace, in order: each message sent, each
    assignment of a parent reference, each emission of the disposed
    signal. *)
Inductive Event : Type :=
| Sent (target : wid) (msg : Msg)
| ParentAssigned (w : wid) (value : option wid)
| DisposedEmitted (w : wid).

(** The heap of widgets and the trace. *)
Record State : Type := mkState {
  heap : gmap wid Widget;
  trace : list Event
}.

(** A widget right after construction. *)
Definition fresh : Widget :=
  {| _flags := 0; _node := Some (mkNode false false); _layout := None;
     _parent := None; attachedData := false |}.

(** Reading and writing a widget; an identity the heap does not mention
    denotes a widget nothing has touched since its construction. *)
Definition get (s : State) (w : wid) : Widget := default fresh (heap s !! w).

Definition put (w : wid) (W : Widget) (s : State) : State :=
  {| heap := <[w := W]> (heap s); trace := trace s |}.

Definition record (e : Event) (s : State) : State :=
  {| heap := heap s; trace := trace s ++ [e] |}.

(** The outcome of a call: it returns, it throws (the state is the one
    the throw leaves behind), or the model runs out of fuel. *)
Inductive res : Type :=
| Ok (s : State)
| Thrown (e : string) (s : State)
| OutOfFuel.

Definition bind (r : res) (k : State -> res) : res :=
  match r with
  | Ok s => k s
  | Thrown e s => Thrown e s
  | OutOfFuel => OutOfFuel
  end.

Notation "'do' s <- r ; k" := (bind r (fun s => k))
  (at level 10, s name, r at level 100, k at level 200).

(** [testFlag], [setFlag] and [clearFlag] on the bits. *)
Definition testBits (flags : Z) (f : WidgetFlag) : bool :=
  negb (Z.land flags (flagBit f) =? 0).
Definition setBits (flags : Z) (f : WidgetFlag) : Z :=
  Z.lor flags (flagBit f).
Definition clearBits (flags : Z) (f : WidgetFlag) : Z :=
  Z.land flags (Z.lnot (flagBit f)).

Definition with_flags (W : Widget) (flags : Z) : Widget :=
  {| _flags := flags; _node := _node W; _layout := _layout W;
     _parent := _parent W; attachedData := attachedData W |}.
Definition with_node (W : Widget) (n : option Node) : Widget :=
  {| _flags := _flags W; _node := n; _layout := _layout W;
     _parent := _parent W; attachedData := attachedData W |}.
Definition with_layout (W : Widget) (l : option Layout) : Widget :=
  {| _flags := _flags W; _node := _node W; _layout := l;
     _parent := _parent W; attachedData := attachedData W |}.
Definition with_parent (W : Widget) (p : option wid) : Widget :=
  {| _flags := _flags W; _node := _node W; _layout := _layout W;
     _parent := p; attachedData := attachedData W |}.
Definition with_data (W : Widget) (d : bool) : Widget :=
  {| _flags := _flags W; _node := _node W; _layout := _layout W;
     _parent := _parent W; attachedData := d |}.

(** [Widget.testFlag], [Widget.setFlag], [Widget.clearFlag]. *)
Definition testFlag (s : State) (w : wid) (f : WidgetFlag) : bool :=
  testBits (_flags (get s w)) f.
Definition setFlag (w : wid) (f : WidgetFlag) (s : State) : State :=
  put w (with_flags (get s w) (setBits (_flags (get s w)) f)) s.
Definition clearFlag (w : wid) (f : WidgetFlag) (s : State) : State :=
  put w (with_flags (get s w) (clearBits (_flags (get s w)) f)) s.

(** The getters [isDisposed], [isAttached], [isHidden], [isVisible],
    [parent]. *)
Definition isDisposed (s : State) (w : wid) : bool := testFlag s w IsDisposed.
Definition isAttached (s : State) (w : wid) : bool := testFlag s w IsAttached.
Definition isHidden (s : State) (w : wid) : bool := testFlag s w IsHidden.
Definition isVisible (s : State) (w : wid) : bool := testFlag s w IsVisible.
Definition parent (s : State) (w : wid) : option wid := _parent (get s w).

(** [!this.parent || this.parent.isVisible]. *)
Definition parentVisible (s : State) (w : wid) : bool :=
  match parent s w with
  | None => true
  | Some p => isVisible s p
  end.

(** [addClass(HIDDEN_CLASS)] and [removeClass(HIDDEN_CLASS)]: a
    [TypeError] when the node reference has been released. *)
Definition setHiddenClass (w : wid) (b : bool) (s : State) : res :=
  match _node (get s w) with
  | None => Thrown "TypeError" s
  | Some n => Ok (put w (with_node (get s w) (Some (mkNode (inBody n) b))) s)
  end.

(** Running a callback over a sequence of widgets, in order. *)
Definition forEach (f : wid -> State -> res) (l : list wid) (s : State)
  : res :=
  fold_left (fun r c => bind r (f c)) l (Ok s).

(** Modelled from the spec: what a layout does with a message its parent
    widget forwards to it (layout.ts is not among the sources).
    "Lifecycle messages flow top-down (container to child)": after-attach
    and before-detach go to every child; after-show and before-hide go to
    the children that are not explicitly hidden, so that showing a parent
    restores a descendant "only if" the widgets on the path are "still not
    explicitly hidden" (sections 2, 4.3 and 8).  Nothing else is
    forwarded. *)
Definition layoutProcessParentMessage
           (send : wid -> Msg -> State -> res)
           (layout : Layout) (msg : Msg) (s : State) : res :=
  match msg with
  | AfterAttach | BeforeDetach =>
    forEach (fun c s => send c msg s) (children layout) s
  | AfterShow | BeforeHide =>
    forEach (fun c s => if isHidden s c then Ok s else send c msg s)
            (children layout) s
  | _ => Ok s
  end.

(** [Widget.contains]: the loop up the parent references. *)
Fixpoint contains (fuel : nat) (s : State) (this : wid) (widget : option wid)
  : option bool :=
  match widget with
  | None => Some false
  | Some x =>
    if decide (x = this) then Some true
    else match fuel with
         | O => None
         | S fuel => contains fuel s this (parent s x)
         end
  end.

(** The setter of [parent], over the way messages are sent. *)
Definition set_parent_with (fuel : nat) (send : wid -> Msg -> State -> res)
           (w : wid) (value : option wid) (s : State) : res :=
  if decide (parent s w = value) then Ok s
  else
    match (match value with
           | Some v => contains fuel s w (Some v)
           | None => Some false
           end) with
    | None => OutOfFuel
    | Some true => Thrown "Invalid parent widget." s
    | Some false =>
      do s1 <- match parent s w with
               | Some p =>
                 if isDisposed s p then Ok s else send p (ChildRemoved w) s
               | None => Ok s
               end;
      let s2 := record (ParentAssigned w value)
                       (put w (with_parent (get s1 w) value) s1) in
      do s3 <- match parent s2 w with
               | Some p =>
                 if isDisposed s2 p then Ok s2 else send p (ChildAdded w) s2
               | None => Ok s2
               end;
      send w ParentChanged s3
    end.

(** [Widget.detach], over the way messages are sent. *)
Definition detach_with (send : wid -> Msg -> State -> res) (w : wid)
           (s : State) : res :=
  match parent s w with
  | Some _ => Thrown "Cannot detach child widget." s
  | None =>
    let inDocument :=
      match _node (get s w) with
      | Some n => inBody n
      | None => false
      end in
    if negb (isAttached s w) || negb inDocument
    then Thrown "Widget not attached." s
    else
      do s1 <- send w BeforeDetach s;
      match _node (get s1 w) with
      | None => Thrown "TypeError" s1
      | Some n =>
        Ok (put w (with_node (get s1 w) (Some (mkNode false (classHidden n))))
                s1)
      end
  end.

(** [Widget.processMessage]; [onCloseRequest] is the only handler of the
    base class that does something. *)
Fixpoint processMessage (fuel : nat) (w : wid) (msg : Msg) (s : State)
         {struct fuel} : res :=
  match fuel with
  | O => OutOfFuel
  | S fuel =>
    let send := fun target m s =>
      processMessage fuel target m (record (Sent target m) s) in
    let notifyLayout := fun s =>
      match _layout (get s w) with
      | Some layout => layoutProcessParentMessage send layout msg s
      | None => Ok s
      end in
    match msg with
    | AfterShow =>
      notifyLayout (setFlag w IsVisible s)
    | BeforeHide =>
      do s1 <- notifyLayout s;
      Ok (clearFlag w IsVisible s1)
    | AfterAttach =>
      let visible := negb (isHidden s w) && parentVisible s w in
      let s1 := if visible then setFlag w IsVisible s else s in
      notifyLayout (setFlag w IsAttached s1)
    | BeforeDetach =>
      do s1 <- notifyLayout s;
      Ok (clearFlag w IsAttached (clearFlag w IsVisible s1))
    | CloseRequest =>
      do s1 <- notifyLayout s;
      match parent s1 w with
      | Some _ => set_parent_with fuel send w None s1
      | None => if isAttached s1 w then detach_with send w s1 else Ok s1
      end
    | _ => notifyLayout s
    end
  end.

(** [sendMessage] of the core library: the handler processes the message at
    once. *)
Definition sendMessage (fuel : nat) (target : wid) (msg : Msg) (s : State)
  : res :=
  processMessage fuel target msg (record (Sent target msg) s).

(** The setter of [parent]. *)
Definition set_parent (fuel : nat) (w : wid) (value : option wid) (s : State)
  : res :=
  set_parent_with fuel (sendMessage fuel) w value s.

(** [Widget.attach]; [hostInBody] says whether [document.body] contains
    the host. *)
Definition attach (fuel : nat) (w : wid) (hostInBody : bool) (s : State)
  : res :=
  match parent s w with
  | Some _ => Thrown "Cannot attach child widget." s
  | None =>
    match _node (get s w) with
    | None =>
      if isAttached s w then Thrown "Widget already attached." s
      else if negb hostInBody then Thrown "Host not attached." s
      else Thrown "TypeError" s
    | Some n =>
      if isAttached s w || inBody n then Thrown "Widget already attached." s
      else if negb hostInBody then Thrown "Host not attached." s
      else
        sendMessage fuel w AfterAttach
          (put w (with_node (get s w) (Some (mkNode true (classHidden n)))) s)
    end
  end.

(** [Widget.detach]. *)
Definition detach (fuel : nat) (w : wid) (s : State) : res :=
  detach_with (sendMessage fuel) w s.

(** [Widget.show]. *)
Definition show (fuel : nat) (w : wid) (s : State) : res :=
  if negb (testFlag s w IsHidden) then Ok s
  else
    do s1 <- setHiddenClass w false (clearFlag w IsHidden s);
    do s2 <- (if isAttached s1 w && parentVisible s1 w
              then sendMessage fuel w AfterShow s1 else Ok s1);
    match parent s2 w with
    | Some p => sendMessage fuel p (ChildShown w) s2
    | None => Ok s2
    end.

(** [Widget.hide]. *)
Definition hide (fuel : nat) (w : wid) (s : State) : res :=
  if testFlag s w IsHidden then Ok s
  else
    do s1 <- (if isAttached s w && parentVisible s w
              then sendMessage fuel w BeforeHide s else Ok s);
    do s2 <- setHiddenClass w true (setFlag w IsHidden s1);
    match parent s2 w with
    | Some p => sendMessage fuel p (ChildHidden w) s2
    | None => Ok s2
    end.

(** [Widget.dispose].  Modelled from the spec: disposing the layout
    (layout.ts is not among the sources) disposes the child widgets, which
    "leaves both children without a parent reference" (section 8; the
    source says "Dispose of the widget and its descendant widgets"). *)
Fixpoint dispose (fuel : nat) (w : wid) (s : State) {struct fuel} : res :=
  match fuel with
  | O => OutOfFuel
  | S fuel =>
    if isDisposed s w then Ok s
    else
      let s1 := record (DisposedEmitted w) (setFlag w IsDisposed s) in
      do s2 <- match parent s1 w with
               | Some _ => set_parent fuel w None s1
               | None =>
                 if isAttached s1 w then detach fuel w s1 else Ok s1
               end;
      do s3 <- match _layout (get s2 w) with
               | Some layout =>
                 do s' <- forEach (dispose fuel) (children layout) s2;
                 Ok (put w (with_layout (get s' w) None) s')
               | None => Ok s2
               end;
      let s4 := put w (with_data (get s3 w) false) s3 in
      Ok (put w (with_node (get s4 w) None) s4)
  end.

End Widgets.

(** ** Vocabulary of the widget claims *)

Module WidgetSpec.

Import Widgets.

(** [x] is [this] or one of its descendants: the parent references lead
    from [x] up to [this]. *)
Inductive descends (s : State) (this : wid) : wid -> Prop :=
| descends_self : descends s this this
| descends_step x p :
    parent s x = Some p -> descends s this p -> descends s this x.

(** [a] is a proper ancestor of [x]. *)
Inductive ancestor (s : State) (a : wid) : wid -> Prop :=
| ancestor_parent x : parent s x = Some a -> ancestor s a x
| ancestor_step x p :
    parent s x = Some p -> ancestor s a p -> ancestor s a x.

(** The parent references lead from [x] to a root in [n] steps. *)
Inductive depth (s : State) : wid -> nat -> Prop :=
| depth_root x : parent s x = None -> depth s x 0
| depth_child x p n :
    parent s x = Some p -> depth s p n -> depth s x (S n).

(** The children a widget has through its layout. *)
Definition childrenOf (s : State) (p : wid) : list wid :=
  match _layout (get s p) with
  | Some layout => children layout
  | None => []
  end.

(** The messages the base widget and the modelled layout only pass on. *)
Definition passive (msg : Msg) : Prop :=
  match msg with
  | AfterShow | BeforeHide | AfterAttach | BeforeDetach | CloseRequest =>
    False
  | _ => True
  end.

(** What an effective assignment of [value] to the parent of [w] leaves in
    the trace, in order. *)
Definition reparentEvents (s : State) (w : wid) (value : option wid)
  : list Event :=
  match parent s w with
  | Some p => if isDisposed s p then [] else [Sent p (ChildRemoved w)]
  | None => []
  end
  ++ [ParentAssigned w value]
  ++ match value with
     | Some v => if isDisposed s v then [] else [Sent v (ChildAdded w)]
     | None => []
     end
  ++ [Sent w ParentChanged].

(** The four messages a layout forwards to its children. *)
Definition lifecycle (msg : Msg) : Prop :=
  match msg with
  | AfterShow | BeforeHide | AfterAttach | BeforeDetach => True
  | _ => False
  end.

(** The forwarding of a message skips the children that are explicitly
    hidden. *)
Definition skipsHidden (msg : Msg) : bool :=
  match msg with
  | AfterShow | BeforeHide => true
  | _ => false
  end.

(** What [processMessage] does to the flags of the widget before and after
    it notifies the layout. *)
Definition before (msg : Msg) (w : wid) (s : State) : State :=
  match msg with
  | AfterShow => setFlag w IsVisible s
  | AfterAttach =>
    setFlag w IsAttached
      (if negb (isHidden s w) && parentVisible s w
       then setFlag w IsVisible s else s)
  | _ => s
  end.

Definition after (msg : Msg) (w : wid) (s : State) : State :=
  match msg with
  | BeforeHide => clearFlag w IsVisible s
  | BeforeDetach => clearFlag w IsAttached (clearFlag w IsVisible s)
  | _ => s
  end.

(** The notification of the layout, with the forwarding spelled out. *)
Definition notify (fuel : nat) (w : wid) (msg : Msg) (s : State) : res :=
  forEach (fun c s =>
             if skipsHidden msg && isHidden s c then Ok s
             else processMessage fuel c msg (record (Sent c msg) s))
          (childrenOf s w) s.

(** Two widget records differ at most in the visible and attached bits. *)
Definition stable (W W' : Widget) : Prop :=
  _node W' = _node W /\ _layout W' = _layout W /\ _parent W' = _parent W /\
  attachedData W' = attachedData W /\
  forall f, f <> IsVisible -> f <> IsAttached ->
            testBits (_flags W') f = testBits (_flags W) f.

(** Two states differ at most in visible and attached bits (and in the
    trace). *)
Definition wframe (s s' : State) : Prop :=
  forall x, stable (get s x) (get s' x).

(** [rank] decreases from a widget to the children of its layout. *)
Definition ranked (rank : wid -> nat) (s : State) : Prop :=
  forall p c, In c (childrenOf s p) -> (rank c < rank p)%nat.

(** No visible or attached bit is set between [s] and [s'], and none is
    cleared between [s] and [s'], respectively. *)
Definition fading (s s' : State) : Prop :=
  forall x f, testFlag s' x f = true -> testFlag s x f = true.
Definition growing (s s' : State) : Prop :=
  forall x f, testFlag s x f = true -> testFlag s' x f = true.

(** A widget that has been disposed of completely. *)
Definition gone (s : State) (x : wid) : Prop :=
  isDisposed s x = true /\ parent s x = None /\ _layout (get s x) = None /\
  _node (get s x) = None /\ attachedData (get s x) = false.

(** Every attached root that is not disposed has its node in the
    document. *)
Definition hosted (s : State) : Prop :=
  forall x, isDisposed s x = false -> parent s x = None ->
            isAttached s x = true ->
            exists n, _node (get s x) = Some n /\ inBody n = true.

(** What disposals may do to a widget record: nothing gets attached, a
    widget that stays undisposed keeps everything but visible and attached
    bits, a disposed widget stays disposed and keeps what it has released,
    and no layout appears. *)
Definition decays (W W' : Widget) : Prop :=
  (testBits (_flags W') IsAttached = true ->
   testBits (_flags W) IsAttached = true) /\
  (testBits (_flags W') IsDisposed = false -> stable W W') /\
  (testBits (_flags W) IsDisposed = true ->
   testBits (_flags W') IsDisposed = true /\
   (_parent W = None -> _parent W' = None) /\
   (_layout W = None -> _layout W' = None) /\
   (_node W = None -> _node W' = None) /\
   (attachedData W = false -> attachedData W' = false)) /\
  (forall l, _layout W' = Some l -> _layout W = Some l).

Definition decay (s s' : State) : Prop :=
  forall x, decays (get s x) (get s' x).

(** What one call of [dispose] on [w] achieves, [Pend] being the widgets
    whose disposal is under way further up. *)
Definition disposes (fuel : nat) (w : wid) (s : State) (Pend : wid -> Prop)
  : Prop :=
  exists s', dispose fuel w s = Ok s' /\ decay s s' /\ gone s' w /\
    (forall x, isDisposed s' x = true -> gone s' x \/ Pend x) /\
    (isDisposed s w = false ->
     (forall c, In c (childrenOf s w) -> gone s' c) /\
     (parent s w = None -> isAttached s' w = false)).

(** The visibility invariant at one widget: a visible widget is attached,
    not explicitly hidden, and its parent, if any, is visible. *)
Definition visibleOk (s : State) (x : wid) : Prop :=
  isVisible s x = true ->
  isAttached s x = true /\ isHidden s x = false /\ parentVisible s x = true.

(** A child is attached exactly when its parent is. *)
Definition attachedOk (s : State) (x : wid) : Prop :=
  forall p, parent s x = Some p -> isAttached s x = isAttached s p.

Definition sound (s : State) : Prop :=
  (forall x, attachedOk s x) /\ (forall x, visibleOk s x).

(** What an after-show traversal from [w] relies on. *)
Definition showable (s : State) (w : wid) : Prop :=
  isAttached s w = true /\ isHidden s w = false /\
  parentVisible s w = true /\ forall x, attachedOk s x.

(** The layouts and the parent references describe the same tree. *)
Definition linked (s : State) : Prop :=
  forall p c, In c (childrenOf s p) <-> parent s c = Some p.

(** A forest of widgets that have their nodes. *)
Definition forest (rank : wid -> nat) (s : State) : Prop :=
  ranked rank s /\ linked s /\ forall x, _node (get s x) <> None.

(** Nothing is attached and nothing is visible. *)
Definition detached (s : State) : Prop :=
  forall x, isAttached s x = false /\ isVisible s x = false.

(** Two states have the same tree, and no node has been released. *)
Definition kin (s s' : State) : Prop :=
  forall x, _layout (get s' x) = _layout (get s x) /\
            _parent (get s' x) = _parent (get s x) /\
            (_node (get s x) <> None -> _node (get s' x) <> None).

(** Two states that have the same tree and the same flags. *)
Definition steady (s s' : State) : Prop :=
  kin s s' /\ forall x, _flags (get s' x) = _flags (get s x).

(** The target flag of the two messages that attach and detach. *)
Definition attaching (msg : Msg) (b : bool) : Prop :=
  (msg = BeforeDetach /\ b = false) \/ (msg = AfterAttach /\ b = true).

(** The operations that show, hide, attach and detach a widget. *)
Inductive Op : Type :=
| Attach (w : wid) (hostInBody : bool)
| Detach (w : wid)
| Show (w : wid)
| Hide (w : wid).

Definition run (fuel : nat) (o : Op) (s : State) : res :=
  match o with
  | Attach w hostInBody => attach fuel w hostInBody s
  | Detach w => detach fuel w s
  | Show w => show fuel w s
  | Hide w => hide fuel w s
  end.

(** The state a call leaves behind, whether it returns or throws. *)
Definition settled (r : res) : option State :=
  match r with
  | Ok s => Some s
  | Thrown _ s => Some s
  | OutOfFuel => None
  end.

(** The states these operations lead to from [s0]. *)
Inductive reachable (s0 : State) : State -> Prop :=
| reachable_start : reachable s0 s0
| reachable_step s fuel o s' :
    reachable s0 s -> settled (run fuel o s) = Some s' -> reachable s0 s'.

(** No widget has been touched since its construction. *)
Definition blank : State := mkState ∅ [].

Definition chainRank (x : wid) : nat := (2 - x)%nat.

(** The chain parent 0, child 1, grandchild 2, all detached. *)
Definition chain : State :=
  mkState
    (<[0%nat := with_layout fresh (Some (mkLayoutOf [1%nat]))]>
     (<[1%nat := with_parent
                   (with_layout fresh (Some (mkLayoutOf [2%nat])))
                   (Some 0%nat)]>
      (<[2%nat := with_parent fresh (Some 1%nat)]> ∅)))
    [].


(** The state a call leaves behind, [s] itself if the call runs out of
    fuel. *)
Definition next (r : res) (s : State) : State := default s (settled r).

(** The chain once its root is attached to a host in the document. *)
Definition chainAttached : State := next (attach 3 0 true chain) chain.

(** A visible attached root 0 whose layout holds the children 1 and 2. *)
Definition family : State :=
  let shown := setBits (setBits 0 IsAttached) IsVisible in
  mkState
    (<[0%nat := mkWidget shown (Some (mkNode true false))
                         (Some (mkLayoutOf [1%nat; 2%nat])) None true]>
     (<[1%nat := mkWidget shown (Some (mkNode false false)) None
                          (Some 0%nat) true]>
      (<[2%nat := mkWidget shown (Some (mkNode false false)) None
                           (Some 0%nat) false]> ∅)))
    [].

Definition familyRank (x : wid) : nat :=
  match x with O => 1%nat | _ => 0%nat end.

End WidgetSpec.

(** ** Further operations of a widget *)

Module WidgetOps.

Import Widgets WidgetSpec.

(** [Widget.close]: a close request is sent to the widget. *)
Definition close (fuel : nat) (w : wid) (s : State) : res :=
  sendMessage fuel w CloseRequest s.

(** [Widget.setHidden]. *)
Definition setHidden (fuel : nat) (w : wid) (hidden : bool) (s : State)
  : res :=
  if hidden then hide fuel w s else show fuel w s.

(** Every widget has a finite chain of parents above it. *)
Definition grounded (s : State) : Prop := forall x, exists d, depth s x d.

(** The other half of the visibility invariant at one widget: attached,
    not explicitly hidden and below a visible parent, if any, it is
    visible. *)
Definition visibleDue (s : State) (x : wid) : Prop :=
  isAttached s x = true -> isHidden s x = false ->
  parentVisible s x = true -> isVisible s x = true.

(** Two states agree on every flag and on the tree. *)
Definition sameFlags (s s' : State) : Prop :=
  forall x, parent s' x = parent s x /\
            _layout (get s' x) = _layout (get s x) /\
            forall f, testFlag s' x f = testFlag s x f.

(** A widget is untouched, or has lost the visible and the attached
    flag. *)
Definition cleared (s s' : State) : Prop :=
  forall x, (forall f, testFlag s' x f = testFlag s x f) \/
            (isVisible s' x = false /\ isAttached s' x = false).

(** Whether the traversal of a message that shows or attaches makes the
    widget it reaches visible. *)
Definition willShow (msg : Msg) (s : State) (w : wid) : Prop :=
  match msg with
  | AfterShow => True
  | _ => isHidden s w = false /\ parentVisible s w = true
  end.

(** Both halves of the visibility invariant, everywhere. *)
Definition settledView (s : State) : Prop :=
  sound s /\ forall x, visibleDue s x.

End WidgetOps.

From Stdlib Require Import Qround.

(** ** The class list of a node *)

Module ClassList.

(** The token list behind [node.classList]: an ordered set of class
    names, with the [contains], [add], [remove] and [toggle] of the DOM. *)
Definition contains (cl : list string) (name : string) : bool :=
  existsb (String.eqb name) cl.

Definition add (cl : list string) (name : string) : list string :=
  if contains cl name then cl else cl ++ [name].

Definition remove (cl : list string) (name : string) : list string :=
  List.filter (fun c => negb (String.eqb name c)) cl.

Definition toggle (cl : list string) (name : string) : bool * list string :=
  if contains cl name then (false, remove cl name) else (true, add cl name).

(** [Widget.hasClass]; the node reference ([None] once it is released) is
    dereferenced first: a [TypeError] is [None]. *)
Definition hasClass (node : option (list string)) (name : string)
  : option bool :=
  match node with
  | Some cl => Some (contains cl name)
  | None => None
  end.

(** [Widget.toggleClass]: the returned flag and the node afterwards. *)
Definition toggleClass (node : option (list string)) (name : string)
           (force : option bool) : option (bool * list string) :=
  match node with
  | None => None
  | Some cl =>
    match force with
    | Some true => Some (true, add cl name)
    | Some false => Some (false, remove cl name)
    | None => Some (toggle cl name)
    end
  end.

Definition HORIZONTAL_CLASS : string := "p-mod-horizontal".
Definition VERTICAL_CLASS : string := "p-mod-vertical".

End ClassList.

(** ** Further operations of the split layout *)

Module SplitOps.

Import BoxEngine Split.
Local Open Scope Q_scope.

Definition with_posted (L : SplitLayout) (p : list Posted) : SplitLayout :=
  {| _sizers := _sizers L; _handles := _handles L;
     _orientation := _orientation L; _spacing := _spacing L;
     _fixed := _fixed L; _dirty := _dirty L; hasParent := hasParent L;
     posted := p |}.

Definition with_spacing (L : SplitLayout) (v : Q) : SplitLayout :=
  {| _sizers := _sizers L; _handles := _handles L;
     _orientation := _orientation L; _spacing := v;
     _fixed := _fixed L; _dirty := _dirty L; hasParent := hasParent L;
     posted := posted L |}.

Definition with_orientation (L : SplitLayout) (o : Orientation)
  : SplitLayout :=
  {| _sizers := _sizers L; _handles := _handles L;
     _orientation := o; _spacing := _spacing L;
     _fixed := _fixed L; _dirty := _dirty L; hasParent := hasParent L;
     posted := posted L |}.

(** [this.parent.fit()]: a fit request is posted to the parent. *)
Definition fit (L : SplitLayout) : SplitLayout :=
  with_posted L (posted L ++ [PostFitRequest]).

(** The setter of [spacing]. *)
Definition set_spacing (L : SplitLayout) (value : Q) : SplitLayout :=
  let value := Qmax 0 (inject_Z (Qfloor value)) in
  if Qeq_bool (_spacing L) value then L
  else
    let L := with_spacing L value in
    if hasParent L then fit L else L.

Definition sameOrientation (a b : Orientation) : bool :=
  match a, b with
  | Horizontal, Horizontal | Vertical, Vertical => true
  | _, _ => false
  end.

(** [Private.toggleOrientation], on the class list of the widget's
    node. *)
Definition toggleOrientation (node : option (list string))
           (orient : Orientation) : option (list string) :=
  match ClassList.toggleClass node ClassList.HORIZONTAL_CLASS
                              (Some (sameOrientation orient Horizontal)) with
  | None => None
  | Some (_, cl) =>
    match ClassList.toggleClass (Some cl) ClassList.VERTICAL_CLASS
                                (Some (sameOrientation orient Vertical)) with
    | None => None
    | Some (_, cl) => Some cl
    end
  end.

(** The setter of [orientation]; [node] is the node of the parent widget,
    which is read only when the layout has a parent.  A [TypeError] is
    [None]. *)
Definition set_orientation (L : SplitLayout) (node : option (list string))
           (value : Orientation)
  : option (SplitLayout * option (list string)) :=
  if sameOrientation (_orientation L) value then Some (L, node)
  else
    let L := with_orientation L value in
    if hasParent L then
      match toggleOrientation node value with
      | None => None
      | Some cl => Some (fit L, Some cl)
      end
    else Some (L, node).

(** The orientation classes of the node say [o]. *)
Definition oriented (cl : list string) (o : Orientation) : Prop :=
  ClassList.contains cl ClassList.HORIZONTAL_CLASS
  = sameOrientation o Horizontal /\
  ClassList.contains cl ClassList.VERTICAL_CLASS
  = sameOrientation o Vertical.

(** Two sizers that agree, their hints as numbers. *)
Definition alike (z z' : BoxSizer) : Prop :=
  SizerSpec.frame z z' /\ sizeHint z' == sizeHint z.

(** The loop of [setSizes]: the first [min(sizers.length, sizes.length)]
    sizers get the hint and the size [Math.max(0, sizes[i])]. *)
Fixpoint setSizesLoop (zs : list BoxSizer) (sizes : list Q)
  : list BoxSizer :=
  match zs, sizes with
  | z :: zs', v :: sizes' =>
    let hint := Qmax 0 v in
    set_size (set_sizeHint z hint) hint :: setSizesLoop zs' sizes'
  | _, _ => zs
  end.

(** [SplitLayout.setSizes]. *)
Definition setSizes (L : SplitLayout) (sizes : list Q) : SplitLayout :=
  requestUpdate (set_sizers L (setSizesLoop (_sizers L) sizes)).

(** [Private.averageSize]: the quotient is [NaN] for an empty vector,
    which [|| 0] replaces, as it replaces a zero. *)
Definition averageSize (sizers : list BoxSizer) : Q :=
  match sizers with
  | [] => 0
  | _ =>
    fold_left (fun v s => v + size s) sizers 0
    / inject_Z (Z.of_nat (length sizers))
  end.

(** *** The fit pass *)

(** [sizeLimits(widget.node)]. *)
Record SizeLimits : Type := mkLimits {
  minWidth : Q;
  minHeight : Q;
  maxWidth : num;
  maxHeight : num
}.

(** What the fit pass reads of a widget: whether it is hidden, the size
    limits of its node and its stretch factor. *)
Record FitItem : Type := mkItem {
  itemHidden : bool;
  itemLimits : SizeLimits;
  itemStretch : nat
}.

(** The size constraints the pass computes for the parent node. *)
Record Bounds : Type := mkBounds {
  minW : Q;
  minH : Q;
  maxW : num;
  maxH : num
}.

(** [Math.min] on two extended numbers. *)
Definition numMin (a b : num) : num :=
  match a with
  | Fin x => Fin (Num.min x b)
  | Infinity => b
  end.

(** The limits of a widget along and across the layout direction. *)
Definition minAlong (horz : bool) (l : SizeLimits) : Q :=
  if horz then minWidth l else minHeight l.
Definition maxAlong (horz : bool) (l : SizeLimits) : num :=
  if horz then maxWidth l else maxHeight l.

(** What one round of the second loop of [_fit] does to the sizer. *)
Definition fitSizer (horz : bool) (w : FitItem) (z : BoxSizer) : BoxSizer :=
  let z := pinHint z in
  if itemHidden w then
    {| sizeHint := sizeHint z; minSize := 0; maxSize := Fin 0;
       stretch := stretch z; size := size z |}
  else
    {| sizeHint := sizeHint z; minSize := minAlong horz (itemLimits w);
       maxSize := maxAlong horz (itemLimits w);
       stretch := itemStretch w; size := size z |}.

(** What it does to the computed limits. *)
Definition fitBounds (horz : bool) (w : FitItem) (b : Bounds) : Bounds :=
  if itemHidden w then b
  else
    let l := itemLimits w in
    if horz then
      {| minW := minW b + minWidth l;
         minH := Qmax (minH b) (minHeight l);
         maxW := Num.add (maxW b) (maxWidth l);
         maxH := numMin (maxH b) (maxHeight l) |}
    else
      {| minW := Qmax (minW b) (minWidth l);
         minH := minH b + minHeight l;
         maxW := numMin (maxW b) (maxWidth l);
         maxH := Num.add (maxH b) (maxHeight l) |}.

(** The second loop of [_fit], from index [i] on; a missing sizer is a
    [TypeError]: [None]. *)
Fixpoint fitSizersLoop (horz : bool) (i : nat) (widgets : list FitItem)
         (sizers : list BoxSizer) (b : Bounds)
  : option (list BoxSizer * Bounds) :=
  match widgets with
  | [] => Some (sizers, b)
  | w :: rest =>
    match sizers !! i with
    | None => None
    | Some z =>
      fitSizersLoop horz (S i) rest (<[i := fitSizer horz w z]> sizers)
                    (fitBounds horz w b)
    end
  end.

(** The limits the loop starts from. *)
Definition initialBounds (horz : bool) (fixed : Q) (nVisible : nat)
  : Bounds :=
  if horz then
    {| minW := fixed; minH := 0;
       maxW := if (0 <? nVisible)%nat then Fin fixed else Infinity;
       maxH := Infinity |}
  else
    {| minW := 0; minH := fixed;
       maxW := Infinity;
       maxH := if (0 <? nVisible)%nat then Fin fixed else Infinity |}.

(** The box sizing is added to the limits. *)
Definition addBox (box : BoxSizing) (b : Bounds) : Bounds :=
  {| minW := minW b + horizontalSum box;
     minH := minH b + verticalSum box;
     maxW := Num.add (maxW b) (Fin (horizontalSum box));
     maxH := Num.add (maxH b) (Fin (verticalSum box)) |}.

(** [SplitLayout._fit], up to the two messages it sends at the end: the
    handles, the fixed space, the sizers, the dirty flag, and the size
    constraints written to the style of the parent node ([Infinity]
    stands for ['none']).  A [TypeError] is [None]. *)
Definition _fit (L : SplitLayout) (widgets : list FitItem) (box : BoxSizing)
  : option (SplitLayout * Bounds) :=
  match fitHandles (map (fun w => mkChild (itemHidden w)) widgets)
                   (_handles L) with
  | None => None
  | Some (handles, nVisible) =>
    let fixed := fixedSpace (_spacing L) nVisible in
    let horz := sameOrientation (_orientation L) Horizontal in
    match fitSizersLoop horz 0 widgets (_sizers L)
                        (initialBounds horz fixed nVisible) with
    | None => None
    | Some (sizers, b) =>
      Some ({| _sizers := sizers; _handles := handles;
               _orientation := _orientation L; _spacing := _spacing L;
               _fixed := fixed; _dirty := true; hasParent := hasParent L;
               posted := posted L |},
            addBox box b)
    end
  end.

(** The widgets that are not hidden. *)
Definition shown (widgets : list FitItem) : list FitItem :=
  List.filter (fun w => negb (itemHidden w)) widgets.

(** The limits of a widget across the layout direction, and the computed
    limits and the box sizing along and across it. *)
Definition minAcross (horz : bool) (l : SizeLimits) : Q :=
  if horz then minHeight l else minWidth l.
Definition maxAcross (horz : bool) (l : SizeLimits) : num :=
  if horz then maxHeight l else maxWidth l.
Definition alongMin (horz : bool) (b : Bounds) : Q :=
  if horz then minW b else minH b.
Definition alongMax (horz : bool) (b : Bounds) : num :=
  if horz then maxW b else maxH b.
Definition acrossMin (horz : bool) (b : Bounds) : Q :=
  if horz then minH b else minW b.
Definition acrossMax (horz : bool) (b : Bounds) : num :=
  if horz then maxH b else maxW b.
Definition boxAlong (horz : bool) (box : BoxSizing) : Q :=
  if horz then horizontalSum box else verticalSum box.
Definition boxAcross (horz : bool) (box : BoxSizing) : Q :=
  if horz then verticalSum box else horizontalSum box.

(** [a <= b] on extended numbers. *)
Definition numLe (a b : num) : Prop :=
  match a with
  | Fin x => Num.le x b
  | Infinity => b = Infinity
  end.

(** A layout and three widgets, the second one hidden. *)
Definition fit_layout : SplitLayout :=
  {| _sizers := [ mkSizer 0 0 Infinity 1 40; mkSizer 7 0 Infinity 1 0;
                  mkSizer 0 0 Infinity 1 60 ];
     _handles := [ mkHandle true 0 0; mkHandle false 0 0;
                   mkHandle false 0 0 ];
     _orientation := Horizontal; _spacing := 3; _fixed := 0;
     _dirty := false; hasParent := true; posted := [] |}.

Definition fit_widgets : list FitItem :=
  [ mkItem false (mkLimits 10 20 (Fin 100) Infinity) 1;
    mkItem true (mkLimits 50 50 (Fin 50) (Fin 50)) 0;
    mkItem false (mkLimits 30 5 Infinity (Fin 300)) 2 ].

(** *** The placement of the children *)

(** The arguments of a [setGeometry] call, or the geometry written to the
    style of a handle. *)
Record Rect : Type := mkRect {
  rLeft : Q;
  rTop : Q;
  rWidth : Q;
  rHeight : Q
}.

(** The last loop of [_update], from index [i] on: for every widget that
    is not hidden, its index, its geometry and the geometry of its
    handle.  A missing sizer or handle is a [TypeError]: [None]. *)
Fixpoint placeLoop (horz : bool) (spacing width height : Q) (i : nat)
         (widgets : list Child) (sizers : list BoxSizer)
         (handles : list Handle) (left top : Q)
  : option (list (nat * Rect * Rect)) :=
  match widgets with
  | [] => Some []
  | w :: rest =>
    if isHidden w then
      placeLoop horz spacing width height (S i) rest sizers handles left top
    else
      match sizers !! i, handles !! i with
      | Some z, Some _ =>
        let size := size z in
        if horz then
          let left' := left + size in
          option_map
            (cons (i, mkRect left top size height,
                      mkRect left' top spacing height))
            (placeLoop horz spacing width height (S i) rest sizers handles
                       (left' + spacing) top)
        else
          let top' := top + size in
          option_map
            (cons (i, mkRect left top width size,
                      mkRect left top' width spacing))
            (placeLoop horz spacing width height (S i) rest sizers handles
                       left (top' + spacing))
      | _, _ => None
      end
  end.

(** The position and the extent of a rectangle along the layout
    direction. *)
Definition startOf (horz : bool) (r : Rect) : Q :=
  if horz then rLeft r else rTop r.
Definition extentOf (horz : bool) (r : Rect) : Q :=
  if horz then rWidth r else rHeight r.

(** The indices, from [i] on, of the widgets that are not hidden. *)
Fixpoint visibleFrom (i : nat) (widgets : list Child) : list nat :=
  match widgets with
  | [] => []
  | w :: rest =>
    if isHidden w then visibleFrom (S i) rest
    else i :: visibleFrom (S i) rest
  end.

(** The placements follow one another from [start] on: a widget has the
    extent of its sizer, its handle begins where it ends and has the
    extent [spacing], and the next widget begins where the handle ends. *)
Fixpoint chained (horz : bool) (spacing : Q) (sizers : list BoxSizer)
         (start : Q) (ps : list (nat * Rect * Rect)) : Prop :=
  match ps with
  | [] => True
  | (k, g, h) :: rest =>
    (exists z, sizers !! k = Some z /\ extentOf horz g = size z) /\
    startOf horz g = start /\
    startOf horz h = start + extentOf horz g /\
    extentOf horz h = spacing /\
    chained horz spacing sizers (start + extentOf horz g + spacing) rest
  end.

(** Three children, the second one hidden, their sizers and handles. *)
Definition place_widgets : list Child :=
  [ mkChild false; mkChild true; mkChild false ].
Definition place_sizers : list BoxSizer :=
  [ mkSizer 40 0 Infinity 1 40; mkSizer 0 0 (Fin 0) 1 0;
    mkSizer 60 0 Infinity 1 60 ].
Definition place_handles : list Handle :=
  [ mkHandle false 0 0; mkHandle true 0 0; mkHandle true 0 0 ].

End SplitOps.

(* ================================================================== *)
(** * Part II.  Theorems *)
(* ================================================================== *)

Import BoxEngine Split SizerSpec.
Local Open Scope Q_scope.


(** ** Arithmetic helpers *)

Lemma Qle_bool_false (a b : Q) : Qle_bool a b = false -> b < a.
Proof.
  intros H. destruct (Qlt_le_dec b a) as [Hlt|Hle]; [exact Hlt|].
  apply Qle_bool_iff in Hle. congruence.
Qed.

Lemma Qmin_cases (a b : Q) :
  (a <= b /\ Qmin a b == a) \/ (b <= a /\ Qmin a b == b).
Proof. exact (Q.min_spec_le a b). Qed.

Lemma Qmax_cases (a b : Q) :
  (a <= b /\ Qmax a b == b) \/ (b <= a /\ Qmax a b == a).
Proof. exact (Q.max_spec_le a b). Qed.

Ltac qminmax :=
  repeat match goal with
  | |- context [Qmin ?a ?b] =>
      let H := fresh "Hm" in
      destruct (Qmin_cases a b) as [[? H]|[? H]];
      generalize dependent (Qmin a b); intros
  | |- context [Qmax ?a ?b] =>
      let H := fresh "Hm" in
      destruct (Qmax_cases a b) as [[? H]|[? H]];
      generalize dependent (Qmax a b); intros
  | H0 : context [Qmin ?a ?b] |- _ =>
      let H := fresh "Hm" in
      destruct (Qmin_cases a b) as [[? H]|[? H]];
      generalize dependent (Qmin a b); intros
  | H0 : context [Qmax ?a ?b] |- _ =>
      let H := fresh "Hm" in
      destruct (Qmax_cases a b) as [[? H]|[? H]];
      generalize dependent (Qmax a b); intros
  end.

Lemma Num_sum_app (l1 l2 : list num) :
  Num.eq (Num.sum (l1 ++ l2)) (Num.add (Num.sum l1) (Num.sum l2)).
Proof.
  induction l1 as [|a l1 IH]; simpl.
  - destruct (Num.sum l2); simpl; [lra|exact I].
  - fold (Num.sum (l1 ++ l2)). fold (Num.sum l1).
    destruct (Num.sum (l1 ++ l2)), (Num.sum l1), (Num.sum l2), a;
      simpl in *; try lra; try exact I; try contradiction.
Qed.

Lemma Num_eq_refl a : Num.eq a a.
Proof. destruct a; simpl; [lra|exact I]. Qed.

Lemma Num_eq_sym a b : Num.eq a b -> Num.eq b a.
Proof. destruct a, b; simpl; try tauto; intros; lra. Qed.

Lemma Num_eq_trans a b c : Num.eq a b -> Num.eq b c -> Num.eq a c.
Proof. destruct a, b, c; simpl; try tauto; intros; lra. Qed.

Lemma Num_sum_reverse (l : list num) :
  Num.eq (Num.sum (reverse l)) (Num.sum l).
Proof.
  induction l as [|a l IH]; [apply Num_eq_refl|].
  rewrite reverse_cons.
  eapply Num_eq_trans; [apply Num_sum_app|].
  simpl. fold (Num.sum l).
  destruct (Num.sum (reverse l)), (Num.sum l), a; simpl in *;
    try lra; try exact I; try contradiction.
Qed.

Lemma Qsum_app (l1 l2 : list Q) : Qsum (l1 ++ l2) == Qsum l1 + Qsum l2.
Proof.
  induction l1 as [|a l1 IH]; simpl; [lra|].
  fold (Qsum (l1 ++ l2)). fold (Qsum l1). lra.
Qed.

Lemma Qsum_reverse (l : list Q) : Qsum (reverse l) == Qsum l.
Proof.
  induction l as [|a l IH]; simpl; [reflexivity|].
  rewrite reverse_cons, Qsum_app. simpl. fold (Qsum l). lra.
Qed.

(** ** The accumulation loops compute the sums *)

Lemma accGrowRoom_from (zs : list BoxSizer) (a : num) :
  Num.eq (fold_left (fun acc z => Num.add acc (growRoom z)) zs a)
         (Num.add a (Num.sum (map growRoom zs))).
Proof.
  revert a. induction zs as [|z zs IH]; intros a; simpl.
  - destruct a; simpl; [lra|exact I].
  - eapply Num_eq_trans; [apply IH|].
    fold (Num.sum (map growRoom zs)).
    destruct a, (growRoom z), (Num.sum (map growRoom zs)); simpl;
      try lra; exact I.
Qed.

Lemma accGrowRoom_sum (zs : list BoxSizer) :
  Num.eq (accGrowRoom zs) (Num.sum (map growRoom zs)).
Proof.
  unfold accGrowRoom. eapply Num_eq_trans; [apply accGrowRoom_from|].
  destruct (Num.sum (map growRoom zs)); simpl; [lra|exact I].
Qed.

Lemma accShrinkRoom_from (zs : list BoxSizer) (a : Q) :
  fold_left (fun acc z => acc + shrinkRoom z) zs a
  == a + Qsum (map shrinkRoom zs).
Proof.
  revert a. induction zs as [|z zs IH]; intros a; simpl; [lra|].
  rewrite IH. fold (Qsum (map shrinkRoom zs)). lra.
Qed.

Lemma accShrinkRoom_sum (zs : list BoxSizer) :
  accShrinkRoom zs == Qsum (map shrinkRoom zs).
Proof. unfold accShrinkRoom. rewrite accShrinkRoom_from. lra. Qed.

(** ** The loops keep every field but the hint *)

Lemma frame_refl z : frame z z.
Proof. unfold frame; auto. Qed.

Lemma frame_set_sizeHint z v : frame z (set_sizeHint z v).
Proof. unfold frame; simpl; auto. Qed.

Lemma frame_trans a b c : frame a b -> frame b c -> frame a c.
Proof. unfold frame; intros (?&?&?&?) (?&?&?&?); repeat split; congruence. Qed.

Create HintDb sizer.
#[local] Hint Resolve frame_refl frame_set_sizeHint : sizer.

Lemma Forall2_frame_refl zs : Forall2 frame zs zs.
Proof. induction zs; constructor; auto with sizer. Qed.

Lemma growLoop_nonpos (g : Q) (zs : list BoxSizer) :
  g <= 0 -> growLoop g zs = zs.
Proof.
  intros Hg. destruct zs as [|z zs]; simpl; [reflexivity|].
  destruct (Qlt_le_dec 0 g); [lra|reflexivity].
Qed.

Lemma shrinkLoop_nonpos (g : Q) (zs : list BoxSizer) :
  g <= 0 -> shrinkLoop g zs = zs.
Proof.
  intros Hg. destruct zs as [|z zs]; simpl; [reflexivity|].
  destruct (Qlt_le_dec 0 g); [lra|reflexivity].
Qed.

Lemma growLoop_frame (g : Q) (zs : list BoxSizer) :
  Forall2 frame zs (growLoop g zs).
Proof.
  revert g. induction zs as [|z zs IH]; intros g; simpl; [constructor|].
  destruct (Qlt_le_dec 0 g); [|apply Forall2_frame_refl].
  destruct (growRoom z) as [limit|]; [destruct (Qle_bool g limit)|];
    constructor; auto with sizer.
Qed.

Lemma shrinkLoop_frame (g : Q) (zs : list BoxSizer) :
  Forall2 frame zs (shrinkLoop g zs).
Proof.
  revert g. induction zs as [|z zs IH]; intros g; simpl; [constructor|].
  destruct (Qlt_le_dec 0 g); [|apply Forall2_frame_refl].
  destruct (Qle_bool g (shrinkRoom z)); constructor; auto with sizer.
Qed.

Lemma Forall2_frame_reverse_loop (f : list BoxSizer -> list BoxSizer) zs :
  (forall l, Forall2 frame l (f l)) ->
  Forall2 frame zs (reverse (f (reverse zs))).
Proof.
  intros Hf. rewrite <- (reverse_involutive zs) at 1.
  apply Forall2_reverse, Hf.
Qed.

Lemma growSizer_frame s i d s' :
  growSizer s i d = Some s' -> Forall2 frame s s'.
Proof.
  unfold growSizer. destruct (i <? length s)%nat; [|discriminate].
  intros [= <-]. rewrite <- (take_drop (S i) s) at 1.
  apply Forall2_app.
  - apply Forall2_frame_reverse_loop, growLoop_frame.
  - apply shrinkLoop_frame.
Qed.

Lemma shrinkSizer_frame s i d s' :
  shrinkSizer s i d = Some s' -> Forall2 frame s s'.
Proof.
  unfold shrinkSizer. destruct (i <? length s)%nat; [|discriminate].
  intros [= <-]. rewrite <- (take_drop (S i) s) at 1.
  apply Forall2_app.
  - apply Forall2_frame_reverse_loop, shrinkLoop_frame.
  - apply growLoop_frame.
Qed.

Lemma frame_sizes s s' : Forall2 frame s s' -> map size s' = map size s.
Proof.
  induction 1 as [|z z' s s' (?&?&?&Hs) _ IH]; simpl; [reflexivity|].
  now rewrite Hs, IH.
Qed.

Lemma pinHint_frame z : frame z (pinHint z).
Proof. unfold pinHint. destruct (Qlt_le_dec 0 (size z)); auto with sizer. Qed.

Lemma map_pinHint_frame zs : Forall2 frame zs (map pinHint zs).
Proof. induction zs; simpl; constructor; auto using pinHint_frame. Qed.

Lemma Forall2_frame_trans a b c :
  Forall2 frame a b -> Forall2 frame b c -> Forall2 frame a c.
Proof.
  intros H. revert c. induction H; intros c Hc; inversion Hc; subst;
    constructor; eauto using frame_trans.
Qed.

(** ** The cascade, in the order a loop visits the sizers *)

Lemma Num_sum_nonneg (l : list num) :
  Forall (Num.le 0) l -> Num.le 0 (Num.sum l).
Proof.
  induction 1 as [|a l Ha _ IH]; simpl; [lra|].
  fold (Num.sum l). destruct a, (Num.sum l); simpl in *; try exact I. lra.
Qed.

Lemma overflow_nonneg (g : Q) (l : list num) : 0 <= overflow g l.
Proof. unfold overflow. destruct (Num.sum l); [qminmax; lra|lra]. Qed.

Lemma overflow_nil (g : Q) : overflow g [] == Qmax 0 g.
Proof. unfold overflow; simpl. qminmax; lra. Qed.

Lemma overflow_small (g : Q) (l : list num) :
  Forall (Num.le 0) l -> Num.le g (Num.sum l) -> overflow g l == 0.
Proof.
  intros Hl Hg. unfold overflow.
  destruct (Num.sum l); simpl in *; [qminmax; lra|lra].
Qed.

Lemma overflow_cons_inf (g : Q) (l : list num) :
  overflow g (Infinity :: l) = 0.
Proof. reflexivity. Qed.

Lemma overflow_cons_fin (g a : Q) (l : list num) :
  overflow g (Fin a :: l) == overflow (g - a) l.
Proof.
  unfold overflow; simpl. fold (Num.sum l).
  destruct (Num.sum l); simpl; [qminmax; lra|lra].
Qed.

Lemma overflow_eq (g g' : Q) (l l' : list num) :
  g == g' -> Num.eq (Num.sum l) (Num.sum l') -> overflow g l == overflow g' l'.
Proof.
  unfold overflow. intros Hg Hl.
  destruct (Num.sum l), (Num.sum l'); simpl in Hl; try contradiction;
    [qminmax; lra|lra].
Qed.

Lemma Num_min_eq (a b : Q) (r : num) : a == b -> Num.min a r == Num.min b r.
Proof. intros H. destruct r; simpl; [qminmax; lra|exact H]. Qed.

Lemma absorbed_eq (o o' : Q) room z z' :
  o == o' -> absorbed o room z z' -> absorbed o' room z z'.
Proof.
  intros Ho [H1 H2]. split.
  - intros Hp. destruct H1 as [Hf Hh]; [lra|]. split; [exact Hf|].
    rewrite Hh. apply Qplus_inj_l, Num_min_eq, Ho.
  - intros Hn. apply H2. lra.
Qed.

Lemma released_eq (o o' : Q) room z z' :
  o == o' -> released o room z z' -> released o' room z z'.
Proof.
  intros Ho [H1 H2]. split.
  - intros Hp. destruct H1 as [Hf Hh]; [lra|]. split; [exact Hf|].
    rewrite Hh. qminmax; lra.
  - intros Hn. apply H2. lra.
Qed.

Lemma absorbed_untouched (o : Q) room z : o == 0 -> absorbed o room z z.
Proof. intros Ho. split; [lra|reflexivity]. Qed.

Lemma released_untouched (o : Q) room z : o == 0 -> released o room z z.
Proof. intros Ho. split; [lra|reflexivity]. Qed.

Lemma growLoop_lookup (g : Q) (zs : list BoxSizer) (k : nat) z z' :
  Forall (fun z => Num.le 0 (growRoom z)) zs ->
  zs !! k = Some z -> growLoop g zs !! k = Some z' ->
  absorbed (overflow g (map growRoom (take k zs))) (growRoom z) z z'.
Proof.
  intros Hall. revert g k.
  induction Hall as [|a rest Ha Hrest IH]; intros g k Hz Hz';
    [discriminate|].
  assert (Hnn : forall n, Forall (Num.le 0) (map growRoom (take n rest))).
  { intros n. apply Forall_map, Forall_take, Hrest. }
  simpl in Hz'. destruct (Qlt_le_dec 0 g) as [Hg|Hg].
  - destruct (growRoom a) as [limit|] eqn:Hroom.
    + simpl in Ha. destruct (Qle_bool g limit) eqn:Hle.
      * apply Qle_bool_iff in Hle. destruct k as [|k]; simpl in *.
        -- injection Hz as <-. injection Hz' as <-.
           rewrite Hroom. split; [intros _|rewrite overflow_nil; qminmax; lra].
           split; [auto with sizer|]. simpl sizeHint.
           rewrite (Num_min_eq _ g) by (rewrite overflow_nil; qminmax; lra).
           simpl. qminmax; lra.
        -- rewrite growLoop_nonpos in Hz' by lra.
           assert (z' = z) as -> by congruence.
           apply absorbed_untouched. rewrite Hroom, overflow_cons_fin.
           apply overflow_small; [apply Hnn|].
           pose proof (Num_sum_nonneg _ (Hnn k)) as Hs.
           destruct (Num.sum (map growRoom (take k rest))); simpl in *;
             [lra|exact I].
      * apply Qle_bool_false in Hle. destruct k as [|k]; simpl in *.
        -- injection Hz as <-. injection Hz' as <-.
           rewrite Hroom. split; [intros _|rewrite overflow_nil; qminmax; lra].
           split; [auto with sizer|]. simpl sizeHint.
           rewrite (Num_min_eq _ g) by (rewrite overflow_nil; qminmax; lra).
           simpl. qminmax; lra.
        -- eapply absorbed_eq; [|apply (IH _ _ Hz Hz')].
           rewrite Hroom. symmetry. apply overflow_cons_fin.
    + destruct k as [|k]; simpl in *.
      * injection Hz as <-. injection Hz' as <-.
        rewrite Hroom. split; [intros _|rewrite overflow_nil; qminmax; lra].
        split; [auto with sizer|]. simpl.
        rewrite overflow_nil. qminmax; lra.
      * rewrite growLoop_nonpos in Hz' by lra.
        assert (z' = z) as -> by congruence.
        apply absorbed_untouched. rewrite Hroom. reflexivity.
  - assert (z' = z) as -> by congruence.
    apply absorbed_untouched, overflow_small.
    + apply Forall_map, Forall_take. constructor; assumption.
    + assert (H0 : Forall (Num.le 0) (map growRoom (take k (a :: rest)))).
      { apply Forall_map, Forall_take. constructor; assumption. }
      pose proof (Num_sum_nonneg _ H0) as Hs.
      destruct (Num.sum (map growRoom (take k (a :: rest)))); simpl in *;
        [lra|exact I].
Qed.


Lemma shrinkLoop_lookup (g : Q) (zs : list BoxSizer) (k : nat) z z' :
  Forall (fun z => 0 <= shrinkRoom z) zs ->
  zs !! k = Some z -> shrinkLoop g zs !! k = Some z' ->
  released (overflow g (map shrinkRoomN (take k zs))) (shrinkRoom z) z z'.
Proof.
  intros Hall. revert g k.
  induction Hall as [|a rest Ha Hrest IH]; intros g k Hz Hz';
    [discriminate|].
  assert (Hnn : forall n, Forall (Num.le 0) (map shrinkRoomN (take n rest))).
  { intros n. apply Forall_map, Forall_take.
    eapply Forall_impl; [exact Hrest|]. intros x Hx. exact Hx. }
  simpl in Hz'. destruct (Qlt_le_dec 0 g) as [Hg|Hg].
  - destruct (Qle_bool g (shrinkRoom a)) eqn:Hle.
    + apply Qle_bool_iff in Hle. destruct k as [|k]; simpl in *.
      * injection Hz as <-. injection Hz' as <-.
        split; [intros _|rewrite overflow_nil; qminmax; lra].
        split; [auto with sizer|]. simpl sizeHint.
        rewrite overflow_nil. qminmax; lra.
      * rewrite shrinkLoop_nonpos in Hz' by lra.
        assert (z' = z) as -> by congruence.
        apply released_untouched. unfold shrinkRoomN at 1.
        rewrite overflow_cons_fin.
        apply overflow_small; [apply Hnn|].
        pose proof (Num_sum_nonneg _ (Hnn k)) as Hs.
        destruct (Num.sum (map shrinkRoomN (take k rest))); simpl in *;
          [lra|exact I].
    + apply Qle_bool_false in Hle. destruct k as [|k]; simpl in *.
      * injection Hz as <-. injection Hz' as <-.
        split; [intros _|rewrite overflow_nil; qminmax; lra].
        split; [auto with sizer|]. simpl sizeHint.
        rewrite overflow_nil. qminmax; lra.
      * eapply released_eq; [|apply (IH _ _ Hz Hz')].
        unfold shrinkRoomN at 2. symmetry. apply overflow_cons_fin.
  - assert (z' = z) as -> by congruence.
    assert (H0 : Forall (Num.le 0) (map shrinkRoomN (take k (a :: rest)))).
    { apply Forall_map, Forall_take. constructor; [exact Ha|].
      eapply Forall_impl; [exact Hrest|]. intros x Hx. exact Hx. }
    apply released_untouched, overflow_small; [exact H0|].
    pose proof (Num_sum_nonneg _ H0) as Hs.
    destruct (Num.sum (map shrinkRoomN (take k (a :: rest)))); simpl in *;
      [lra|exact I].
Qed.

(** ** Totals written by one loop *)

Lemma growLoop_total (g : Q) (zs : list BoxSizer) :
  Forall (fun z => Num.le 0 (growRoom z)) zs ->
  Forall (fun z => sizeHint z == size z) zs ->
  0 <= g -> Num.le g (Num.sum (map growRoom zs)) ->
  Qsum (map sizeHint (growLoop g zs)) == Qsum (map size zs) + g.
Proof.
  intros Hall. revert g.
  induction Hall as [|a rest Ha Hrest IH]; intros g Hh Hg Hle; simpl in *.
  - lra.
  - inversion Hh as [|? ? Hha Hhrest]; subst.
    fold (Num.sum (map growRoom rest)) in Hle.
    fold (Qsum (map size rest)).
    assert (Hid : Qsum (map sizeHint rest) == Qsum (map size rest)).
    { clear -Hhrest. induction Hhrest as [|x l Hx _ IHl]; simpl; [lra|].
      fold (Qsum (map sizeHint l)). fold (Qsum (map size l)). lra. }
    destruct (Qlt_le_dec 0 g) as [Hpos|Hnp].
    + destruct (growRoom a) as [limit|] eqn:Hroom.
      * destruct (Qle_bool g limit) eqn:Hb.
        -- simpl. rewrite growLoop_nonpos by lra.
           fold (Qsum (map sizeHint rest)). lra.
        -- apply Qle_bool_false in Hb. simpl.
           fold (Qsum (map sizeHint (growLoop (g - limit) rest))).
           rewrite IH; [lra|exact Hhrest|lra|].
           destruct (Num.sum (map growRoom rest)); simpl in *; [lra|exact I].
      * simpl. rewrite growLoop_nonpos by lra.
        fold (Qsum (map sizeHint rest)). lra.
    + simpl. fold (Qsum (map sizeHint rest)). lra.
Qed.

Lemma shrinkLoop_total (g : Q) (zs : list BoxSizer) :
  Forall (fun z => 0 <= shrinkRoom z) zs ->
  Forall (fun z => sizeHint z == size z) zs ->
  0 <= g -> g <= Qsum (map shrinkRoom zs) ->
  Qsum (map sizeHint (shrinkLoop g zs)) == Qsum (map size zs) - g.
Proof.
  intros Hall. revert g.
  induction Hall as [|a rest Ha Hrest IH]; intros g Hh Hg Hle; simpl in *.
  - lra.
  - inversion Hh as [|? ? Hha Hhrest]; subst.
    fold (Qsum (map shrinkRoom rest)) in Hle.
    fold (Qsum (map size rest)).
    assert (Hid : Qsum (map sizeHint rest) == Qsum (map size rest)).
    { clear -Hhrest. induction Hhrest as [|x l Hx _ IHl]; simpl; [lra|].
      fold (Qsum (map sizeHint l)). fold (Qsum (map size l)). lra. }
    destruct (Qlt_le_dec 0 g) as [Hpos|Hnp].
    + destruct (Qle_bool g (shrinkRoom a)) eqn:Hb.
      * simpl. rewrite shrinkLoop_nonpos by lra.
        fold (Qsum (map sizeHint rest)). lra.
      * apply Qle_bool_false in Hb. simpl.
        fold (Qsum (map sizeHint (shrinkLoop (g - shrinkRoom a) rest))).
        rewrite IH; [lra|exact Hhrest|lra|lra].
    + simpl. fold (Qsum (map sizeHint rest)). lra.
Qed.

(** Each hint a loop leaves lies between the sizer's size and its bound. *)

Lemma growLoop_hints (g : Q) (zs : list BoxSizer) :
  Forall in_bounds zs -> Forall hint_in_bounds zs ->
  Forall hint_in_bounds (growLoop g zs).
Proof.
  intros Hall. revert g.
  induction Hall as [|a rest [Ha1 Ha2] Hrest IH]; intros g Hh; simpl;
    [constructor|].
  inversion Hh as [|? ? Hha Hhrest]; subst.
  destruct (Qlt_le_dec 0 g) as [Hpos|Hnp]; [|exact Hh].
  unfold growRoom. destruct (maxSize a) as [m|] eqn:Hm; simpl.
  - simpl in Ha2. destruct (Qle_bool g (m - size a)) eqn:Hb.
    + apply Qle_bool_iff in Hb. constructor; [|apply IH, Hhrest].
      unfold hint_in_bounds; simpl. rewrite Hm; simpl. lra.
    + apply Qle_bool_false in Hb. constructor; [|apply IH, Hhrest].
      unfold hint_in_bounds; simpl. rewrite Hm; simpl. lra.
  - constructor; [|apply IH, Hhrest].
    unfold hint_in_bounds; simpl. rewrite Hm; simpl. split; [lra|exact I].
Qed.

Lemma shrinkLoop_hints (g : Q) (zs : list BoxSizer) :
  Forall in_bounds zs -> Forall hint_in_bounds zs ->
  Forall hint_in_bounds (shrinkLoop g zs).
Proof.
  intros Hall. revert g.
  induction Hall as [|a rest [Ha1 Ha2] Hrest IH]; intros g Hh; simpl;
    [constructor|].
  inversion Hh as [|? ? Hha Hhrest]; subst.
  destruct (Qlt_le_dec 0 g) as [Hpos|Hnp]; [|exact Hh].
  unfold shrinkRoom.
  destruct (Qle_bool g (size a - minSize a)) eqn:Hb.
  - apply Qle_bool_iff in Hb. constructor; [|apply IH, Hhrest].
    unfold hint_in_bounds; simpl.
    destruct (maxSize a); simpl in *; [lra|split; [lra|exact I]].
  - apply Qle_bool_false in Hb. constructor; [|apply IH, Hhrest].
    unfold hint_in_bounds; simpl.
    destruct (maxSize a); simpl in *; [lra|split; [lra|exact I]].
Qed.



Lemma effective_eq d g g' h h' :
  Num.eq g g' -> h == h' -> effective d g h == effective d g' h'.
Proof.
  unfold effective. intros Hg Hh.
  destruct g, g'; simpl in *; try contradiction; qminmax; lra.
Qed.

Lemma map_reverse {A B} (f : A -> B) (l : list A) :
  map f (reverse l) = reverse (map f l).
Proof.
  induction l as [|a l IH]; [reflexivity|].
  simpl. rewrite !reverse_cons, map_app, IH. reflexivity.
Qed.

Lemma in_bounds_growRoom zs :
  Forall in_bounds zs -> Forall (fun z => Num.le 0 (growRoom z)) zs.
Proof.
  intros Hall. eapply Forall_impl; [exact Hall|].
  intros z [_ H]. unfold growRoom.
  destruct (maxSize z); simpl in *; [lra|exact I].
Qed.

Lemma in_bounds_shrinkRoom zs :
  Forall in_bounds zs -> Forall (fun z => 0 <= shrinkRoom z) zs.
Proof.
  intros Hall. eapply Forall_impl; [exact Hall|].
  intros z [H _]. unfold shrinkRoom. lra.
Qed.

Section Transport.

Variables (s : list BoxSizer) (i : nat).
Hypothesis Hi : (i < length s)%nat.

Let left := take (S i) s.
Let right := drop (S i) s.

Lemma left_length : length left = S i.
Proof. unfold left. rewrite length_take. lia. Qed.

Lemma left_visit (j : nat) :
  (j <= i)%nat -> reverse left !! (i - j)%nat = s !! j.
Proof.
  intros Hj. rewrite reverse_lookup by (rewrite left_length; lia).
  rewrite left_length. unfold left.
  rewrite lookup_take_lt by lia. f_equal. lia.
Qed.

Lemma left_nearer (j : nat) :
  (j <= i)%nat ->
  take (i - j) (reverse left) = reverse (nearerLeft s i j).
Proof.
  intros Hj. rewrite take_reverse, left_length. unfold left, nearerLeft.
  rewrite skipn_firstn_comm.
  replace (S i - (i - j))%nat with (S j) by lia.
  replace (S i - S j)%nat with (i - j)%nat by lia. reflexivity.
Qed.

Lemma right_visit (j : nat) :
  (i < j)%nat -> right !! (j - S i)%nat = s !! j.
Proof. intros Hj. unfold right. rewrite lookup_drop. f_equal. lia. Qed.

(** A loop run backwards over the left group and one run forwards over
    the right group, looked up by index. *)
Lemma lookup_left (f : list BoxSizer -> list BoxSizer) (R : list BoxSizer)
      (j : nat) :
  (forall l, length (f l) = length l) -> (j <= i)%nat ->
  (reverse (f (reverse left)) ++ R) !! j = f (reverse left) !! (i - j)%nat.
Proof.
  intros Hf Hj.
  assert (Hlen : length (f (reverse left)) = S i)
    by (rewrite Hf, length_reverse; apply left_length).
  rewrite lookup_app_l by (rewrite length_reverse; lia).
  rewrite reverse_lookup by lia. rewrite Hlen.
  replace (S i - S j)%nat with (i - j)%nat by lia. reflexivity.
Qed.

Lemma lookup_right (f : list BoxSizer -> list BoxSizer) (R : list BoxSizer)
      (j : nat) :
  (forall l, length (f l) = length l) -> (i < j)%nat ->
  (reverse (f (reverse left)) ++ R) !! j = R !! (j - S i)%nat.
Proof.
  intros Hf Hj.
  assert (Hlen : length (reverse (f (reverse left))) = S i)
    by (rewrite length_reverse, Hf, length_reverse; apply left_length).
  rewrite lookup_app_r by lia. rewrite Hlen. reflexivity.
Qed.

End Transport.

Lemma growLoop_length g zs : length (growLoop g zs) = length zs.
Proof. symmetry. eapply Forall2_length, growLoop_frame. Qed.

Lemma shrinkLoop_length g zs : length (shrinkLoop g zs) = length zs.
Proof. symmetry. eapply Forall2_length, shrinkLoop_frame. Qed.



Lemma growSizer_cascade (s : list BoxSizer) (i : nat) (delta : Q) :
  (i < length s)%nat -> Forall in_bounds s ->
  exists s', growSizer s i delta = Some s' /\
    grow_cascade s s' i
      (effective delta (Num.sum (map growRoom (take (S i) s)))
                       (Qsum (map shrinkRoom (drop (S i) s)))).
Proof.
  intros Hi Hb. unfold growSizer.
  destruct (Nat.ltb_spec i (length s)) as [_|]; [|lia].
  eexists; split; [reflexivity|].
  set (eff := Qmin _ _).
  assert (Heff : eff == effective delta
                   (Num.sum (map growRoom (take (S i) s)))
                   (Qsum (map shrinkRoom (drop (S i) s)))).
  { apply effective_eq; [apply accGrowRoom_sum|apply accShrinkRoom_sum]. }
  intros j z z' Hz Hz'. split; intros Hj.
  - rewrite (lookup_left s i Hi (growLoop eff)) in Hz'
      by (auto using growLoop_length).
    rewrite <- (left_visit s i Hi j Hj) in Hz.
    eapply absorbed_eq;
      [|eapply growLoop_lookup; [|exact Hz|exact Hz']].
    + apply overflow_eq; [exact Heff|].
      rewrite (left_nearer s i Hi j Hj), map_reverse.
      apply Num_sum_reverse.
    + apply in_bounds_growRoom, Forall_reverse, Forall_take, Hb.
  - rewrite (lookup_right s i Hi (growLoop eff)) in Hz'
      by (auto using growLoop_length).
    rewrite <- (right_visit s i Hi j Hj) in Hz.
    eapply released_eq;
      [|eapply shrinkLoop_lookup; [|exact Hz|exact Hz']].
    + apply overflow_eq; [exact Heff|apply Num_eq_refl].
    + apply in_bounds_shrinkRoom, Forall_drop, Hb.
Qed.

Lemma shrinkSizer_cascade (s : list BoxSizer) (i : nat) (delta : Q) :
  (i < length s)%nat -> Forall in_bounds s ->
  exists s', shrinkSizer s i delta = Some s' /\
    shrink_cascade s s' i
      (effective delta (Num.sum (map growRoom (drop (S i) s)))
                       (Qsum (map shrinkRoom (take (S i) s)))).
Proof.
  intros Hi Hb. unfold shrinkSizer.
  destruct (Nat.ltb_spec i (length s)) as [_|]; [|lia].
  eexists; split; [reflexivity|].
  set (eff := Qmin _ _).
  assert (Heff : eff == effective delta
                   (Num.sum (map growRoom (drop (S i) s)))
                   (Qsum (map shrinkRoom (take (S i) s)))).
  { apply effective_eq; [apply accGrowRoom_sum|apply accShrinkRoom_sum]. }
  intros j z z' Hz Hz'. split; intros Hj.
  - rewrite (lookup_left s i Hi (shrinkLoop eff)) in Hz'
      by (auto using shrinkLoop_length).
    rewrite <- (left_visit s i Hi j Hj) in Hz.
    eapply released_eq;
      [|eapply shrinkLoop_lookup; [|exact Hz|exact Hz']].
    + apply overflow_eq; [exact Heff|].
      rewrite (left_nearer s i Hi j Hj), map_reverse.
      apply Num_sum_reverse.
    + apply in_bounds_shrinkRoom, Forall_reverse, Forall_take, Hb.
  - rewrite (lookup_right s i Hi (shrinkLoop eff)) in Hz'
      by (auto using shrinkLoop_length).
    rewrite <- (right_visit s i Hi j Hj) in Hz.
    eapply absorbed_eq;
      [|eapply growLoop_lookup; [|exact Hz|exact Hz']].
    + apply overflow_eq; [exact Heff|apply Num_eq_refl].
    + apply in_bounds_growRoom, Forall_drop, Hb.
Qed.

(** ** Totals and bounds of the hints after one adjustment *)

Lemma Num_le_eq e a b : Num.le e a -> Num.eq a b -> Num.le e b.
Proof. destruct a, b; simpl; try tauto; intros; lra. Qed.

Lemma effective_bounds (d : Q) (gl : num) (sl : Q) :
  0 <= d -> Num.le 0 gl -> 0 <= sl ->
  0 <= Qmin (Num.min d gl) sl /\
  Num.le (Qmin (Num.min d gl) sl) gl /\
  Qmin (Num.min d gl) sl <= sl.
Proof.
  intros Hd Hg Hs. destruct gl as [g|]; simpl in *.
  - repeat split; qminmax; lra.
  - repeat split; try exact I; qminmax; lra.
Qed.

Lemma Qsum_shrinkRoom_nonneg zs :
  Forall in_bounds zs -> 0 <= Qsum (map shrinkRoom zs).
Proof.
  induction 1 as [|z zs [Hz _] _ IH]; simpl; [lra|].
  fold (Qsum (map shrinkRoom zs)). unfold shrinkRoom at 1. lra.
Qed.

Lemma Num_sum_growRoom_nonneg zs :
  Forall in_bounds zs -> Num.le 0 (Num.sum (map growRoom zs)).
Proof.
  intros H. apply Num_sum_nonneg, Forall_map.
  apply in_bounds_growRoom in H. exact H.
Qed.


Lemma synced_hint_in_bounds zs :
  Forall in_bounds zs -> Forall synced zs -> Forall hint_in_bounds zs.
Proof.
  intros Hb Hs. induction Hb as [|z zs [H1 H2] _ IH];
    inversion Hs as [|? ? Hz Hzs]; subst; constructor; [|auto].
  unfold hint_in_bounds, synced in *.
  destruct (maxSize z); simpl in *; [lra|split; [lra|exact I]].
Qed.

Lemma Qsum_map_size_app (a b : list BoxSizer) :
  Qsum (map size (a ++ b)) == Qsum (map size a) + Qsum (map size b).
Proof. rewrite map_app. apply Qsum_app. Qed.

Section OneAdjustment.

Variables (s : list BoxSizer) (i : nat) (d : Q).
Hypothesis Hb : Forall in_bounds s.
Hypothesis Hs : Forall synced s.
Hypothesis Hd : 0 <= d.

Let left := take (S i) s.
Let right := drop (S i) s.

Lemma split_total :
  Qsum (map size s) == Qsum (map size left) + Qsum (map size right).
Proof.
  unfold left, right. rewrite <- Qsum_map_size_app, take_drop. reflexivity.
Qed.

Lemma adjust_total (grow : Q -> list BoxSizer -> list BoxSizer)
      (shrink : Q -> list BoxSizer -> list BoxSizer) (e : Q) :
  Qsum (map sizeHint (grow e (reverse left)))
    == Qsum (map size (reverse left)) + e ->
  Qsum (map sizeHint (shrink e right)) == Qsum (map size right) - e ->
  Qsum (map sizeHint (reverse (grow e (reverse left)) ++ shrink e right))
    == Qsum (map size s).
Proof.
  intros Hg Hsh.
  rewrite map_app, Qsum_app, map_reverse, Qsum_reverse, Hg, Hsh.
  rewrite map_reverse, Qsum_reverse, split_total. lra.
Qed.

Lemma growSizer_hint_total s' :
  growSizer s i d = Some s' ->
  Qsum (map sizeHint s') == Qsum (map size s) /\ Forall hint_in_bounds s'.
Proof.
  unfold growSizer. destruct (i <? length s)%nat; [|discriminate].
  intros [= <-]. fold left right.
  assert (Hbl : Forall in_bounds (reverse left))
    by (apply Forall_reverse, Forall_take, Hb).
  assert (Hbr : Forall in_bounds right) by (apply Forall_drop, Hb).
  assert (Hsl : Forall synced (reverse left))
    by (apply Forall_reverse, Forall_take, Hs).
  assert (Hsr : Forall synced right) by (apply Forall_drop, Hs).
  destruct (effective_bounds d (accGrowRoom left) (accShrinkRoom right))
    as (He0 & Heg & Hes).
  { exact Hd. }
  { eapply Num_le_eq; [|apply Num_eq_sym, accGrowRoom_sum].
    apply Num_sum_growRoom_nonneg, Forall_take, Hb. }
  { rewrite accShrinkRoom_sum. apply Qsum_shrinkRoom_nonneg, Hbr. }
  set (e := Qmin _ _) in *.
  split.
  - apply (adjust_total growLoop shrinkLoop).
    + apply growLoop_total; auto using in_bounds_growRoom.
      eapply Num_le_eq; [exact Heg|].
      eapply Num_eq_trans; [apply accGrowRoom_sum|].
      rewrite map_reverse. apply Num_eq_sym, Num_sum_reverse.
    + apply shrinkLoop_total; auto using in_bounds_shrinkRoom.
      rewrite <- accShrinkRoom_sum. exact Hes.
  - apply Forall_app. split.
    + apply Forall_reverse, growLoop_hints;
        auto using synced_hint_in_bounds.
    + apply shrinkLoop_hints; auto using synced_hint_in_bounds.
Qed.

Lemma shrinkSizer_hint_total s' :
  shrinkSizer s i d = Some s' ->
  Qsum (map sizeHint s') == Qsum (map size s) /\ Forall hint_in_bounds s'.
Proof.
  unfold shrinkSizer. destruct (i <? length s)%nat; [|discriminate].
  intros [= <-]. fold left right.
  assert (Hbl : Forall in_bounds (reverse left))
    by (apply Forall_reverse, Forall_take, Hb).
  assert (Hbr : Forall in_bounds right) by (apply Forall_drop, Hb).
  assert (Hsl : Forall synced (reverse left))
    by (apply Forall_reverse, Forall_take, Hs).
  assert (Hsr : Forall synced right) by (apply Forall_drop, Hs).
  destruct (effective_bounds d (accGrowRoom right) (accShrinkRoom left))
    as (He0 & Heg & Hes).
  { exact Hd. }
  { eapply Num_le_eq; [|apply Num_eq_sym, accGrowRoom_sum].
    apply Num_sum_growRoom_nonneg, Hbr. }
  { rewrite accShrinkRoom_sum.
    apply Qsum_shrinkRoom_nonneg, Forall_take, Hb. }
  set (e := Qmin _ _) in *.
  split.
  - rewrite map_app, Qsum_app, map_reverse, Qsum_reverse.
    rewrite shrinkLoop_total, growLoop_total;
      auto using in_bounds_growRoom, in_bounds_shrinkRoom.
    + rewrite map_reverse, Qsum_reverse, split_total. lra.
    + eapply Num_le_eq; [exact Heg|]. apply accGrowRoom_sum.
    + rewrite map_reverse, Qsum_reverse, <- accShrinkRoom_sum. exact Hes.
  - apply Forall_app. split.
    + apply Forall_reverse, shrinkLoop_hints;
        auto using synced_hint_in_bounds.
    + apply growLoop_hints; auto using synced_hint_in_bounds.
Qed.

End OneAdjustment.

(** ** [setHandlePosition] *)

Lemma requestUpdate_sizers L : _sizers (requestUpdate L) = _sizers L.
Proof. unfold requestUpdate. destruct (hasParent L); reflexivity. Qed.

Lemma frame_in_bounds s s' :
  Forall2 frame s s' -> Forall in_bounds s -> Forall in_bounds s'.
Proof.
  induction 1 as [|z z' s s' (Hmin&Hmax&_&Hsz) _ IH]; intros Hb;
    [constructor|].
  inversion Hb as [|? ? [H1 H2] Hrest]; subst. constructor; [|auto].
  unfold in_bounds. rewrite Hmin, Hmax, Hsz. auto.
Qed.

Lemma pinHint_synced zs :
  Forall (fun z => 0 < size z \/ synced z) zs -> Forall synced (map pinHint zs).
Proof.
  induction 1 as [|z zs Hz _ IH]; simpl; constructor; [|exact IH].
  unfold pinHint, synced in *.
  destruct (Qlt_le_dec 0 (size z)); simpl; [reflexivity|].
  destruct Hz; [lra|assumption].
Qed.

(** What the adjusting path of [setHandlePosition] computes. *)
Lemma setHandlePosition_adjusted L index position L' :
  setHandlePosition L index position = Returned L' ->
  L' = L \/
  exists d zs, 0 <= d /\ _sizers L' = zs /\
    (growSizer (map pinHint (_sizers L)) (Z.to_nat index) d = Some zs \/
     shrinkSizer (map pinHint (_sizers L)) (Z.to_nat index) d = Some zs).
Proof.
  unfold setHandlePosition.
  destruct (at_ (_handles L) index) as [h|]; [|intros [= <-]; now left].
  destruct (hidden h); [intros [= <-]; now left|].
  destruct (Qeq_bool _ 0); [intros [= <-]; now left|].
  destruct (Qlt_le_dec 0 (handleDelta (_orientation L) h position))
    as [Hpos|Hneg].
  - destruct (growSizer _ _ _) as [zs|] eqn:Hg; [|discriminate].
    intros [= <-]. right. exists (handleDelta (_orientation L) h position), zs.
    rewrite requestUpdate_sizers. simpl. split; [lra|auto].
  - destruct (shrinkSizer _ _ _) as [zs|] eqn:Hg; [|discriminate].
    intros [= <-]. right.
    exists (- handleDelta (_orientation L) h position), zs.
    rewrite requestUpdate_sizers. simpl. split; [lra|auto].
Qed.

Lemma setHandlePosition_frame L index position :
  Forall2 frame (_sizers L)
          (_sizers (layout_after (setHandlePosition L index position))).
Proof.
  unfold setHandlePosition.
  destruct (at_ (_handles L) index) as [h|]; [|apply Forall2_frame_refl].
  destruct (hidden h); [apply Forall2_frame_refl|].
  destruct (Qeq_bool _ 0); [apply Forall2_frame_refl|].
  destruct (Qlt_le_dec 0 _).
  - destruct (growSizer _ _ _) as [zs|] eqn:Hg; simpl.
    + rewrite requestUpdate_sizers. simpl.
      eapply Forall2_frame_trans;
        [apply map_pinHint_frame|eapply growSizer_frame, Hg].
    + apply map_pinHint_frame.
  - destruct (shrinkSizer _ _ _) as [zs|] eqn:Hg; simpl.
    + rewrite requestUpdate_sizers. simpl.
      eapply Forall2_frame_trans;
        [apply map_pinHint_frame|eapply shrinkSizer_frame, Hg].
    + apply map_pinHint_frame.
Qed.

Lemma adjusts_not_noop L index position L' :
  adjusts L index position ->
  setHandlePosition L index position = Returned L' ->
  exists d zs, 0 <= d /\ _sizers L' = zs /\
    (growSizer (map pinHint (_sizers L)) (Z.to_nat index) d = Some zs \/
     shrinkSizer (map pinHint (_sizers L)) (Z.to_nat index) d = Some zs).
Proof.
  intros (h & Hh & Hvis & Hd). unfold setHandlePosition.
  rewrite Hh, Hvis.
  destruct (Qeq_bool _ 0) eqn:Hz; [apply Qeq_bool_iff in Hz; contradiction|].
  destruct (Qlt_le_dec 0 (handleDelta (_orientation L) h position))
    as [Hpos|Hneg].
  - destruct (growSizer _ _ _) as [zs|] eqn:Hg; [|discriminate].
    intros [= <-]. exists (handleDelta (_orientation L) h position), zs.
    rewrite requestUpdate_sizers. simpl. split; [lra|auto].
  - destruct (shrinkSizer _ _ _) as [zs|] eqn:Hg; [|discriminate].
    intros [= <-].
    exists (- handleDelta (_orientation L) h position), zs.
    rewrite requestUpdate_sizers. simpl. split; [lra|auto].
Qed.


Lemma drag_sizers_in_bounds : Forall in_bounds drag_sizers.
Proof. repeat constructor; simpl; lra. Qed.


(** C3 (as stated, refuted).  On the drag example the move by 1000 at
    boundary 0 does not leave sizer 0 at 100 with a total of 110, whether
    the value of a sizer is read from [sizeHint] or from [size]. *)
Lemma drag_clamp_counterexample :
  ~ drag_clamp_claim sizeHint /\ ~ drag_clamp_claim size.
Proof.
  split; intros (z0 & z1 & Hrun & H0 & _);
    vm_compute in Hrun; injection Hrun as <- <-; simpl in H0;
    revert H0; unfold Qeq; simpl; lia.
Qed.

(** C3 (amended).  On the drag example the move by 1000 at boundary 0 is
    cut down to 40, the most sizer 1 can give up: the hints become 90 and
    10, sizer 1 at its minimum and sizer 0 short of its maximum, their
    total 100 as before; the sizes stay at 50 and 50, and one update is
    requested. *)
Theorem drag_clamp_amended :
  growSizer drag_sizers 0 1000
    = Some [ mkSizer 90 10 (Fin 100) 1 50; mkSizer 10 10 (Fin 100) 1 50 ] /\
  effective 1000 (Num.sum (map growRoom (take 1 drag_sizers)))
                 (Qsum (map shrinkRoom (drop 1 drag_sizers))) == 40 /\
  setHandlePosition drag_layout 0 1050
    = Returned (requestUpdate (set_sizers drag_layout
        [ mkSizer 90 10 (Fin 100) 1 50; mkSizer 10 10 (Fin 100) 1 50 ])) /\
  sizes (layout_after (setHandlePosition drag_layout 0 1050)) = [50; 50] /\
  map sizeHint (_sizers (layout_after (setHandlePosition drag_layout 0 1050)))
    = [90; 10] /\
  posted (layout_after (setHandlePosition drag_layout 0 1050))
    = [PostUpdateRequest].
Proof.
  repeat split; vm_compute; reflexivity.
Qed.



(** C9.  A call of [setHandlePosition] whose handle index is out of range,
    or whose computed delta is zero, returns the layout untouched: no sizer
    field is written and no update is requested. *)
Theorem setHandlePosition_noop (L : SplitLayout) (index : Z) (position : Q) :
  ((index < 0)%Z \/ (Z.of_nat (length (_handles L)) <= index)%Z \/
   exists h, at_ (_handles L) index = Some h /\
             handleDelta (_orientation L) h position == 0) ->
  setHandlePosition L index position = Returned L.
Proof.
  unfold setHandlePosition, at_.
  intros [Hneg|[Hbig|(h & Hh & Hd)]].
  - destruct (Z.ltb_spec index 0); [reflexivity|lia].
  - destruct (Z.ltb_spec index 0); [reflexivity|].
    rewrite lookup_ge_None_2 by lia. reflexivity.
  - unfold at_ in Hh. rewrite Hh. destruct (hidden h); [reflexivity|].
    apply Qeq_bool_iff in Hd. rewrite Hd. reflexivity.
Qed.

Lemma setHandlePosition_noop_witness :
  (Z.of_nat (length (_handles drag_layout)) <= 2)%Z /\
  setHandlePosition drag_layout 2 1050 = Returned drag_layout /\
  (exists h, at_ (_handles drag_layout) 0 = Some h /\
             handleDelta (_orientation drag_layout) h 50 == 0) /\
  setHandlePosition drag_layout 0 50 = Returned drag_layout.
Proof.
  assert (H1 : (Z.of_nat (length (_handles drag_layout)) <= 2)%Z)
    by (simpl; lia).
  assert (H2 : exists h, at_ (_handles drag_layout) 0 = Some h /\
             handleDelta (_orientation drag_layout) h 50 == 0)
    by (eexists; split; [reflexivity|simpl; lra]).
  split; [exact H1|]. split.
  - exact (setHandlePosition_noop drag_layout 2 1050 (or_intror (or_introl H1))).
  - split; [exact H2|].
    exact (setHandlePosition_noop drag_layout 0 50 (or_intror (or_intror H2))).
Defined.

(** C10.  [growSizer], [shrinkSizer] and [setHandlePosition] never write a
    [size] field (nor [minSize], [maxSize] or [stretch]): only [sizeHint]
    changes, so [sizes()] reads the same sequence right before and right
    after an interactive adjustment. *)
Theorem adjustment_writes_hints_only :
  (forall s i d s', growSizer s i d = Some s' ->
     Forall2 frame s s' /\ map size s' = map size s) /\
  (forall s i d s', shrinkSizer s i d = Some s' ->
     Forall2 frame s s' /\ map size s' = map size s) /\
  (forall L index position,
     Forall2 frame (_sizers L)
       (_sizers (layout_after (setHandlePosition L index position))) /\
     sizes (layout_after (setHandlePosition L index position)) = sizes L).
Proof.
  split; [|split].
  - intros s i d s' H. apply growSizer_frame in H.
    split; [exact H|apply frame_sizes, H].
  - intros s i d s' H. apply shrinkSizer_frame in H.
    split; [exact H|apply frame_sizes, H].
  - intros L index position.
    pose proof (setHandlePosition_frame L index position) as H.
    split; [exact H|apply frame_sizes, H].
Qed.

Lemma adjustment_writes_hints_only_witness :
  growSizer drag_sizers 0 1000
    = Some [ mkSizer 90 10 (Fin 100) 1 50; mkSizer 10 10 (Fin 100) 1 50 ] /\
  map size [ mkSizer 90 10 (Fin 100) 1 50; mkSizer 10 10 (Fin 100) 1 50 ]
    = map size drag_sizers /\
  shrinkSizer drag_sizers 0 1000
    = Some [ mkSizer 10 10 (Fin 100) 1 50; mkSizer 90 10 (Fin 100) 1 50 ] /\
  map size [ mkSizer 10 10 (Fin 100) 1 50; mkSizer 90 10 (Fin 100) 1 50 ]
    = map size drag_sizers.
Proof.
  assert (H1 : growSizer drag_sizers 0 1000
    = Some [ mkSizer 90 10 (Fin 100) 1 50; mkSizer 10 10 (Fin 100) 1 50 ])
    by (vm_compute; reflexivity).
  assert (H2 : shrinkSizer drag_sizers 0 1000
    = Some [ mkSizer 10 10 (Fin 100) 1 50; mkSizer 90 10 (Fin 100) 1 50 ])
    by (vm_compute; reflexivity).
  destruct adjustment_writes_hints_only as (Hg & Hs & _).
  split; [exact H1|]. split; [exact (proj2 (Hg _ _ _ _ H1))|].
  split; [exact H2|]. exact (proj2 (Hs _ _ _ _ H2)).
Defined.

(** ** The handles after a fit pass *)

Lemma set_hidden_hidden b h : hidden (set_hidden b h) = b.
Proof. reflexivity. Qed.

(** The loop from index [i] on: handles before [i] are kept, the handle of
    each remaining widget mirrors its hidden flag, and [lastHandle] ends at
    the last visible widget met, if any. *)
Lemma fitHandlesLoop_spec (ws : list Child) :
  forall (i : nat) (hs : list Handle) (last : option nat) (nv : nat)
         hs' last' nv',
  fitHandlesLoop i ws hs last nv = Some (hs', last', nv') ->
  length hs' = length hs /\
  (forall k, (k < i)%nat -> hs' !! k = hs !! k) /\
  (forall m w, ws !! m = Some w ->
     exists h, hs' !! (i + m)%nat = Some h /\ hidden h = isHidden w) /\
  ((last' = last /\ Forall (fun w => isHidden w = true) ws) \/
   (exists m w, last' = Some (i + m)%nat /\ ws !! m = Some w /\
      isHidden w = false /\
      forall m' w', (m < m')%nat -> ws !! m' = Some w' -> isHidden w' = true)).
Proof.
  induction ws as [|w rest IH]; intros i hs last nv hs' last' nv' Hrun.
  - simpl in Hrun. injection Hrun as <- <- <-.
    repeat split; auto. intros m w Hm. discriminate.
  - simpl in Hrun. destruct (hs !! i) as [h|] eqn:Hh; [|discriminate].
    assert (Hi : (i < length hs)%nat) by (eapply lookup_lt_Some; eauto).
    destruct (isHidden w) eqn:Hw.
    + apply IH in Hrun as (Hlen & Hkeep & Hmirror & Hlast).
      rewrite length_insert in Hlen.
      split; [exact Hlen|]. split; [|split].
      * intros k Hk. rewrite Hkeep by lia.
        apply list_lookup_insert_ne. lia.
      * intros [|m] w0 Hm; simpl in Hm.
        -- injection Hm as <-. rewrite Nat.add_0_r, Hkeep by lia.
           rewrite list_lookup_insert_eq by lia.
           eexists; split; [reflexivity|]. simpl. congruence.
        -- destruct (Hmirror m w0 Hm) as (h0 & Hh0 & Hhid).
           exists h0. split; [|exact Hhid].
           rewrite <- Hh0. f_equal. lia.
      * destruct Hlast as [[-> Hall]|(m & w0 & -> & Hm & Hvis & Hafter)].
        -- left. split; [reflexivity|]. constructor; assumption.
        -- right. exists (S m), w0.
           split; [f_equal; lia|]. repeat split; auto.
           intros [|m'] w' Hlt Hm'; [lia|].
           simpl in Hm'. eapply Hafter; [|exact Hm']. lia.
    + apply IH in Hrun as (Hlen & Hkeep & Hmirror & Hlast).
      rewrite length_insert in Hlen.
      split; [exact Hlen|]. split; [|split].
      * intros k Hk. rewrite Hkeep by lia.
        apply list_lookup_insert_ne. lia.
      * intros [|m] w0 Hm; simpl in Hm.
        -- injection Hm as <-. rewrite Nat.add_0_r, Hkeep by lia.
           rewrite list_lookup_insert_eq by lia.
           eexists; split; [reflexivity|]. simpl. congruence.
        -- destruct (Hmirror m w0 Hm) as (h0 & Hh0 & Hhid).
           exists h0. split; [|exact Hhid].
           rewrite <- Hh0. f_equal. lia.
      * right.
        destruct Hlast as [[-> Hall]|(m & w0 & -> & Hm & Hvis & Hafter)].
        -- exists 0%nat, w.
           split; [f_equal; lia|]. repeat split; auto.
           intros [|m'] w' Hlt Hm'; [lia|]. simpl in Hm'.
           rewrite Forall_lookup in Hall. eapply Hall, Hm'.
        -- exists (S m), w0.
           split; [f_equal; lia|]. repeat split; auto.
           intros [|m'] w' Hlt Hm'; [lia|].
           simpl in Hm'. eapply Hafter; [|exact Hm']. lia.
Qed.

Lemma fitHandlesLoop_runs (ws : list Child) :
  forall (i : nat) (hs : list Handle) (last : option nat) (nv : nat),
  (i + length ws <= length hs)%nat ->
  exists r, fitHandlesLoop i ws hs last nv = Some r.
Proof.
  induction ws as [|w rest IH]; intros i hs last nv Hlen; simpl in *.
  - eexists; reflexivity.
  - destruct (lookup_lt_is_Some_2 hs i) as [h Hh]; [lia|]. rewrite Hh.
    destruct (isHidden w); apply IH; rewrite length_insert; lia.
Qed.

(** C8.  After the handle part of a fit pass, with one handle per child,
    the handle of a child is hidden exactly when the child is hidden or is
    the last child that is not hidden; every other handle is visible. *)
Theorem fit_handle_visibility (widgets : list Child) (handles : list Handle) :
  length handles = length widgets ->
  exists hs' nVisible,
    fitHandles widgets handles = Some (hs', nVisible) /\
    length hs' = length handles /\
    forall i w h', widgets !! i = Some w -> hs' !! i = Some h' ->
      (hidden h' = true <-> isHidden w = true \/ last_visible widgets i).
Proof.
  intros Hlen. unfold fitHandles.
  destruct (fitHandlesLoop_runs widgets 0 handles None 0) as [[[hs last] nv] Hrun];
    [simpl; lia|].
  rewrite Hrun.
  destruct (fitHandlesLoop_spec _ _ _ _ _ _ _ _ Hrun)
    as (Hl & _ & Hmirror & Hlast).
  eexists _, nv. split; [reflexivity|].
  destruct Hlast as [[-> Hall]|(m & w0 & -> & Hm & Hvis & Hafter)].
  - split; [exact Hl|]. intros i w h' Hw Hh'.
    destruct (Hmirror i w Hw) as (h & Hh & Hhid). simpl in Hh.
    assert (h' = h) as -> by congruence. rewrite Hhid.
    rewrite Forall_lookup in Hall. specialize (Hall i w Hw).
    split; [auto|intros _; exact Hall].
  - simpl. split; [rewrite length_alter; exact Hl|].
    intros i w h' Hw Hh'.
    destruct (Hmirror i w Hw) as (h & Hh & Hhid). simpl in Hh.
    destruct (decide (i = m)) as [->|Hne].
    + rewrite list_lookup_alter_eq, Hh in Hh'. simpl in Hh'.
      injection Hh' as <-. simpl.
      split; [intros _|reflexivity]. right. split; [|exact Hafter].
      exists w0. split; [exact Hm|exact Hvis].
    + rewrite list_lookup_alter_ne in Hh' by congruence.
      assert (h' = h) as -> by congruence. rewrite Hhid.
      split; [auto|]. intros [Hhw|[(w1 & Hw1 & Hv1) Haft]]; [exact Hhw|].
      assert (w1 = w) as -> by congruence.
      destruct (Nat.lt_trichotomy i m) as [Hlt|[Heq|Hgt]]; [|lia|].
      * specialize (Haft m w0 Hlt Hm). congruence.
      * specialize (Hafter i w Hgt Hw). congruence.
Qed.

Lemma fit_handle_visibility_witness :
  length [ mkHandle false 0 0; mkHandle false 0 0; mkHandle true 0 0 ]
    = length [ mkChild false; mkChild false; mkChild true ] /\
  exists hs' nVisible,
    fitHandles [ mkChild false; mkChild false; mkChild true ]
               [ mkHandle false 0 0; mkHandle false 0 0; mkHandle true 0 0 ]
      = Some (hs', nVisible) /\
    length hs'
      = length [ mkHandle false 0 0; mkHandle false 0 0; mkHandle true 0 0 ] /\
    forall i w h',
      [ mkChild false; mkChild false; mkChild true ] !! i = Some w ->
      hs' !! i = Some h' ->
      (hidden h' = true <->
       isHidden w = true \/
       last_visible [ mkChild false; mkChild false; mkChild true ] i).
Proof.
  split; [reflexivity|].
  exact (fit_handle_visibility
           [ mkChild false; mkChild false; mkChild true ]
           [ mkHandle false 0 0; mkHandle false 0 0; mkHandle true 0 0 ]
           eq_refl).
Defined.

(** ** The distribution rounds of the allocation engine *)

Lemma Qsum_nonneg {A} (f : A -> Q) (l : list A) :
  (forall x, In x l -> 0 <= f x) -> 0 <= Qsum (map f l).
Proof.
  induction l as [|a l IH]; simpl; intros H; [lra|].
  fold (Qsum (map f l)).
  assert (0 <= f a) by (apply H; now left).
  assert (0 <= Qsum (map f l)) by (apply IH; intros; apply H; now right).
  lra.
Qed.

Lemma Qsum_pos {A} (f : A -> Q) (l : list A) :
  (forall x, In x l -> 0 <= f x) -> (exists x, In x l /\ 0 < f x) ->
  0 < Qsum (map f l).
Proof.
  induction l as [|a l IH]; simpl; intros H (x & Hx & Hpos); [contradiction|].
  fold (Qsum (map f l)).
  assert (0 <= f a) by (apply H; now left).
  assert (0 <= Qsum (map f l))
    by (apply Qsum_nonneg; intros; apply H; now right).
  destruct Hx as [->|Hx]; [lra|].
  assert (0 < Qsum (map f l)); [|lra].
  apply IH; [intros; apply H; now right|eauto].
Qed.

Lemma Qsum_scale {A} (c t : Q) (f : A -> Q) (l : list A) :
  Qsum (map (fun x => c * f x / t) l) == c * Qsum (map f l) / t.
Proof.
  induction l as [|a l IH]; simpl.
  - unfold Qdiv. ring.
  - fold (Qsum (map (fun x => c * f x / t) l)). fold (Qsum (map f l)).
    rewrite IH. unfold Qdiv. ring.
Qed.

Lemma Qsum_le {A} (f g : A -> Q) (l : list A) :
  (forall x, In x l -> f x <= g x) -> Qsum (map f l) <= Qsum (map g l).
Proof.
  induction l as [|a l IH]; simpl; intros H; [lra|].
  fold (Qsum (map f l)). fold (Qsum (map g l)).
  assert (f a <= g a) by (apply H; now left).
  assert (Qsum (map f l) <= Qsum (map g l))
    by (apply IH; intros; apply H; now right).
  lra.
Qed.

Lemma Qsum_eq {A} (f g : A -> Q) (l : list A) :
  (forall x, In x l -> f x == g x) -> Qsum (map f l) == Qsum (map g l).
Proof.
  induction l as [|a l IH]; simpl; intros H; [lra|].
  fold (Qsum (map f l)). fold (Qsum (map g l)).
  assert (f a == g a) by (apply H; now left).
  assert (Qsum (map f l) == Qsum (map g l))
    by (apply IH; intros; apply H; now right).
  lra.
Qed.

Lemma Qsum_plus {A} (f g : A -> Q) (l : list A) :
  Qsum (map (fun x => f x + g x) l) == Qsum (map f l) + Qsum (map g l).
Proof.
  induction l as [|a l IH]; simpl; [lra|].
  fold (Qsum (map (fun x => f x + g x) l)).
  fold (Qsum (map f l)). fold (Qsum (map g l)). lra.
Qed.

Lemma roundWeight_nonneg (b : bool) (s : Slot) : 0 <= roundWeight b s.
Proof.
  unfold roundWeight. destruct (isOpen s); [|lra].
  destruct b; [|lra].
  destruct (Qle_bool (weight s) 0) eqn:H; [lra|].
  apply Qle_bool_false in H. lra.
Qed.

Lemma roundWeight_open (b : bool) (s : Slot) :
  0 < roundWeight b s -> isOpen s = true.
Proof. unfold roundWeight. destruct (isOpen s); [reflexivity|lra]. Qed.

Lemma roundTotal_pos (slots : list Slot) :
  existsb isOpen slots = true ->
  0 < Qsum (map (roundWeight (anyWeighted slots)) slots).
Proof.
  intros Hopen. apply Qsum_pos; [intros; apply roundWeight_nonneg|].
  destruct (anyWeighted slots) eqn:Hw.
  - unfold anyWeighted in Hw. apply existsb_exists in Hw as (s & Hs & Hc).
    apply andb_true_iff in Hc as [Ho Hp]. apply negb_true_iff in Hp.
    exists s. split; [exact Hs|]. unfold roundWeight. rewrite Ho, Hp.
    apply Qle_bool_false in Hp. exact Hp.
  - apply existsb_exists in Hopen as (s & Hs & Ho).
    exists s. split; [exact Hs|]. unfold roundWeight. rewrite Ho. lra.
Qed.

Lemma grant_ok (s : Slot) (share : Q) :
  slot_ok s -> 0 <= share ->
  slot_ok (grant s share) /\
  granted s <= granted (grant s share) /\
  granted (grant s share) <= granted s + share.
Proof.
  unfold slot_ok, grant. intros [H0 Hr] Hs. simpl.
  destruct (room s) as [r|]; simpl in *.
  - repeat split; qminmax; lra.
  - repeat split; try exact I; lra.
Qed.

Lemma grant_fits (share : Slot -> Q) (s : Slot) :
  fits share s = true ->
  granted (grant s (share s)) == granted s + share s.
Proof.
  unfold fits, grant. simpl. destruct (room s) as [r|]; simpl; [|reflexivity].
  intros H. apply Qle_bool_iff in H. qminmax; lra.
Qed.

Lemma grant_saturates (share : Slot -> Q) (s : Slot) :
  slot_ok s -> fits share s = false ->
  0 < share s /\ isOpen (grant s (share s)) = false.
Proof.
  unfold fits, grant, isOpen, slot_ok. simpl.
  destruct (room s) as [r|]; simpl; [|discriminate].
  intros [H0 Hr] H. apply Qle_bool_false in H. split; [lra|].
  apply negb_false_iff, Qle_bool_iff. qminmax; lra.
Qed.

Lemma grant_stays_closed (s : Slot) (share : Q) :
  slot_ok s -> 0 <= share -> isOpen s = false ->
  isOpen (grant s share) = false.
Proof.
  unfold grant, isOpen, slot_ok. simpl.
  destruct (room s) as [r|]; simpl; [|discriminate].
  intros [H0 Hr] Hs H. apply negb_false_iff, Qle_bool_iff in H.
  apply negb_false_iff, Qle_bool_iff. qminmax; lra.
Qed.

Lemma forallb_false {A} (f : A -> bool) (l : list A) :
  forallb f l = false -> exists x, In x l /\ f x = false.
Proof.
  induction l as [|a l IH]; simpl; [discriminate|].
  destruct (f a) eqn:Ha; simpl.
  - intros H. destruct (IH H) as (x & Hx & Hf). exists x. auto.
  - intros _. exists a. auto.
Qed.

Lemma countOpen_map_le (g : Slot -> Slot) (l : list Slot) :
  (forall s, In s l -> isOpen s = false -> isOpen (g s) = false) ->
  (countOpen (map g l) <= countOpen l)%nat.
Proof.
  unfold countOpen. induction l as [|a l IH]; simpl; intros H; [lia|].
  assert (IH' : (length (List.filter isOpen (map g l))
                 <= length (List.filter isOpen l))%nat)
    by (apply IH; intros; apply H; auto).
  destruct (isOpen a) eqn:Ha.
  - destruct (isOpen (g a)); simpl; lia.
  - rewrite (H a) by auto. exact IH'.
Qed.

Lemma countOpen_map_lt (g : Slot -> Slot) (l : list Slot) :
  (forall s, In s l -> isOpen s = false -> isOpen (g s) = false) ->
  (exists s, In s l /\ isOpen s = true /\ isOpen (g s) = false) ->
  (countOpen (map g l) < countOpen l)%nat.
Proof.
  induction l as [|a l IH]; simpl; intros H (s & Hs & Ho & Hc);
    [contradiction|].
  assert (Hle : (countOpen (map g l) <= countOpen l)%nat)
    by (apply countOpen_map_le; intros; apply H; auto).
  unfold countOpen in *. simpl.
  destruct Hs as [->|Hs].
  - rewrite Ho, Hc. simpl. lia.
  - assert (IH' : (length (List.filter isOpen (map g l))
                   < length (List.filter isOpen l))%nat)
      by (apply IH; [intros; apply H; auto|eauto]).
    destruct (isOpen a) eqn:Ha.
    + destruct (isOpen (g a)); simpl; lia.
    + rewrite (H a) by auto. exact IH'.
Qed.

Lemma countOpen_zero (l : list Slot) :
  existsb isOpen l = false -> countOpen l = 0%nat.
Proof.
  unfold countOpen. induction l as [|a l IH]; simpl; [reflexivity|].
  destruct (isOpen a); simpl; [discriminate|exact IH].
Qed.

Lemma countOpen_zero_inv (l : list Slot) :
  countOpen l = 0%nat -> Forall (fun s => isOpen s = false) l.
Proof.
  unfold countOpen. induction l as [|a l IH]; simpl; [constructor|].
  destruct (isOpen a) eqn:Ha; simpl; [discriminate|].
  intros H. constructor; auto.
Qed.

(** One round: rooms and weights are kept, no slot is granted more than
    its room, the total granted does not pass [amount], and either the
    whole surplus is placed or a slot saturates. *)
Lemma round_spec (amount : Q) (slots : list Slot) :
  Forall slot_ok slots ->
  0 < amount - Qsum (map granted slots) ->
  existsb isOpen slots = true ->
  let slots' := round (amount - Qsum (map granted slots)) slots in
  Forall slot_ok slots' /\
  map room slots' = map room slots /\
  map weight slots' = map weight slots /\
  Qsum (map granted slots') <= amount /\
  (Qsum (map granted slots') == amount \/
   (countOpen slots' < countOpen slots)%nat).
Proof.
  intros Hok Hsur Hopen. unfold round.
  set (surplus := amount - Qsum (map granted slots)) in *.
  set (b := anyWeighted slots).
  pose proof (roundTotal_pos slots Hopen) as Ht. fold b in Ht.
  set (t := Qsum (map (roundWeight b) slots)) in *.
  set (share := fun s => surplus * roundWeight b s / t).
  assert (Hshare : forall s, 0 <= share s).
  { intros s. unfold share. pose proof (roundWeight_nonneg b s).
    apply Qle_shift_div_l; [exact Ht|]. nra. }
  assert (Hsum : Qsum (map share slots) == surplus).
  { unfold share. rewrite Qsum_scale. fold t. field. lra. }
  rewrite Forall_forall in Hok.
  assert (HokIn : forall s, In s slots -> slot_ok s).
  { intros s Hs. apply Hok. apply list_elem_of_In. exact Hs. }
  change (map (fun s => grant s (surplus * roundWeight b s / t)) slots)
    with (map (fun s => grant s (share s)) slots).
  split; [|split; [|split; [|split]]].
  - apply Forall_map, Forall_forall. intros s Hs.
    apply grant_ok; [apply Hok, Hs|apply Hshare].
  - rewrite map_map. reflexivity.
  - rewrite map_map. reflexivity.
  - rewrite map_map.
    apply Qle_trans with (Qsum (map (fun s => granted s + share s) slots)).
    + apply Qsum_le. intros s Hs.
      apply grant_ok; [apply HokIn, Hs|apply Hshare].
    + rewrite Qsum_plus, Hsum. unfold surplus. lra.
  - destruct (forallb (fits share) slots) eqn:Hfit.
    + left. rewrite map_map.
      rewrite (Qsum_eq _ (fun s => granted s + share s)).
      * rewrite Qsum_plus, Hsum. unfold surplus. lra.
      * intros s Hs. apply grant_fits.
        rewrite forallb_forall in Hfit. apply Hfit, Hs.
    + right. apply forallb_false in Hfit as (s & Hs & Hf).
      apply countOpen_map_lt.
      * intros s0 Hs0 Hc. apply grant_stays_closed;
          [apply HokIn, Hs0|apply Hshare|exact Hc].
      * exists s. split; [exact Hs|].
        destruct (grant_saturates share s (HokIn s Hs) Hf) as [Hpos Hsat].
        split; [|exact Hsat].
        apply (roundWeight_open b). unfold share in Hpos.
        destruct (Qlt_le_dec 0 (roundWeight b s)) as [|Hle]; [assumption|].
        pose proof (roundWeight_nonneg b s) as Hnn.
        assert (Hz : roundWeight b s == 0) by lra.
        rewrite Hz in Hpos. unfold Qdiv in Hpos.
        rewrite Qmult_0_r, Qmult_0_l in Hpos. lra.
Qed.

Lemma fill_done (fuel : nat) (amount : Q) (slots : list Slot) :
  amount <= Qsum (map granted slots) -> fill fuel amount slots = slots.
Proof.
  intros H. destruct fuel as [|fuel]; simpl; [reflexivity|].
  destruct (Qlt_le_dec 0 (amount - Qsum (map granted slots))); [lra|].
  reflexivity.
Qed.

(** The rounds end with the whole amount placed or with no headroom
    left. *)
Lemma fill_spec (amount : Q) (fuel : nat) :
  forall slots : list Slot,
  (countOpen slots <= fuel)%nat ->
  Forall slot_ok slots ->
  Qsum (map granted slots) <= amount ->
  let slots' := fill fuel amount slots in
  Forall slot_ok slots' /\
  map room slots' = map room slots /\
  Qsum (map granted slots') <= amount /\
  (amount <= Qsum (map granted slots') \/ countOpen slots' = 0%nat).
Proof.
  induction fuel as [|fuel IH]; intros slots Hfuel Hok Hle; simpl.
  - repeat split; auto. right. lia.
  - destruct (Qlt_le_dec 0 (amount - Qsum (map granted slots))) as [Hs|Hs].
    + destruct (existsb isOpen slots) eqn:Hopen.
      * destruct (round_spec amount slots Hok Hs Hopen)
          as (Hok' & Hroom & _ & Hle' & Hprog).
        destruct Hprog as [Hall|Hlt].
        -- assert (Hge : amount <= Qsum (map granted
                     (round (amount - Qsum (map granted slots)) slots)))
             by (rewrite Hall; apply Qle_refl).
           rewrite (fill_done _ _ _ Hge).
           repeat split; auto.
        -- assert (Hfuel' : (countOpen
                     (round (amount - Qsum (map granted slots)) slots)
                     <= fuel)%nat) by lia.
           destruct (IH _ Hfuel' Hok' Hle') as (H1 & H2 & H3 & H4).
           repeat split; auto. congruence.
      * repeat split; auto. right. apply countOpen_zero, Hopen.
    + repeat split; auto. left. lra.
Qed.

Lemma closed_full (slots : list Slot) :
  Forall slot_ok slots -> Forall (fun s => isOpen s = false) slots ->
  Num.eq (Fin (Qsum (map granted slots))) (Num.sum (map room slots)).
Proof.
  induction 1 as [|s l [H0 Hr] _ IH]; intros Hc;
    inversion Hc as [|? ? Hs Hl]; subst; simpl; [lra|].
  fold (Qsum (map granted l)). fold (Num.sum (map room l)).
  specialize (IH Hl). unfold isOpen in Hs.
  destruct (room s) as [r|]; [|discriminate].
  apply negb_false_iff, Qle_bool_iff in Hs. simpl in Hr.
  destruct (Num.sum (map room l)); simpl in *; [lra|contradiction].
Qed.

Lemma fresh_slots (rooms : list (num * Q)) :
  Forall (fun rw => Num.le 0 (fst rw)) rooms ->
  Forall slot_ok (map (fun rw => mkSlot (fst rw) (snd rw) 0) rooms) /\
  Qsum (map granted (map (fun rw => mkSlot (fst rw) (snd rw) 0) rooms)) == 0 /\
  map room (map (fun rw => mkSlot (fst rw) (snd rw) 0) rooms) = map fst rooms.
Proof.
  induction 1 as [|rw l Hrw _ (IH1 & IH2 & IH3)]; simpl.
  - split; [constructor|split; reflexivity].
  - fold (Qsum (map granted (map (fun rw => mkSlot (fst rw) (snd rw) 0) l))).
    split; [|split].
    + constructor; [|exact IH1]. split; simpl; [lra|exact Hrw].
    + lra.
    + now rewrite IH3.
Qed.

Lemma countOpen_le_length (l : list Slot) : (countOpen l <= length l)%nat.
Proof.
  unfold countOpen. induction l as [|a l IH]; simpl; [lia|].
  destruct (isOpen a); simpl; lia.
Qed.

(** What [distribute] hands out: one grant per slot, each between nothing
    and the room of its slot, adding up to the amount when the rooms can
    take it. *)
Lemma distribute_spec (amount : Q) (rooms : list (num * Q)) :
  Forall (fun rw => Num.le 0 (fst rw)) rooms -> 0 <= amount ->
  Forall2 (fun rw g => 0 <= g /\ Num.le g (fst rw))
          rooms (distribute amount rooms) /\
  Qsum (distribute amount rooms) <= amount /\
  (Num.le amount (Num.sum (map fst rooms)) ->
   Qsum (distribute amount rooms) == amount).
Proof.
  intros Hrooms Hamount. unfold distribute.
  destruct (fresh_slots rooms Hrooms) as (Hok0 & Hsum0 & Hroom0).
  set (slots0 := map (fun rw => mkSlot (fst rw) (snd rw) 0) rooms) in *.
  destruct (fill_spec amount (length rooms) slots0) as (Hok & Hroom & Hle & Hend).
  { pose proof (countOpen_le_length slots0) as H.
    unfold slots0 in H at 2. rewrite length_map in H. exact H. }
  { exact Hok0. }
  { lra. }
  set (slots := fill (length rooms) amount slots0) in *.
  rewrite Hroom0 in Hroom.
  split; [|split].
  - clearbody slots. clear -Hok Hroom. revert rooms Hroom.
    induction Hok as [|s l [H0 Hr] _ IH]; intros [|rw rooms] Hroom;
      simpl in *; try discriminate; constructor.
    + injection Hroom as Hrw _. rewrite <- Hrw. split; assumption.
    + apply IH. injection Hroom as _ Hl. exact Hl.
  - exact Hle.
  - intros Hfit. destruct Hend as [Hge|Hclosed]; [lra|].
    apply countOpen_zero_inv in Hclosed.
    pose proof (closed_full slots Hok Hclosed) as Hfull.
    rewrite Hroom in Hfull.
    destruct (Num.sum (map fst rooms)); simpl in *; [lra|contradiction].
Qed.

(** ** The allocation pass *)

Lemma resized_refl z : resized z z.
Proof. unfold resized; auto. Qed.

Lemma resized_set_size z v : resized z (set_size z v).
Proof. unfold resized; simpl; auto. Qed.

Lemma resized_trans a b c : resized a b -> resized b c -> resized a c.
Proof.
  unfold resized. intros (?&?&?&?) (?&?&?&?). repeat split; congruence.
Qed.

Lemma Forall2_resized_map (f : BoxSizer -> BoxSizer) zs :
  (forall z, resized z (f z)) -> Forall2 resized zs (map f zs).
Proof. intros H. induction zs; simpl; constructor; auto. Qed.

Lemma Forall2_resized_trans a b c :
  Forall2 resized a b -> Forall2 resized b c -> Forall2 resized a c.
Proof.
  intros H. revert c. induction H; intros c Hc; inversion Hc; subst;
    constructor; eauto using resized_trans.
Qed.

Lemma resized_maximize z : resized z (maximize z).
Proof.
  unfold maximize. destruct (maxSize z);
    [apply resized_set_size|apply resized_refl].
Qed.

Lemma clamp_bounds (lo : Q) (hi : num) (v : Q) :
  Num.le lo hi -> lo <= clamp lo hi v /\ Num.le (clamp lo hi v) hi.
Proof.
  unfold clamp. destruct hi as [h|]; simpl; intros H.
  - split; qminmax; lra.
  - split; [qminmax; lra|exact I].
Qed.

Lemma start_in_bounds sizers :
  Forall well_bounded sizers -> Forall in_bounds (start sizers).
Proof.
  intros H. apply Forall_map. eapply Forall_impl; [exact H|].
  intros z Hz. unfold in_bounds; simpl. apply clamp_bounds, Hz.
Qed.

Lemma map_minSize_resized zs zs' :
  Forall2 resized zs zs' -> map minSize zs' = map minSize zs.
Proof.
  induction 1 as [|z z' l l' (_&H&_&_) _ IH]; simpl; [reflexivity|].
  now rewrite H, IH.
Qed.

Lemma map_maxSize_resized zs zs' :
  Forall2 resized zs zs' -> map maxSize zs' = map maxSize zs.
Proof.
  induction 1 as [|z z' l l' (_&_&H&_) _ IH]; simpl; [reflexivity|].
  now rewrite H, IH.
Qed.

Lemma start_resized sizers : Forall2 resized sizers (start sizers).
Proof. apply Forall2_resized_map. intros; apply resized_set_size. Qed.

Lemma sum_headroom (zs : list BoxSizer) :
  Num.eq (Num.sum (map headroom zs))
         (Num.sub (Num.sum (map maxSize zs)) (Qsum (map size zs))).
Proof.
  induction zs as [|z zs IH]; simpl; [lra|].
  fold (Num.sum (map headroom zs)). fold (Num.sum (map maxSize zs)).
  fold (Qsum (map size zs)). unfold headroom at 1.
  destruct (maxSize z), (Num.sum (map headroom zs)),
    (Num.sum (map maxSize zs)); simpl in *; try lra; try exact I;
    try contradiction.
Qed.

Lemma sum_slack (zs : list BoxSizer) :
  Num.eq (Num.sum (map slack zs))
         (Fin (Qsum (map size zs) - Qsum (map minSize zs))).
Proof.
  induction zs as [|z zs IH]; simpl; [lra|].
  fold (Num.sum (map slack zs)). fold (Qsum (map minSize zs)).
  fold (Qsum (map size zs)).
  destruct (Num.sum (map slack zs)); simpl in *; [lra|contradiction].
Qed.

Section Zip.

Variable f : BoxSizer -> Q -> Q.

Lemma zip_resized {P : BoxSizer -> Q -> Prop} zs gs :
  Forall2 P zs gs ->
  Forall2 resized zs (zip_with (fun z g => set_size z (f z g)) zs gs).
Proof.
  induction 1; simpl; constructor; auto using resized_set_size.
Qed.

Lemma zip_in_bounds {P : BoxSizer -> Q -> Prop} zs gs :
  Forall2 P zs gs ->
  (forall z g, P z g -> in_bounds (set_size z (f z g))) ->
  Forall in_bounds (zip_with (fun z g => set_size z (f z g)) zs gs).
Proof.
  intros H Hf. induction H; simpl; constructor; auto.
Qed.

End Zip.

Lemma zip_sizes_plus {P : BoxSizer -> Q -> Prop} zs gs :
  Forall2 P zs gs ->
  Qsum (map size (zip_with (fun z g => set_size z (size z + g)) zs gs))
  == Qsum (map size zs) + Qsum gs.
Proof.
  induction 1 as [|z g zs gs _ _ IH]; simpl; [lra|].
  fold (Qsum (map size
    (zip_with (fun z g => set_size z (size z + g)) zs gs))).
  fold (Qsum (map size zs)). fold (Qsum gs). lra.
Qed.

Lemma zip_sizes_minus {P : BoxSizer -> Q -> Prop} zs gs :
  Forall2 P zs gs ->
  Qsum (map size (zip_with (fun z g => set_size z (size z - g)) zs gs))
  == Qsum (map size zs) - Qsum gs.
Proof.
  induction 1 as [|z g zs gs _ _ IH]; simpl; [lra|].
  fold (Qsum (map size
    (zip_with (fun z g => set_size z (size z - g)) zs gs))).
  fold (Qsum (map size zs)). fold (Qsum gs). lra.
Qed.

Lemma Forall2_map_l {A B C} (P : B -> C -> Prop) (h : A -> B) l k :
  Forall2 P (map h l) k -> Forall2 (fun a c => P (h a) c) l k.
Proof.
  revert k. induction l as [|a l IH]; intros k H; inversion H; subst;
    constructor; auto.
Qed.

Lemma in_bounds_headroom zs :
  Forall in_bounds zs ->
  Forall (fun rw : num * Q => Num.le 0 (fst rw))
         (map (fun z => (headroom z, weightOf z)) zs).
Proof.
  intros H. apply Forall_map. eapply Forall_impl; [exact H|].
  intros z [_ Hz]. simpl. unfold headroom.
  destruct (maxSize z); simpl in *; [lra|exact I].
Qed.

Lemma in_bounds_slack zs :
  Forall in_bounds zs ->
  Forall (fun rw : num * Q => Num.le 0 (fst rw))
         (map (fun z => (slack z, weightOf z)) zs).
Proof.
  intros H. apply Forall_map. eapply Forall_impl; [exact H|].
  intros z [Hz _]. simpl. lra.
Qed.

(** The growing branch. *)
Lemma grow_branch (zs : list BoxSizer) (residual : Q) :
  Forall in_bounds zs -> 0 <= residual ->
  let zs' := zip_with (fun z g => set_size z (size z + g)) zs
               (distribute residual
                  (map (fun z => (headroom z, weightOf z)) zs)) in
  Forall2 resized zs zs' /\ Forall in_bounds zs' /\
  (Num.le (Qsum (map size zs) + residual) (Num.sum (map maxSize zs)) ->
   Qsum (map size zs') == Qsum (map size zs) + residual).
Proof.
  intros Hb Hr.
  destruct (distribute_spec residual _ (in_bounds_headroom zs Hb) Hr)
    as (Hg & _ & Hsum).
  apply Forall2_map_l in Hg. simpl in Hg.
  assert (Hg' : Forall2 (fun z g => in_bounds z /\ 0 <= g /\
                                    Num.le g (headroom z)) zs
                  (distribute residual
                     (map (fun z => (headroom z, weightOf z)) zs))).
  { clear -Hb Hg. induction Hg as [|z g l k [H1 H2] _ IH];
      inversion Hb; subst; constructor; auto. }
  split; [|split].
  - eapply zip_resized, Hg'.
  - eapply (zip_in_bounds (fun z g => size z + g)); [exact Hg'|].
    intros z g ([Hmin Hmax] & Hg0 & Hgr). unfold in_bounds, headroom in *.
    simpl. destruct (maxSize z); simpl in *; [lra|split; [lra|exact I]].
  - intros Hfit. simpl. rewrite (zip_sizes_plus _ _ Hg').
    rewrite Hsum; [reflexivity|].
    rewrite map_map. simpl.
    change (map (fun x => headroom x) zs) with (map headroom zs).
    pose proof (sum_headroom zs) as Hh.
    destruct (Num.sum (map headroom zs)), (Num.sum (map maxSize zs));
      simpl in *; try lra; try exact I; try contradiction.
Qed.

(** The shrinking branch. *)
Lemma shrink_branch (zs : list BoxSizer) (deficit : Q) :
  Forall in_bounds zs -> 0 <= deficit ->
  let zs' := zip_with (fun z g => set_size z (size z - g)) zs
               (distribute deficit
                  (map (fun z => (slack z, weightOf z)) zs)) in
  Forall2 resized zs zs' /\ Forall in_bounds zs' /\
  (Qsum (map minSize zs) <= Qsum (map size zs) - deficit ->
   Qsum (map size zs') == Qsum (map size zs) - deficit).
Proof.
  intros Hb Hr.
  destruct (distribute_spec deficit _ (in_bounds_slack zs Hb) Hr)
    as (Hg & _ & Hsum).
  apply Forall2_map_l in Hg. simpl in Hg.
  assert (Hg' : Forall2 (fun z g => in_bounds z /\ 0 <= g /\
                                    g <= size z - minSize z) zs
                  (distribute deficit
                     (map (fun z => (slack z, weightOf z)) zs))).
  { clear -Hb Hg. induction Hg as [|z g l k [H1 H2] _ IH];
      inversion Hb; subst; constructor; auto. }
  split; [|split].
  - eapply zip_resized, Hg'.
  - eapply (zip_in_bounds (fun z g => size z - g)); [exact Hg'|].
    intros z g ([Hmin Hmax] & Hg0 & Hgr). unfold in_bounds in *.
    simpl. destruct (maxSize z); simpl in *; [lra|split; [lra|exact I]].
  - intros Hfit. simpl. rewrite (zip_sizes_minus _ _ Hg').
    rewrite Hsum; [reflexivity|].
    rewrite map_map. simpl.
    change (map (fun x => slack x) zs) with (map slack zs).
    pose proof (sum_slack zs) as Hh.
    destruct (Num.sum (map slack zs)); simpl in *; [lra|contradiction].
Qed.

Lemma all_min_sizes zs :
  map size (map (fun z => set_size z (minSize z)) zs) = map minSize zs.
Proof. rewrite map_map. reflexivity. Qed.

Lemma all_min_in_bounds zs :
  Forall well_bounded zs ->
  Forall in_bounds (map (fun z => set_size z (minSize z)) zs).
Proof.
  intros H. apply Forall_map. eapply Forall_impl; [exact H|].
  intros z Hz. unfold in_bounds; simpl. split; [lra|exact Hz].
Qed.

Lemma all_max_spec zs :
  forall t, Num.sum (map maxSize zs) = Fin t ->
  Forall at_max (map maximize zs) /\
  Qsum (map size (map maximize zs)) == t.
Proof.
  induction zs as [|z zs IH]; simpl; intros t Ht.
  - injection Ht as <-. split; [constructor|lra].
  - fold (Num.sum (map maxSize zs)) in Ht.
    fold (Qsum (map size (map maximize zs))).
    destruct (maxSize z) as [m|] eqn:Hm; [|discriminate].
    destruct (Num.sum (map maxSize zs)) as [t'|]; [|discriminate].
    simpl in Ht. injection Ht as <-.
    destruct (IH t' eq_refl) as [IH1 IH2].
    assert (Hz : maximize z = set_size z m) by (unfold maximize; now rewrite Hm).
    rewrite Hz. split.
    + constructor; [|exact IH1]. unfold at_max. simpl. rewrite Hm. simpl. lra.
    + simpl. lra.
Qed.

Lemma at_max_in_bounds zs :
  Forall well_bounded zs -> Forall at_max zs -> Forall in_bounds zs.
Proof.
  intros Hw Hm. induction Hw as [|z l Hz _ IH];
    inversion Hm as [|? ? Hzm Hlm]; subst; constructor; auto.
  unfold in_bounds, at_max, well_bounded in *.
  destruct (maxSize z); simpl in *; [lra|contradiction].
Qed.

Lemma maximize_well_bounded zs :
  Forall well_bounded zs -> Forall well_bounded (map maximize zs).
Proof.
  intros H. apply Forall_map. eapply Forall_impl; [exact H|].
  intros z Hz. unfold well_bounded, maximize in *.
  destruct (maxSize z) eqn:Hm; simpl; rewrite ?Hm; exact Hz.
Qed.

Lemma total_min_le_max zs :
  Forall well_bounded zs ->
  Num.le (Qsum (map minSize zs)) (Num.sum (map maxSize zs)).
Proof.
  induction 1 as [|z l Hz _ IH]; simpl; [lra|].
  fold (Qsum (map minSize l)). fold (Num.sum (map maxSize l)).
  unfold well_bounded in Hz.
  destruct (maxSize z), (Num.sum (map maxSize l)); simpl in *;
    try exact I. lra.
Qed.

Lemma leb_true (a : num) (b : Q) :
  Num.leb a b = true -> exists t, a = Fin t /\ t <= b.
Proof.
  destruct a as [t|]; simpl; [|discriminate].
  intros H. apply Qle_bool_iff in H. eauto.
Qed.

Lemma leb_false (a : num) (b : Q) :
  Num.leb a b = false -> Num.le b a /\ forall t, a = Fin t -> b < t.
Proof.
  destruct a as [t|]; simpl.
  - intros H. apply Qle_bool_false in H.
    split; [lra|]. intros t' [= <-]. exact H.
  - intros _. split; [exact I|discriminate].
Qed.

(** The three cases of [boxCalc], with what each leaves behind. *)
Lemma boxCalc_cases (sizers : list BoxSizer) (space : Q) :
  Forall well_bounded sizers ->
  let sizers' := boxCalc sizers space in
  Forall2 resized sizers sizers' /\ Forall in_bounds sizers' /\
  ((space <= Qsum (map minSize sizers) /\
    map size sizers' = map minSize sizers) \/
   (Qsum (map minSize sizers) < space /\
    exists t, Num.sum (map maxSize sizers) = Fin t /\ t <= space /\
              Forall at_max sizers' /\ Qsum (map size sizers') == t) \/
   (Qsum (map minSize sizers) < space /\
    (forall t, Num.sum (map maxSize sizers) = Fin t -> space < t) /\
    Qsum (map size sizers') == space)).
Proof.
  intros Hw. unfold boxCalc.
  destruct (Qle_bool space (Qsum (map minSize sizers))) eqn:Hmin.
  - apply Qle_bool_iff in Hmin. split; [|split].
    + apply Forall2_resized_map. intros; apply resized_set_size.
    + apply all_min_in_bounds, Hw.
    + left. split; [exact Hmin|apply all_min_sizes].
  - apply Qle_bool_false in Hmin.
    destruct (Num.leb (Num.sum (map maxSize sizers)) space) eqn:Hmax.
    + apply leb_true in Hmax as (t & Ht & Hts).
      destruct (all_max_spec sizers t Ht) as [Hat Hsum].
      split; [|split].
      * apply Forall2_resized_map, resized_maximize.
      * apply at_max_in_bounds; [apply maximize_well_bounded, Hw|exact Hat].
      * right; left. split; [exact Hmin|]. exists t. auto.
    + apply leb_false in Hmax as [Hle Hlt].
      fold (start sizers).
      pose proof (start_in_bounds sizers Hw) as Hsb.
      pose proof (start_resized sizers) as Hsr.
      pose proof (map_minSize_resized _ _ Hsr) as Hmins.
      pose proof (map_maxSize_resized _ _ Hsr) as Hmaxs.
      set (residual := space - Qsum (map size (start sizers))).
      destruct (Qlt_le_dec 0 residual) as [Hpos|Hnpos].
      * destruct (grow_branch (start sizers) residual Hsb) as (H1 & H2 & H3);
          [lra|].
        split; [eapply Forall2_resized_trans; eassumption|].
        split; [exact H2|]. right; right.
        split; [exact Hmin|]. split; [exact Hlt|].
        rewrite H3; [unfold residual; lra|].
        rewrite Hmaxs.
        destruct (Num.sum (map maxSize sizers)); simpl in *;
          [unfold residual; lra|exact I].
      * destruct (Qlt_le_dec residual 0) as [Hneg|Hnneg].
        -- destruct (shrink_branch (start sizers) (- residual) Hsb)
             as (H1 & H2 & H3); [lra|].
           split; [eapply Forall2_resized_trans; eassumption|].
           split; [exact H2|]. right; right.
           split; [exact Hmin|]. split; [exact Hlt|].
           rewrite H3; [unfold residual; lra|].
           rewrite Hmins. unfold residual. lra.
        -- split; [exact Hsr|]. split; [exact Hsb|]. right; right.
           split; [exact Hmin|]. split; [exact Hlt|].
           unfold residual in *. lra.
Qed.

Lemma update_sizers L w ws measured box ow oh :
  _sizers (_update L (w :: ws) measured box ow oh)
  = boxCalc (_sizers L)
      (Qmax 0 (contentExtent L measured box ow oh - _fixed L)).
Proof.
  unfold _update, contentExtent, layoutSpace. simpl.
  destruct (_orientation L); reflexivity.
Qed.

(** C2.  An allocation pass over sizers with [minSize <= maxSize] changes
    only sizes and leaves every size within [minSize, maxSize]; when the
    space lies between the total minimum and the total maximum the sizes
    add up to the space exactly; at or below the total minimum every size
    is its minimum, above a finite total maximum every size is its
    maximum.  For [_update], which hands [boxCalc] the content extent less
    the fixed spacing, the sizes plus the fixed spacing then add up to the
    extent whenever the spacing fits in it. *)
Theorem allocation_pass (sizers : list BoxSizer) :
  Forall well_bounded sizers ->
  (forall space,
     let sizers' := boxCalc sizers space in
     Forall2 resized sizers sizers' /\
     Forall in_bounds sizers' /\
     (Qsum (map minSize sizers) <= space ->
      Num.le space (Num.sum (map maxSize sizers)) ->
      Qsum (map size sizers') == space) /\
     (space <= Qsum (map minSize sizers) ->
      map size sizers' = map minSize sizers) /\
     (forall t, Num.sum (map maxSize sizers) = Fin t -> t < space ->
      Forall at_max sizers')) /\
  (forall L w ws measured box ow oh,
     _sizers L = sizers ->
     let extent := contentExtent L measured box ow oh in
     let L' := _update L (w :: ws) measured box ow oh in
     _sizers L' = boxCalc sizers (Qmax 0 (extent - _fixed L)) /\
     (_fixed L <= extent ->
      Qsum (map minSize sizers) <= extent - _fixed L ->
      Num.le (extent - _fixed L) (Num.sum (map maxSize sizers)) ->
      Qsum (sizes L') + _fixed L == extent)).
Proof.
  intros Hw.
  assert (Hbox : forall space,
     let sizers' := boxCalc sizers space in
     Forall2 resized sizers sizers' /\
     Forall in_bounds sizers' /\
     (Qsum (map minSize sizers) <= space ->
      Num.le space (Num.sum (map maxSize sizers)) ->
      Qsum (map size sizers') == space) /\
     (space <= Qsum (map minSize sizers) ->
      map size sizers' = map minSize sizers) /\
     (forall t, Num.sum (map maxSize sizers) = Fin t -> t < space ->
      Forall at_max sizers')).
  { intros space.
    destruct (boxCalc_cases sizers space Hw) as (Hr & Hb & Hcase).
    pose proof (total_min_le_max sizers Hw) as Hmm.
    split; [exact Hr|]. split; [exact Hb|]. split; [|split].
    - intros Hlo Hhi.
      destruct Hcase as [[Hle Hs]|[(Hlt & t & Ht & Hts & _ & Hs)|(_ & _ & Hs)]].
      + rewrite Hs. lra.
      + rewrite Ht in Hhi. simpl in Hhi. lra.
      + exact Hs.
    - intros Hle.
      destruct Hcase as [[_ Hs]|[(Hlt & _)|(Hlt & _)]]; [exact Hs|lra|lra].
    - intros t Ht Hts.
      destruct Hcase as [[Hle _]|[(_ & t' & Ht' & _ & Hat & _)|(_ & Hlt & _)]].
      + rewrite Ht in Hmm. simpl in Hmm. lra.
      + exact Hat.
      + specialize (Hlt t Ht). lra. }
  split; [exact Hbox|].
  intros L w ws measured box ow oh HL extent L'.
  assert (Hs : _sizers L' = boxCalc sizers (Qmax 0 (extent - _fixed L))).
  { unfold L', extent. rewrite update_sizers, HL. reflexivity. }
  split; [exact Hs|].
  intros Hfix Hlo Hhi. unfold sizes. rewrite Hs.
  destruct (Hbox (Qmax 0 (extent - _fixed L))) as (_ & _ & Hsum & _).
  assert (Hq : Qmax 0 (extent - _fixed L) == extent - _fixed L)
    by (qminmax; lra).
  rewrite Hsum; [lra|lra|].
  destruct (Num.sum (map maxSize sizers)); simpl in *; [lra|exact I].
Qed.

Lemma allocation_pass_witness :
  Forall well_bounded drag_sizers /\
  Qsum (map size (boxCalc drag_sizers 120)) == 120 /\
  Qsum (sizes (_update drag_layout [mkChild false; mkChild false]
                       (123, 80) (mkBox 0 0) (-1) (-1)))
    + _fixed drag_layout == 123.
Proof.
  assert (Hw : Forall well_bounded drag_sizers).
  { apply List.Forall_cons; [unfold well_bounded; simpl; lra|].
    apply List.Forall_cons; [unfold well_bounded; simpl; lra|].
    apply List.Forall_nil. }
  destruct (allocation_pass drag_sizers Hw) as [Hbox Hupd].
  split; [exact Hw|]. split.
  - destruct (Hbox 120) as (_ & _ & Hsum & _).
    apply Hsum; vm_compute; discriminate.
  - destruct (Hupd drag_layout (mkChild false) [mkChild false]
                   (123, 80) (mkBox 0 0) (-1) (-1) eq_refl) as [_ Hsum].
    apply Hsum; vm_compute; discriminate.
Defined.

Import Widgets WidgetSpec.
Close Scope Q_scope.

(** ** Flags as bits *)

Lemma flagBit_pow2 f : flagBit f = (2 ^ flagIndex f)%Z.
Proof. destruct f; reflexivity. Qed.

Lemma flagIndex_nonneg f : (0 <= flagIndex f)%Z.
Proof. destruct f; simpl; lia. Qed.

Lemma flagIndex_inj f g : flagIndex f = flagIndex g -> f = g.
Proof. destruct f, g; simpl; intros H; try reflexivity; lia. Qed.

Lemma land_pow2 (a k : Z) :
  (0 <= k)%Z ->
  Z.land a (2 ^ k) = if Z.testbit a k then (2 ^ k)%Z else 0%Z.
Proof.
  intros Hk. apply Z.bits_inj'. intros n Hn.
  rewrite Z.land_spec, Z.pow2_bits_eqb by lia.
  destruct (Z.eqb_spec k n) as [->|Hne].
  - destruct (Z.testbit a n); simpl.
    + rewrite Z.pow2_bits_eqb by lia. now rewrite Z.eqb_refl.
    + now rewrite Z.bits_0.
  - rewrite andb_false_r. destruct (Z.testbit a k).
    + rewrite Z.pow2_bits_eqb by lia. symmetry. now apply Z.eqb_neq.
    + now rewrite Z.bits_0.
Qed.

Lemma testBits_testbit (flags : Z) (f : WidgetFlag) :
  testBits flags f = Z.testbit flags (flagIndex f).
Proof.
  unfold testBits. rewrite flagBit_pow2, land_pow2 by apply flagIndex_nonneg.
  destruct (Z.testbit flags (flagIndex f)); [|reflexivity].
  pose proof (flagIndex_nonneg f).
  assert (0 < 2 ^ flagIndex f)%Z by (apply Z.pow_pos_nonneg; lia).
  destruct (Z.eqb_spec (2 ^ flagIndex f) 0); [lia|reflexivity].
Qed.

Lemma testBits_setBits (flags : Z) (f g : WidgetFlag) :
  testBits (setBits flags f) g
  = if decide (g = f) then true else testBits flags g.
Proof.
  rewrite !testBits_testbit. unfold setBits.
  rewrite Z.lor_spec, flagBit_pow2.
  rewrite Z.pow2_bits_eqb by apply flagIndex_nonneg.
  destruct (decide (g = f)) as [->|Hne].
  - rewrite Z.eqb_refl. apply orb_true_r.
  - destruct (Z.eqb_spec (flagIndex f) (flagIndex g)) as [Heq|_].
    + apply flagIndex_inj in Heq. congruence.
    + apply orb_false_r.
Qed.

Lemma testBits_clearBits (flags : Z) (f g : WidgetFlag) :
  testBits (clearBits flags f) g
  = if decide (g = f) then false else testBits flags g.
Proof.
  rewrite !testBits_testbit. unfold clearBits.
  rewrite Z.land_spec, Z.lnot_spec by apply flagIndex_nonneg.
  rewrite flagBit_pow2.
  rewrite Z.pow2_bits_eqb by apply flagIndex_nonneg.
  destruct (decide (g = f)) as [->|Hne].
  - rewrite Z.eqb_refl. apply andb_false_r.
  - destruct (Z.eqb_spec (flagIndex f) (flagIndex g)) as [Heq|_].
    + apply flagIndex_inj in Heq. congruence.
    + apply andb_true_r.
Qed.

(** ** Reading the heap after a write *)

Lemma get_put (w x : wid) (W : Widget) (s : State) :
  get (put w W s) x = if decide (x = w) then W else get s x.
Proof.
  unfold get, put. simpl. destruct (decide (x = w)) as [->|Hne].
  - now rewrite lookup_insert_eq.
  - now rewrite lookup_insert_ne by congruence.
Qed.

Lemma get_put_same w W s : get (put w W s) w = W.
Proof. rewrite get_put. now destruct (decide (w = w)). Qed.

Lemma get_put_other w x W s : x <> w -> get (put w W s) x = get s x.
Proof. intros H. rewrite get_put. now destruct (decide (x = w)). Qed.

Lemma get_record e s x : get (record e s) x = get s x.
Proof. reflexivity. Qed.

Lemma trace_put w W s : trace (put w W s) = trace s.
Proof. reflexivity. Qed.

Lemma trace_record e s : trace (record e s) = trace s ++ [e].
Proof. reflexivity. Qed.

Lemma testFlag_setFlag w f s x g :
  testFlag (setFlag w f s) x g
  = if decide (x = w /\ g = f) then true else testFlag s x g.
Proof.
  unfold testFlag, setFlag. rewrite get_put.
  destruct (decide (x = w)) as [->|Hne]; simpl.
  - rewrite testBits_setBits.
    destruct (decide (g = f)), (decide (w = w /\ g = f)); tauto.
  - destruct (decide (x = w /\ g = f)); tauto.
Qed.

Lemma testFlag_clearFlag w f s x g :
  testFlag (clearFlag w f s) x g
  = if decide (x = w /\ g = f) then false else testFlag s x g.
Proof.
  unfold testFlag, clearFlag. rewrite get_put.
  destruct (decide (x = w)) as [->|Hne]; simpl.
  - rewrite testBits_clearBits.
    destruct (decide (g = f)), (decide (w = w /\ g = f)); tauto.
  - destruct (decide (x = w /\ g = f)); tauto.
Qed.

Lemma testFlag_record e s x g : testFlag (record e s) x g = testFlag s x g.
Proof. reflexivity. Qed.

Lemma parent_setFlag w f s x : parent (setFlag w f s) x = parent s x.
Proof.
  unfold parent, setFlag. rewrite get_put.
  now destruct (decide (x = w)) as [->|].
Qed.

Lemma parent_clearFlag w f s x : parent (clearFlag w f s) x = parent s x.
Proof.
  unfold parent, clearFlag. rewrite get_put.
  now destruct (decide (x = w)) as [->|].
Qed.

(** ** [forEach] *)

Lemma fold_bind (f : wid -> State -> res) (l : list wid) (r : res) :
  fold_left (fun r c => bind r (f c)) l r
  = bind r (fun s => fold_left (fun r c => bind r (f c)) l (Ok s)).
Proof.
  revert r. induction l as [|c l IH]; intros r; simpl.
  - now destruct r.
  - rewrite IH. destruct r; simpl; [|reflexivity|reflexivity].
    now rewrite <- IH.
Qed.

Lemma forEach_nil f s : forEach f [] s = Ok s.
Proof. reflexivity. Qed.

Lemma forEach_cons f c l s :
  forEach f (c :: l) s = bind (f c s) (forEach f l).
Proof. unfold forEach. simpl. apply fold_bind. Qed.

(** An invariant that every call keeps is kept by the iteration; [I] also
    sees the children already visited. *)
Lemma forEach_invariant (I : list wid -> State -> Prop)
      (f : wid -> State -> res) (l : list wid) :
  forall (done : list wid) (s s' : State),
  I done s ->
  (forall pre c s1 s2, I pre s1 -> In c l -> f c s1 = Ok s2 ->
                       I (pre ++ [c]) s2) ->
  forEach f l s = Ok s' -> I (done ++ l) s'.
Proof.
  induction l as [|c l IH]; intros done s s' HI Hstep Hrun.
  - rewrite forEach_nil in Hrun. injection Hrun as <-.
    now rewrite app_nil_r.
  - rewrite forEach_cons in Hrun.
    destruct (f c s) as [s1| |] eqn:Hc; simpl in Hrun; try discriminate.
    replace (done ++ c :: l) with ((done ++ [c]) ++ l)
      by (rewrite <- app_assoc; reflexivity).
    eapply IH; [| |exact Hrun].
    + eapply Hstep; [exact HI|now left|exact Hc].
    + intros pre c' s2 s3 Hpre Hin. apply Hstep; [exact Hpre|now right].
Qed.

(** The iteration throws only where a call throws, with an invariant of
    the states in between. *)
Lemma forEach_thrown (I : State -> Prop)
      (f : wid -> State -> res) (l : list wid) :
  forall (s : State) e s',
  I s ->
  (forall c s1 s2, I s1 -> In c l -> f c s1 = Ok s2 -> I s2) ->
  forEach f l s = Thrown e s' ->
  exists c s1, In c l /\ I s1 /\ f c s1 = Thrown e s'.
Proof.
  induction l as [|c l IH]; intros s e s' HI Hstep Hrun.
  - rewrite forEach_nil in Hrun. discriminate.
  - rewrite forEach_cons in Hrun.
    destruct (f c s) as [s1|e1 s1|] eqn:Hc; simpl in Hrun; try discriminate.
    + destruct (IH s1 e s') as (c' & s2 & Hin & HI2 & Hthrow);
        [eapply Hstep; eauto; now left| |exact Hrun|].
      * intros c' s2 s3 H2 Hin. apply Hstep; [exact H2|now right].
      * exists c', s2. split; [now right|auto].
    + injection Hrun as <- <-. exists c, s. split; [now left|auto].
Qed.

(** The iteration returns when every call does. *)
Lemma forEach_returns (I : State -> Prop)
      (f : wid -> State -> res) (l : list wid) :
  forall (s : State),
  I s ->
  (forall c s1, I s1 -> In c l -> exists s2, f c s1 = Ok s2 /\ I s2) ->
  exists s', forEach f l s = Ok s' /\ I s'.
Proof.
  induction l as [|c l IH]; intros s HI Hstep.
  - exists s. split; [reflexivity|exact HI].
  - rewrite forEach_cons.
    destruct (Hstep c s HI) as (s1 & Hc & HI1); [now left|].
    rewrite Hc. simpl. apply IH; [exact HI1|].
    intros c' s2 H2 Hin. apply Hstep; [exact H2|now right].
Qed.

(** ** The setter of [parent] *)

Lemma depth_functional s x n m : depth s x n -> depth s x m -> n = m.
Proof.
  intros H. revert m. induction H as [x Hx|x p n Hx _ IH]; intros m Hm;
    inversion Hm; subst; try congruence.
  f_equal. apply IH. congruence.
Qed.

Lemma descends_depth s this x d :
  descends s this x -> depth s x d ->
  exists k, (k <= d)%nat /\ depth s this (d - k).
Proof.
  intros H. revert d. induction H as [|x p Hx _ IH]; intros d Hd.
  - exists 0%nat. split; [lia|]. now rewrite Nat.sub_0_r.
  - inversion Hd as [x' Hroot|x' p' n Hpar Hdp]; subst; [congruence|].
    assert (p' = p) as -> by congruence.
    destruct (IH _ Hdp) as (k & Hk & Hdk).
    exists (S k). split; [lia|]. exact Hdk.
Qed.

(** With a finite chain of parents above it, a widget is not the parent of
    one of its own ancestors. *)
Lemma no_cycle s w v d :
  depth s v d -> descends s w v -> parent s w <> Some v.
Proof.
  intros Hd Hdesc Hp.
  destruct (descends_depth _ _ _ _ Hdesc Hd) as (k & Hk & Hw).
  inversion Hw as [x Hroot|x p n Hpar Hdp]; subst; [congruence|].
  assert (p = v) as -> by congruence.
  pose proof (depth_functional _ _ _ _ Hd Hdp). lia.
Qed.

Lemma contains_true s this fuel :
  forall x d, descends s this x -> depth s x d -> (d < fuel)%nat ->
  contains fuel s this (Some x) = Some true.
Proof.
  induction fuel as [|fuel IH]; intros x d Hdesc Hd Hf; [lia|]. simpl.
  destruct (decide (x = this)) as [|Hne]; [reflexivity|].
  inversion Hdesc as [|x' p Hpar Hup]; subst; [congruence|].
  inversion Hd as [x' Hroot|x' p' n Hpar' Hdp]; subst; [congruence|].
  assert (p' = p) as -> by congruence.
  rewrite Hpar. apply (IH p n); [assumption|assumption|lia].
Qed.

Lemma contains_false s this fuel :
  forall x d, ~ descends s this x -> depth s x d -> (d < fuel)%nat ->
  contains fuel s this (Some x) = Some false.
Proof.
  induction fuel as [|fuel IH]; intros x d Hdesc Hd Hf; [lia|]. simpl.
  destruct (decide (x = this)) as [->|Hne];
    [exfalso; apply Hdesc; constructor|].
  inversion Hd as [x' Hroot|x' p n Hpar Hdp]; subst.
  - rewrite Hroot. destruct fuel; reflexivity.
  - rewrite Hpar. apply (IH p n); [|assumption|lia].
    intros Hp. apply Hdesc. econstructor; eassumption.
Qed.

Lemma processMessage_passive fuel w msg s :
  passive msg -> processMessage (S fuel) w msg s = Ok s.
Proof.
  intros Hp. destruct msg; try contradiction; simpl;
    destruct (_layout (get s w)); reflexivity.
Qed.

Lemma sendMessage_passive fuel w msg s :
  passive msg -> sendMessage (S fuel) w msg s = Ok (record (Sent w msg) s).
Proof. intros Hp. unfold sendMessage. now apply processMessage_passive. Qed.

Lemma isDisposed_put_parent w value s x :
  isDisposed (put w (with_parent (get s w) value) s) x = isDisposed s x.
Proof.
  unfold isDisposed, testFlag. rewrite get_put.
  now destruct (decide (x = w)) as [->|].
Qed.

Lemma parent_put_parent w value s x :
  parent (put w (with_parent (get s w) value) s) x
  = if decide (x = w) then value else parent s x.
Proof.
  unfold parent. rewrite get_put. now destruct (decide (x = w)).
Qed.

(** The effective assignment, step by step. *)
Lemma set_parent_effective fuel s w value :
  parent s w <> value ->
  match value with
  | Some v => contains (S fuel) s w (Some v)
  | None => Some false
  end = Some false ->
  exists s', set_parent (S fuel) w value s = Ok s' /\
    trace s' = trace s ++ reparentEvents s w value /\
    heap s' = <[w := with_parent (get s w) value]> (heap s).
Proof.
  intros Hne Hcont. unfold set_parent, set_parent_with.
  destruct (decide (parent s w = value)) as [|_]; [contradiction|].
  rewrite Hcont. unfold reparentEvents.
  set (s1 := match parent s w with
             | Some p =>
               if isDisposed s p then s else record (Sent p (ChildRemoved w)) s
             | None => s
             end).
  assert (H1 : match parent s w with
               | Some p =>
                 if isDisposed s p then Ok s
                 else sendMessage (S fuel) p (ChildRemoved w) s
               | None => Ok s
               end = Ok s1).
  { unfold s1. destruct (parent s w) as [p|]; [|reflexivity].
    destruct (isDisposed s p); [reflexivity|].
    now apply sendMessage_passive. }
  rewrite H1. simpl bind.
  assert (Hheap1 : heap s1 = heap s).
  { unfold s1. destruct (parent s w) as [p|]; [|reflexivity].
    destruct (isDisposed s p); reflexivity. }
  assert (Hget1 : forall x, get s1 x = get s x).
  { intros x. unfold get. now rewrite Hheap1. }
  set (s2 := record (ParentAssigned w value)
                    (put w (with_parent (get s1 w) value) s1)).
  assert (Hp2 : parent s2 w = value).
  { unfold s2, parent. rewrite get_record, get_put_same. reflexivity. }
  rewrite Hp2.
  assert (Hd2 : forall x, isDisposed s2 x = isDisposed s x).
  { intros x. unfold s2, isDisposed, testFlag.
    rewrite get_record, get_put, !Hget1.
    now destruct (decide (x = w)) as [->|]. }
  set (s3 := match value with
             | Some v =>
               if isDisposed s v then s2 else record (Sent v (ChildAdded w)) s2
             | None => s2
             end).
  assert (H3 : match value with
               | Some p =>
                 if isDisposed s2 p then Ok s2
                 else sendMessage (S fuel) p (ChildAdded w) s2
               | None => Ok s2
               end = Ok s3).
  { unfold s3. destruct value as [v|]; [|reflexivity].
    rewrite Hd2. destruct (isDisposed s v); [reflexivity|].
    now apply sendMessage_passive. }
  rewrite H3. simpl bind.
  rewrite sendMessage_passive by exact I.
  eexists. split; [reflexivity|]. split.
  - simpl. unfold s3, s2, s1.
    destruct (parent s w) as [p|]; [destruct (isDisposed s p)|];
      (destruct value as [v|]; [destruct (isDisposed s v)|]);
      simpl; rewrite <- ?app_assoc; reflexivity.
  - simpl. unfold s3, s2.
    assert (Hh2 : heap (record (ParentAssigned w value)
                          (put w (with_parent (get s1 w) value) s1))
                  = <[w := with_parent (get s w) value]> (heap s)).
    { simpl. now rewrite Hget1, Hheap1. }
    destruct value as [v|]; [destruct (isDisposed s v)|]; exact Hh2.
Qed.

(** C6.  With a finite chain of parents above the new value: assigning the
    current parent again changes nothing; assigning the widget itself or
    one of its descendants throws and changes nothing; any other
    assignment runs, in this order, the child-removed message to the old
    parent (if there is one and it is not disposed), the assignment of the
    reference, the child-added message to the new parent (if there is one
    and it is not disposed) and the parent-changed message to the widget
    itself, and touches no other field. *)
Theorem parent_assignment
        (fuel : nat) (s : State) (w : wid) (value : option wid) (d : nat) :
  match value with Some v => depth s v d | None => True end ->
  (d < fuel)%nat ->
  (parent s w = value -> set_parent fuel w value s = Ok s) /\
  ((exists v, value = Some v /\ descends s w v) ->
   set_parent fuel w value s = Thrown "Invalid parent widget." s) /\
  (parent s w <> value -> ~ (exists v, value = Some v /\ descends s w v) ->
   exists s', set_parent fuel w value s = Ok s' /\
     trace s' = trace s ++ reparentEvents s w value /\
     heap s' = <[w := with_parent (get s w) value]> (heap s)).
Proof.
  intros Hdepth Hfuel. split; [|split].
  - intros Hsame. unfold set_parent, set_parent_with.
    destruct (decide (parent s w = value)); [reflexivity|contradiction].
  - intros (v & -> & Hdesc).
    pose proof (no_cycle _ _ _ _ Hdepth Hdesc) as Hne.
    unfold set_parent, set_parent_with.
    destruct (decide (parent s w = Some v)); [contradiction|].
    now rewrite (contains_true s w fuel v d Hdesc Hdepth Hfuel).
  - intros Hne Hfree. destruct fuel as [|fuel]; [lia|].
    apply set_parent_effective; [exact Hne|].
    destruct value as [v|]; [|reflexivity].
    apply (contains_false s w (S fuel) v d); [|exact Hdepth|exact Hfuel].
    intros Hdesc. apply Hfree. eauto.
Qed.

Lemma chain_depth : depth chain 2 2.
Proof.
  apply (depth_child chain 2 1 1); [reflexivity|].
  apply (depth_child chain 1 0 0); [reflexivity|].
  apply depth_root. reflexivity.
Qed.

Lemma parent_assignment_witness :
  (depth chain 2 2 /\ (2 < 3)%nat) /\
  set_parent 3 0 (Some 2%nat) chain = Thrown "Invalid parent widget." chain.
Proof.
  assert (Hd : depth chain 2 2).
  { apply (depth_child chain 2 1 1); [reflexivity|].
    apply (depth_child chain 1 0 0); [reflexivity|].
    apply depth_root. reflexivity. }
  assert (Hf : (2 < 3)%nat) by lia.
  split; [split; [exact Hd|exact Hf]|].
  apply (proj1 (proj2 (parent_assignment 3 chain 0 (Some 2%nat) 2 Hd Hf))).
  exists 2%nat. split; [reflexivity|].
  apply (descends_step chain 0 2 1); [reflexivity|].
  apply (descends_step chain 0 1 0); [reflexivity|].
  apply descends_self.
Defined.

(** ** The traversal of the lifecycle messages *)

Lemma bind_ret (r : res) : bind r Ok = r.
Proof. now destruct r. Qed.

Lemma processMessage_lifecycle fuel w msg s :
  lifecycle msg ->
  processMessage (S fuel) w msg s
  = bind (notify fuel w msg (before msg w s)) (fun s1 => Ok (after msg w s1)).
Proof.
  intros Hl. unfold notify, childrenOf.
  destruct msg; try contradiction; simpl.
  - destruct (_layout (get (setFlag w IsVisible s) w));
      [symmetry; apply bind_ret|reflexivity].
  - destruct (_layout (get s w)); reflexivity.
  - destruct (_layout (get _ w)); [symmetry; apply bind_ret|reflexivity].
  - destruct (_layout (get s w)); reflexivity.
Qed.

Lemma lifecycle_or_passive msg :
  msg <> CloseRequest -> lifecycle msg \/ passive msg.
Proof. destruct msg; simpl; auto; intros H; congruence. Qed.

(** *** The wframe of a traversal *)

Lemma stable_refl W : stable W W.
Proof. unfold stable; auto. Qed.

Lemma stable_trans A B C : stable A B -> stable B C -> stable A C.
Proof.
  unfold stable. intros (?&?&?&?&HA) (?&?&?&?&HB).
  repeat split; try congruence. intros f Hv Ha. rewrite HB, HA; auto.
Qed.

Lemma wframe_refl s : wframe s s.
Proof. intros x. apply stable_refl. Qed.

Lemma wframe_trans a b c : wframe a b -> wframe b c -> wframe a c.
Proof. intros H1 H2 x. eapply stable_trans; [apply H1|apply H2]. Qed.

Lemma wframe_record e s : wframe s (record e s).
Proof. intros x. apply stable_refl. Qed.

Lemma wframe_setFlag w f s :
  f = IsVisible \/ f = IsAttached -> wframe s (setFlag w f s).
Proof.
  intros Hf x. unfold setFlag. rewrite get_put.
  destruct (decide (x = w)) as [->|]; [|apply stable_refl].
  unfold stable; simpl. repeat split; auto.
  intros g H1 H2. rewrite testBits_setBits.
  destruct (decide (g = f)); [|reflexivity]. destruct Hf; congruence.
Qed.

Lemma wframe_clearFlag w f s :
  f = IsVisible \/ f = IsAttached -> wframe s (clearFlag w f s).
Proof.
  intros Hf x. unfold clearFlag. rewrite get_put.
  destruct (decide (x = w)) as [->|]; [|apply stable_refl].
  unfold stable; simpl. repeat split; auto.
  intros g H1 H2. rewrite testBits_clearBits.
  destruct (decide (g = f)); [|reflexivity]. destruct Hf; congruence.
Qed.

Lemma wframe_before msg w s : wframe s (before msg w s).
Proof.
  destruct msg; simpl; try apply wframe_refl.
  - apply wframe_setFlag; auto.
  - eapply wframe_trans; [|apply wframe_setFlag; auto].
    destruct (negb (isHidden s w) && parentVisible s w);
      [apply wframe_setFlag; auto|apply wframe_refl].
Qed.

Lemma wframe_after msg w s : wframe s (after msg w s).
Proof.
  destruct msg; simpl; try apply wframe_refl.
  - apply wframe_clearFlag; auto.
  - eapply wframe_trans; apply wframe_clearFlag; auto.
Qed.

Lemma wframe_childrenOf s s' x : wframe s s' -> childrenOf s' x = childrenOf s x.
Proof. intros H. unfold childrenOf. destruct (H x) as (_&->&_). reflexivity. Qed.

Lemma wframe_parent s s' x : wframe s s' -> parent s' x = parent s x.
Proof. intros H. unfold parent. now destruct (H x) as (_&_&->&_). Qed.

Lemma wframe_isHidden s s' x : wframe s s' -> isHidden s' x = isHidden s x.
Proof.
  intros H. unfold isHidden, testFlag.
  destruct (H x) as (_&_&_&_&Hf). apply Hf; discriminate.
Qed.

Lemma wframe_isDisposed s s' x : wframe s s' -> isDisposed s' x = isDisposed s x.
Proof.
  intros H. unfold isDisposed, testFlag.
  destruct (H x) as (_&_&_&_&Hf). apply Hf; discriminate.
Qed.

Lemma wframe_node s s' x : wframe s s' -> _node (get s' x) = _node (get s x).
Proof. intros H. now destruct (H x) as (->&_). Qed.

(** Whatever relation between states is reflexive and transitive and
    holds across each step of a traversal holds across the traversal; and
    a message other than a close request never throws. *)
Section Traversal.

Variable R : State -> State -> Prop.
Variable msg : Msg.
Hypothesis Hmsg : msg <> CloseRequest.
Hypothesis R_refl : forall s, R s s.
Hypothesis R_trans : forall a b c, R a b -> R b c -> R a c.
Hypothesis R_record : forall e s, R s (record e s).
Hypothesis R_before : forall w s, R s (before msg w s).
Hypothesis R_after : forall w s, R s (after msg w s).

Lemma processMessage_rel fuel :
  forall w s,
  match processMessage fuel w msg s with
  | Ok s' => R s s'
  | Thrown _ _ => False
  | OutOfFuel => True
  end.
Proof.
  induction fuel as [|fuel IH]; intros w s; [exact I|].
  destruct (lifecycle_or_passive msg Hmsg) as [Hl|Hp].
  - rewrite processMessage_lifecycle by exact Hl.
    assert (Hn : match notify fuel w msg (before msg w s) with
                 | Ok s' => R s s'
                 | Thrown _ _ => False
                 | OutOfFuel => True
                 end).
    { unfold notify.
      generalize (childrenOf (before msg w s) w). intros l.
      assert (Hstart : R s (before msg w s)) by apply R_before.
      revert Hstart. generalize (before msg w s).
      induction l as [|c l IHl]; intros s0 H0.
      - exact H0.
      - rewrite forEach_cons.
        destruct (skipsHidden msg && isHidden s0 c).
        + simpl. apply IHl, H0.
        + pose proof (IH c (record (Sent c msg) s0)) as Hc.
          destruct (processMessage fuel c msg (record (Sent c msg) s0))
            as [s1| |]; simpl; [|contradiction|exact I].
          apply IHl. eapply R_trans; [exact H0|].
          eapply R_trans; [apply R_record|exact Hc]. }
    destruct (notify fuel w msg (before msg w s)) as [s1| |]; simpl;
      [|contradiction|exact I].
    eapply R_trans; [exact Hn|apply R_after].
  - rewrite processMessage_passive by exact Hp. apply R_refl.
Qed.

Lemma processMessage_rel_ok fuel w s s' :
  processMessage fuel w msg s = Ok s' -> R s s'.
Proof.
  intros Hr. pose proof (processMessage_rel fuel w s) as H.
  now rewrite Hr in H.
Qed.

End Traversal.

Lemma processMessage_frame_ok fuel w msg s s' :
  msg <> CloseRequest -> processMessage fuel w msg s = Ok s' -> wframe s s'.
Proof.
  intros Hm. apply processMessage_rel_ok; auto using wframe_refl, wframe_record.
  - apply wframe_trans.
  - intros; apply wframe_before.
  - intros; apply wframe_after.
Qed.

Lemma processMessage_no_throw fuel w msg s e s' :
  msg <> CloseRequest -> processMessage fuel w msg s <> Thrown e s'.
Proof.
  intros Hm Hr.
  pose proof (processMessage_rel (fun _ _ => True) msg Hm
                (fun _ => I) (fun _ _ _ _ _ => I) (fun _ _ => I)
                (fun _ _ => I) (fun _ _ => I) fuel w s) as H.
  now rewrite Hr in H.
Qed.

Lemma fading_refl s : fading s s.
Proof. intros x f H. exact H. Qed.

Lemma fading_trans a b c : fading a b -> fading b c -> fading a c.
Proof. intros H1 H2 x f H. apply H1, H2, H. Qed.

Lemma fading_clearFlag w f s : fading s (clearFlag w f s).
Proof.
  intros x g. rewrite testFlag_clearFlag.
  destruct (decide (x = w /\ g = f)); [discriminate|auto].
Qed.

Lemma growing_refl s : growing s s.
Proof. intros x f H. exact H. Qed.

Lemma growing_trans a b c : growing a b -> growing b c -> growing a c.
Proof. intros H1 H2 x f H. apply H2, H1, H. Qed.

Lemma growing_setFlag w f s : growing s (setFlag w f s).
Proof.
  intros x g H. rewrite testFlag_setFlag.
  destruct (decide (x = w /\ g = f)); [reflexivity|exact H].
Qed.

(** A before-hide or before-detach traversal sets no flag. *)
Lemma processMessage_fading fuel w msg s s' :
  msg = BeforeHide \/ msg = BeforeDetach ->
  processMessage fuel w msg s = Ok s' -> fading s s'.
Proof.
  intros Hm. apply processMessage_rel_ok.
  - destruct Hm; subst; discriminate.
  - apply fading_refl.
  - apply fading_trans.
  - intros e s0 x f H. exact H.
  - intros w0 s0. destruct Hm; subst; apply fading_refl.
  - intros w0 s0. destruct Hm; subst; simpl.
    + apply fading_clearFlag.
    + eapply fading_trans; apply fading_clearFlag.
Qed.

(** An after-show or after-attach traversal clears no flag. *)
Lemma processMessage_growing fuel w msg s s' :
  msg = AfterShow \/ msg = AfterAttach ->
  processMessage fuel w msg s = Ok s' -> growing s s'.
Proof.
  intros Hm. apply processMessage_rel_ok.
  - destruct Hm; subst; discriminate.
  - apply growing_refl.
  - apply growing_trans.
  - intros e s0 x f H. exact H.
  - intros w0 s0. destruct Hm; subst; simpl.
    + apply growing_setFlag.
    + eapply growing_trans; [|apply growing_setFlag].
      destruct (negb (isHidden s0 w0) && parentVisible s0 w0);
        [apply growing_setFlag|apply growing_refl].
  - intros w0 s0. destruct Hm; subst; apply growing_refl.
Qed.

(** With enough fuel for the height of the tree below the widget, the
    traversal returns. *)
Lemma processMessage_total (rank : wid -> nat) fuel :
  forall w msg s,
  msg <> CloseRequest -> ranked rank s -> (rank w < fuel)%nat ->
  exists s', processMessage fuel w msg s = Ok s'.
Proof.
  induction fuel as [|fuel IH]; intros w msg s Hmsg Hrank Hfuel; [lia|].
  destruct (lifecycle_or_passive msg Hmsg) as [Hl|Hp].
  - rewrite processMessage_lifecycle by exact Hl.
    assert (Hn : exists s1, notify fuel w msg (before msg w s) = Ok s1).
    { unfold notify.
      assert (Hch : forall c, In c (childrenOf (before msg w s) w) ->
                              (rank c < fuel)%nat).
      { intros c Hc. rewrite (wframe_childrenOf s) in Hc
          by apply wframe_before.
        specialize (Hrank w c Hc). lia. }
      revert Hch. generalize (childrenOf (before msg w s) w). intros l Hl'.
      destruct (forEach_returns (fun s1 => wframe s s1)
                  (fun c s =>
                     if skipsHidden msg && isHidden s c then Ok s
                     else processMessage fuel c msg (record (Sent c msg) s))
                  l (before msg w s)) as (s1 & Hs1 & _).
      - apply wframe_before.
      - intros c s1 Hf Hc.
        destruct (skipsHidden msg && isHidden s1 c); [eauto|].
        destruct (IH c msg (record (Sent c msg) s1)) as (s2 & Hs2);
          [exact Hmsg| |apply Hl', Hc|].
        + intros p c' Hc'.
          rewrite (wframe_childrenOf s) in Hc'
            by (eapply wframe_trans; [exact Hf|apply wframe_record]).
          apply Hrank, Hc'.
        + exists s2. split; [exact Hs2|].
          eapply wframe_trans; [exact Hf|].
          eapply wframe_trans; [apply wframe_record|].
          eapply processMessage_frame_ok; eassumption.
      - eauto. }
    destruct Hn as (s1 & ->). simpl. eauto.
  - rewrite processMessage_passive by exact Hp. eauto.
Qed.

(** ** Disposal *)

Lemma decays_refl W : decays W W.
Proof. unfold decays. repeat split; auto using stable_refl. Qed.

Lemma decays_trans A B C : decays A B -> decays B C -> decays A C.
Proof.
  intros (A1 & A2 & A3 & A4) (B1 & B2 & B3 & B4).
  split; [auto|]. split; [|split].
  - intros HC.
    assert (HB : testBits (_flags B) IsDisposed = false).
    { destruct (testBits (_flags B) IsDisposed) eqn:E; [|reflexivity].
      destruct (B3 eq_refl) as [HC' _]. congruence. }
    eapply stable_trans; eauto.
  - intros HA. destruct (A3 HA) as (HB & P1 & P2 & P3 & P4).
    destruct (B3 HB) as (HC & Q1 & Q2 & Q3 & Q4).
    repeat split; auto.
  - auto.
Qed.

Lemma decay_refl s : decay s s.
Proof. intros x. apply decays_refl. Qed.

Lemma decay_trans a b c : decay a b -> decay b c -> decay a c.
Proof. intros H1 H2 x. eapply decays_trans; [apply H1|apply H2]. Qed.

Lemma decay_record e s : decay s (record e s).
Proof. intros x. apply decays_refl. Qed.

Lemma wframe_fading_decay s s' : wframe s s' -> fading s s' -> decay s s'.
Proof.
  intros Hf Hd x. destruct (Hf x) as (Hn & Hl & Hp & Ha & Hfl).
  split; [|split; [|split]].
  - apply (Hd x IsAttached).
  - intros _. apply Hf.
  - intros HD. rewrite Hfl by discriminate.
    repeat split; auto; congruence.
  - intros l. congruence.
Qed.

Lemma decay_put w W' s : decays (get s w) W' -> decay s (put w W' s).
Proof.
  intros H x. rewrite get_put.
  destruct (decide (x = w)) as [->|]; [exact H|apply decays_refl].
Qed.

(** A disposed widget may release more of what it holds. *)
Lemma decays_release W W' :
  testBits (_flags W) IsDisposed = true ->
  _flags W' = _flags W ->
  (_parent W = None -> _parent W' = None) ->
  (_layout W = None -> _layout W' = None) ->
  (_node W = None -> _node W' = None) ->
  (attachedData W = false -> attachedData W' = false) ->
  (forall l, _layout W' = Some l -> _layout W = Some l) ->
  decays W W'.
Proof.
  intros HD Hfl Hp Hl Hn Ha Hll. split; [|split; [|split]].
  - now rewrite Hfl.
  - rewrite Hfl. congruence.
  - intros _. rewrite Hfl. auto.
  - exact Hll.
Qed.

Lemma decays_dispose_flag W :
  decays W (with_flags W (setBits (_flags W) IsDisposed)).
Proof.
  split; [|split; [|split]]; simpl.
  - rewrite testBits_setBits.
    destruct (decide (IsAttached = IsDisposed)); [discriminate|auto].
  - rewrite testBits_setBits.
    destruct (decide (IsDisposed = IsDisposed)); [discriminate|congruence].
  - intros _. rewrite testBits_setBits.
    destruct (decide (IsDisposed = IsDisposed)); [auto|congruence].
  - auto.
Qed.

Lemma decay_gone s s' x : decay s s' -> gone s x -> gone s' x.
Proof.
  intros Hd (HD & Hp & Hl & Hn & Ha).
  destruct (Hd x) as (_ & _ & H3 & _).
  destruct (H3 HD) as (HD' & P1 & P2 & P3 & P4).
  unfold gone, isDisposed, testFlag, parent in *.
  repeat split; auto.
Qed.

Lemma decay_ranked rank s s' : decay s s' -> ranked rank s -> ranked rank s'.
Proof.
  intros Hd Hr p c Hc. apply Hr. unfold childrenOf in *.
  destruct (Hd p) as (_ & _ & _ & H4).
  destruct (_layout (get s' p)) as [l|] eqn:El; [|contradiction].
  now rewrite (H4 l eq_refl).
Qed.

Lemma decay_hosted s s' : decay s s' -> hosted s -> hosted s'.
Proof.
  intros Hd Hh x HD Hp Ha.
  destruct (Hd x) as (H1 & H2 & _ & _).
  destruct (H2 HD) as (Hn & _ & Hpar & _ & Hfl).
  destruct (Hh x) as (n & Hnode & Hin).
  - unfold isDisposed, testFlag in *. rewrite <- Hfl by discriminate. exact HD.
  - unfold parent in *. congruence.
  - apply H1, Ha.
  - exists n. split; [congruence|exact Hin].
Qed.

Lemma decay_isDisposed s s' x :
  decay s s' -> isDisposed s x = true -> isDisposed s' x = true.
Proof.
  intros Hd HD. destruct (Hd x) as (_ & _ & H3 & _). now destruct (H3 HD).
Qed.

Lemma decay_parent_none s s' x :
  decay s s' -> isDisposed s x = true -> parent s x = None ->
  parent s' x = None.
Proof.
  intros Hd HD Hp. destruct (Hd x) as (_ & _ & H3 & _).
  destruct (H3 HD) as (_ & P1 & _). now apply P1.
Qed.

Lemma decay_not_attached s s' x :
  decay s s' -> isAttached s x = false -> isAttached s' x = false.
Proof.
  intros Hd Ha. destruct (Hd x) as (H1 & _).
  unfold isAttached, testFlag in *.
  destruct (testBits (_flags (get s' x)) IsAttached) eqn:E; [|reflexivity].
  rewrite (H1 eq_refl) in Ha. discriminate.
Qed.

Lemma get_heap_eq s s' x : heap s = heap s' -> get s x = get s' x.
Proof. intros H. unfold get. now rewrite H. Qed.

Lemma decay_heap_eq s s' s'' :
  heap s' = heap s'' -> decay s s'' -> decay s s'.
Proof. intros H Hd x. rewrite (get_heap_eq s' s'' x H). apply Hd. Qed.

Lemma processMessage_detach_clears fuel w s s' :
  processMessage fuel w BeforeDetach s = Ok s' ->
  isAttached s' w = false /\ isVisible s' w = false.
Proof.
  destruct fuel as [|fuel]; [discriminate|].
  rewrite processMessage_lifecycle by exact I.
  destruct (notify fuel w BeforeDetach _) as [s1| |]; simpl; try discriminate.
  intros [= <-]. unfold isAttached, isVisible.
  rewrite !testFlag_clearFlag.
  destruct (decide (w = w /\ IsAttached = IsAttached)) as [|n];
    [|exfalso; apply n; auto].
  destruct (decide (w = w /\ IsVisible = IsAttached)) as [[_ ?]|_];
    [discriminate|].
  destruct (decide (w = w /\ IsVisible = IsVisible)) as [|n'];
    [auto|exfalso; apply n'; auto].
Qed.

(** Detaching a root that is attached and in the document. *)
Lemma detach_returns rank fuel w s n :
  ranked rank s -> (rank w < fuel)%nat ->
  parent s w = None -> isAttached s w = true ->
  _node (get s w) = Some n -> inBody n = true ->
  exists s1, processMessage fuel w BeforeDetach
               (record (Sent w BeforeDetach) s) = Ok s1 /\
    detach fuel w s
    = Ok (put w (with_node (get s1 w) (Some (mkNode false (classHidden n))))
              s1).
Proof.
  intros Hr Hf Hp Ha Hn Hin.
  destruct (processMessage_total rank fuel w BeforeDetach
              (record (Sent w BeforeDetach) s)) as (s1 & Hs1);
    [congruence|exact Hr|exact Hf|].
  exists s1. split; [exact Hs1|].
  unfold detach, detach_with, sendMessage. rewrite Hp, Ha, Hn, Hin. simpl.
  rewrite Hs1. simpl.
  assert (Hfr : wframe (record (Sent w BeforeDetach) s) s1)
    by (apply (processMessage_frame_ok fuel w BeforeDetach);
        [congruence|exact Hs1]).
  rewrite (wframe_node _ _ w Hfr), get_record, Hn. reflexivity.
Qed.

Lemma isDisposed_heap_eq s s' x :
  heap s = heap s' -> isDisposed s x = isDisposed s' x.
Proof. intros H. unfold isDisposed, testFlag. now rewrite (get_heap_eq s s' x H). Qed.

(** The second step of [dispose]: the widget is unparented, or detached
    when it is an attached root. *)
Lemma dispose_unparent rank fuel w s :
  ranked rank s -> (rank w < fuel)%nat ->
  isDisposed s w = true ->
  (parent s w = None -> isAttached s w = true ->
   exists n, _node (get s w) = Some n /\ inBody n = true) ->
  exists s2,
    match parent s w with
    | Some _ => set_parent fuel w None s
    | None => if isAttached s w then detach fuel w s else Ok s
    end = Ok s2 /\
    decay s s2 /\ parent s2 w = None /\
    (parent s w = None -> isAttached s2 w = false) /\
    (forall x, isDisposed s2 x = isDisposed s x) /\
    _layout (get s2 w) = _layout (get s w).
Proof.
  intros Hr Hf HD Hhost.
  destruct (parent s w) as [p|] eqn:Hp.
  - destruct fuel as [|fuel]; [lia|].
    destruct (set_parent_effective fuel s w None) as (s2 & Hs2 & _ & Hheap);
      [congruence|reflexivity|].
    exists s2. split; [exact Hs2|].
    assert (Hget : forall x, get s2 x
                   = get (put w (with_parent (get s w) None) s) x).
    { intros x. apply get_heap_eq. exact Hheap. }
    split; [|split; [|split; [|split]]].
    + intros x. rewrite Hget. apply decay_put.
      apply decays_release; simpl; auto.
    + unfold parent. rewrite Hget, get_put_same. reflexivity.
    + discriminate.
    + intros x. unfold isDisposed, testFlag. rewrite Hget, get_put.
      now destruct (decide (x = w)) as [->|].
    + rewrite Hget, get_put_same. reflexivity.
  - destruct (isAttached s w) eqn:Ha.
    + destruct (Hhost eq_refl eq_refl) as (n & Hn & Hin).
      destruct (detach_returns rank fuel w s n Hr Hf Hp Ha Hn Hin)
        as (s1 & Hs1 & Hdet).
      rewrite Hdet. eexists. split; [reflexivity|].
      assert (Hfr : wframe (record (Sent w BeforeDetach) s) s1)
        by (apply (processMessage_frame_ok fuel w BeforeDetach);
            [congruence|exact Hs1]).
      assert (Hfa : fading (record (Sent w BeforeDetach) s) s1)
        by (apply (processMessage_fading fuel w BeforeDetach); auto).
      destruct (processMessage_detach_clears _ _ _ _ Hs1) as [Hcl _].
      assert (HD1 : isDisposed s1 w = true)
        by (rewrite (wframe_isDisposed _ _ w Hfr); exact HD).
      assert (Hn1 : _node (get s1 w) = Some n)
        by (rewrite (wframe_node _ _ w Hfr); exact Hn).
      split; [|split; [|split; [|split]]].
      * eapply decay_trans; [apply decay_record|].
        eapply decay_trans; [apply wframe_fading_decay; eassumption|].
        apply decay_put. apply decays_release; simpl; auto.
        rewrite Hn1. discriminate.
      * unfold parent. rewrite get_put_same. simpl.
        fold (parent s1 w). rewrite (wframe_parent _ _ w Hfr). exact Hp.
      * intros _. unfold isAttached, testFlag. rewrite get_put_same. simpl.
        exact Hcl.
      * intros x. transitivity (isDisposed s1 x);
          [|apply (wframe_isDisposed _ _ x Hfr)].
        unfold isDisposed, testFlag. rewrite get_put.
        now destruct (decide (x = w)) as [->|].
      * rewrite get_put_same. simpl. now destruct (Hfr w) as (_ & -> & _).
    + exists s. split; [reflexivity|].
      split; [apply decay_refl|]. split; [exact Hp|].
      split; [auto|]. split; reflexivity.
Qed.

Lemma dispose_unfold fuel w s :
  dispose (S fuel) w s =
  if isDisposed s w then Ok s
  else
    let s1 := record (DisposedEmitted w) (setFlag w IsDisposed s) in
    bind (match parent s1 w with
          | Some _ => set_parent fuel w None s1
          | None => if isAttached s1 w then detach fuel w s1 else Ok s1
          end)
      (fun s2 =>
         bind (match _layout (get s2 w) with
               | Some layout =>
                 bind (forEach (dispose fuel) (children layout) s2)
                      (fun s' => Ok (put w (with_layout (get s' w) None) s'))
               | None => Ok s2
               end)
           (fun s3 =>
              let s4 := put w (with_data (get s3 w) false) s3 in
              Ok (put w (with_node (get s4 w) None) s4))).
Proof. reflexivity. Qed.

(** The disposal of the children of [w], given what one call achieves. *)
Lemma dispose_children rank fuel w (Pend : wid -> Prop) :
  (forall c s P, ranked rank s -> hosted s ->
     (forall x, isDisposed s x = true -> gone s x \/ P x) ->
     (forall x, P x -> (rank c < rank x)%nat) ->
     (rank c + 2 <= fuel)%nat -> disposes fuel c s P) ->
  (forall x, Pend x -> (rank w <= rank x)%nat) ->
  (rank w + 1 <= fuel)%nat ->
  forall l s,
  (forall c, In c l -> (rank c < rank w)%nat) ->
  ranked rank s -> hosted s ->
  (forall x, isDisposed s x = true -> gone s x \/ Pend x) ->
  exists s', forEach (dispose fuel) l s = Ok s' /\ decay s s' /\
    (forall c, In c l -> gone s' c) /\
    (forall x, isDisposed s' x = true -> gone s' x \/ Pend x).
Proof.
  intros IH HPend Hfuel.
  induction l as [|c l IHl]; intros s Hl Hr Hh HD.
  - exists s. split; [reflexivity|]. split; [apply decay_refl|].
    split; [intros c []|exact HD].
  - rewrite forEach_cons.
    destruct (IH c s Pend Hr Hh HD) as (s1 & Hs1 & Hd1 & Hg1 & HD1 & _).
    { intros x Hx. specialize (HPend x Hx).
      specialize (Hl c (or_introl eq_refl)). lia. }
    { specialize (Hl c (or_introl eq_refl)). lia. }
    rewrite Hs1. simpl.
    destruct (IHl s1) as (s2 & Hs2 & Hd2 & Hg2 & HD2).
    { intros c' Hc'. apply Hl. now right. }
    { eapply decay_ranked; eassumption. }
    { eapply decay_hosted; eassumption. }
    { exact HD1. }
    exists s2. split; [exact Hs2|].
    split; [eapply decay_trans; eassumption|].
    split; [|exact HD2].
    intros c' [<-|Hc']; [eapply decay_gone; eassumption|auto].
Qed.

(** One call of [dispose], by induction on the height of the tree below
    the widget. *)
Lemma dispose_spec (rank : wid -> nat) (fuel : nat) :
  forall (w : wid) (s : State) (Pend : wid -> Prop),
  ranked rank s -> hosted s ->
  (forall x, isDisposed s x = true -> gone s x \/ Pend x) ->
  (forall x, Pend x -> (rank w < rank x)%nat) ->
  (rank w + 2 <= fuel)%nat ->
  disposes fuel w s Pend.
Proof.
  induction fuel as [|fuel IH]; intros w s Pend Hr Hh HD HPend Hfuel; [lia|].
  unfold disposes. rewrite dispose_unfold.
  destruct (isDisposed s w) eqn:HDw.
  { exists s. split; [reflexivity|]. split; [apply decay_refl|].
    split; [|split; [exact HD|discriminate]].
    destruct (HD w HDw) as [Hg|HP]; [exact Hg|].
    specialize (HPend w HP). lia. }
  cbv zeta.
  set (s1 := record (DisposedEmitted w) (setFlag w IsDisposed s)).
  assert (Hd1 : decay s s1).
  { eapply decay_trans; [|apply decay_record].
    apply decay_put, decays_dispose_flag. }
  assert (HD1w : isDisposed s1 w = true).
  { unfold s1, isDisposed. rewrite testFlag_record, testFlag_setFlag.
    destruct (decide (w = w /\ IsDisposed = IsDisposed)) as [|n];
      [reflexivity|exfalso; apply n; auto]. }
  assert (Hget1 : forall x, stable (get s x) (get s1 x) \/ x = w).
  { intros x. destruct (decide (x = w)) as [->|Hne]; [now right|left].
    unfold s1, setFlag. rewrite get_record, get_put_other by exact Hne.
    apply stable_refl. }
  assert (Hp1 : parent s1 w = parent s w).
  { unfold s1. now rewrite <- (parent_setFlag w IsDisposed s w). }
  assert (Ha1 : isAttached s1 w = isAttached s w).
  { unfold s1, isAttached. rewrite testFlag_record, testFlag_setFlag.
    destruct (decide (w = w /\ IsAttached = IsDisposed)) as [[_ ?]|];
      [discriminate|reflexivity]. }
  assert (Hn1 : _node (get s1 w) = _node (get s w)).
  { unfold s1, setFlag. rewrite get_record, get_put_same. reflexivity. }
  assert (Hl1 : _layout (get s1 w) = _layout (get s w)).
  { unfold s1, setFlag. rewrite get_record, get_put_same. reflexivity. }
  destruct (dispose_unparent rank fuel w s1)
    as (s2 & Hs2 & Hd2 & Hp2 & Ha2 & HD2 & Hl2).
  { eapply decay_ranked; eassumption. }
  { lia. }
  { exact HD1w. }
  { rewrite Hp1, Ha1, Hn1. intros Hp Ha. apply Hh; assumption. }
  rewrite Hs2. simpl bind.
  assert (HDs2 : forall x, isDisposed s2 x = true ->
                           gone s2 x \/ (Pend x \/ x = w)).
  { intros x Hx. destruct (decide (x = w)) as [->|Hne]; [auto|].
    rewrite HD2 in Hx.
    assert (Hxs : isDisposed s x = true).
    { destruct (Hget1 x) as [(_&_&_&_&Hfl)|]; [|contradiction].
      unfold isDisposed, testFlag in *. rewrite <- Hfl; [exact Hx| |];
        discriminate. }
    destruct (HD x Hxs) as [Hg|HP]; [left|auto].
    eapply decay_gone; [|exact Hg]. eapply decay_trans; eassumption. }
  assert (Hr2 : ranked rank s2)
    by (eapply decay_ranked; [|exact Hr]; eapply decay_trans; eassumption).
  assert (Hh2 : hosted s2)
    by (eapply decay_hosted; [|exact Hh]; eapply decay_trans; eassumption).
  assert (HD2w : isDisposed s2 w = true) by (rewrite HD2; exact HD1w).
  (* the layout and its children *)
  assert (Hlay : exists s3,
    match _layout (get s2 w) with
    | Some layout =>
      bind (forEach (dispose fuel) (children layout) s2)
           (fun s' => Ok (put w (with_layout (get s' w) None) s'))
    | None => Ok s2
    end = Ok s3 /\ decay s2 s3 /\ _layout (get s3 w) = None /\
    (forall c, In c (childrenOf s w) -> gone s3 c \/ c = w) /\
    (forall x, isDisposed s3 x = true -> gone s3 x \/ (Pend x \/ x = w))).
  { unfold childrenOf. rewrite <- Hl1, <- Hl2.
    destruct (_layout (get s2 w)) as [layout|] eqn:Hlw.
    - destruct (dispose_children rank fuel w (fun x => Pend x \/ x = w) IH)
        with (l := children layout) (s := s2)
        as (s3 & Hs3 & Hd3 & Hg3 & HD3); auto.
      + intros x [HP| ->]; [specialize (HPend x HP)|]; lia.
      + lia.
      + intros c Hc. apply (Hr2 w c). unfold childrenOf. now rewrite Hlw.
      + rewrite Hs3. simpl bind. eexists. split; [reflexivity|].
        assert (HD3w : isDisposed s3 w = true)
          by (eapply decay_isDisposed; eassumption).
        split; [|split; [|split]].
        * eapply decay_trans; [exact Hd3|].
          apply decay_put.
          apply decays_release; simpl; auto; try discriminate.
        * rewrite get_put_same. reflexivity.
        * intros c Hc. destruct (decide (c = w)) as [|Hne]; [auto|left].
          destruct (Hg3 c Hc) as (G1 & G2 & G3 & G4 & G5).
          unfold gone, isDisposed, testFlag, parent in *.
          rewrite get_put_other by exact Hne. auto.
        * intros x Hx. destruct (decide (x = w)) as [|Hne]; [auto|].
          unfold isDisposed, testFlag in Hx.
          rewrite get_put_other in Hx by exact Hne.
          destruct (HD3 x Hx) as [(G1 & G2 & G3 & G4 & G5)|HP]; [left|auto].
          unfold gone, isDisposed, testFlag, parent in *.
          rewrite get_put_other by exact Hne. auto.
    - exists s2. split; [reflexivity|]. split; [apply decay_refl|].
      split; [exact Hlw|]. split; [intros c []|exact HDs2]. }
  destruct Hlay as (s3 & Hs3 & Hd3 & Hl3 & Hg3 & HD3).
  rewrite Hs3. simpl bind. cbv zeta.
  set (s4 := put w (with_data (get s3 w) false) s3).
  set (s5 := put w (with_node (get s4 w) None) s4).
  assert (HD3w : isDisposed s3 w = true)
    by (eapply decay_isDisposed; eassumption).
  assert (Hp3 : parent s3 w = None)
    by (eapply decay_parent_none; eassumption).
  assert (Hget5 : get s5 w
                  = with_node (with_data (get s3 w) false) None).
  { unfold s5, s4. rewrite !get_put_same. reflexivity. }
  assert (Hget5' : forall x, x <> w -> get s5 x = get s3 x).
  { intros x Hne. unfold s5, s4. now rewrite !get_put_other. }
  assert (Hd5 : decay s3 s5).
  { unfold s5. eapply decay_trans; apply decay_put.
    - apply decays_release; simpl; auto; try discriminate.
    - apply decays_release; simpl; auto; try discriminate.
      unfold s4. rewrite get_put_same. simpl. exact HD3w. }
  assert (Hgone : gone s5 w).
  { unfold gone, isDisposed, testFlag, parent. rewrite Hget5. simpl.
    repeat split; auto. }
  exists s5. split; [reflexivity|]. split; [|split; [exact Hgone|split]].
  - eapply decay_trans; [exact Hd1|]. eapply decay_trans; [exact Hd2|].
    eapply decay_trans; eassumption.
  - intros x Hx. destruct (decide (x = w)) as [->|Hne]; [auto|].
    unfold isDisposed, testFlag in Hx. rewrite Hget5' in Hx by exact Hne.
    destruct (HD3 x Hx) as [(G1 & G2 & G3 & G4 & G5)|[HP|]];
      [left|auto|contradiction].
    unfold gone, isDisposed, testFlag, parent in *.
    rewrite Hget5' by exact Hne. auto.
  - intros _. split.
    + intros c Hc. destruct (Hg3 c Hc) as [Hg| ->]; [|exact Hgone].
      eapply decay_gone; eassumption.
    + intros Hp. rewrite <- Hp1 in Hp. specialize (Ha2 Hp).
      eapply decay_not_attached; [|exact Ha2].
      eapply decay_trans; eassumption.
Qed.

(** The widgets of [family]. *)
Lemma family_get x :
  get family x =
  match x with
  | 0%nat => mkWidget 10 (Some (mkNode true false))
                      (Some (mkLayoutOf [1%nat; 2%nat])) None true
  | 1%nat => mkWidget 10 (Some (mkNode false false)) None (Some 0%nat) true
  | 2%nat => mkWidget 10 (Some (mkNode false false)) None (Some 0%nat) false
  | _ => fresh
  end.
Proof.
  destruct x as [|[|[|x]]]; try reflexivity.
  unfold get, family. cbn [heap].
  rewrite !lookup_insert_ne by lia. rewrite lookup_empty. reflexivity.
Qed.

Lemma family_ranked : ranked familyRank family.
Proof.
  intros p c. unfold childrenOf. rewrite family_get.
  destruct p as [|[|[|p]]]; simpl; try tauto.
  intros [<-|[<-|[]]]; simpl; lia.
Qed.

Lemma family_hosted : hosted family.
Proof.
  intros x _. unfold parent, isAttached, testFlag. rewrite family_get.
  destruct x as [|[|[|x]]]; simpl; try discriminate.
  intros _ _. eexists. split; reflexivity.
Qed.

Lemma family_clean x : isDisposed family x = true -> gone family x.
Proof.
  unfold isDisposed, testFlag. rewrite family_get.
  destruct x as [|[|[|x]]]; simpl; discriminate.
Qed.

(** C7. Disposal is idempotent and cascading.  From a state whose layout
    trees are well-founded, whose attached roots sit in the document and
    whose disposed widgets were disposed completely, the first [dispose] of
    a widget [w] returns, sets the disposed flag of [w], leaves [w] without
    parent (a root is detached as well), disposes the layout of [w], whose
    children end up disposed and without parent reference, releases the
    attached data and the node; every later [dispose] of [w] returns the
    state unchanged and throws nothing. *)
Theorem dispose_idempotent_cascading rank fuel w s :
  ranked rank s -> hosted s ->
  (forall x, isDisposed s x = true -> gone s x) ->
  isDisposed s w = false ->
  (rank w + 2 <= fuel)%nat ->
  exists s',
    dispose fuel w s = Ok s' /\
    isDisposed s' w = true /\
    parent s' w = None /\
    (parent s w = None -> isAttached s' w = false) /\
    _layout (get s' w) = None /\
    (forall c, In c (childrenOf s w) ->
               parent s' c = None /\ isDisposed s' c = true) /\
    attachedData (get s' w) = false /\
    _node (get s' w) = None /\
    (forall fuel', dispose (S fuel') w s' = Ok s').
Proof.
  intros Hr Hh HD Hw Hfuel.
  destruct (dispose_spec rank fuel w s (fun _ => False))
    as (s' & Hs' & _ & (G1 & G2 & G3 & G4 & G5) & _ & Hnew); auto.
  { tauto. }
  destruct (Hnew Hw) as [Hch Hat].
  exists s'. repeat split; auto.
  - now destruct (Hch c) as (? & ? & _).
  - now destruct (Hch c) as (? & ? & _).
  - intros fuel'. rewrite dispose_unfold, G1. reflexivity.
Qed.

Lemma dispose_idempotent_cascading_witness :
  exists s',
    dispose 3 0 family = Ok s' /\
    isDisposed s' 0 = true /\
    parent s' 0 = None /\
    (parent family 0 = None -> isAttached s' 0 = false) /\
    _layout (get s' 0) = None /\
    (forall c, In c (childrenOf family 0) ->
               parent s' c = None /\ isDisposed s' c = true) /\
    attachedData (get s' 0) = false /\
    _node (get s' 0) = None /\
    (forall fuel', dispose (S fuel') 0 s' = Ok s').
Proof.
  apply (dispose_idempotent_cascading familyRank 3 0 family).
  - exact family_ranked.
  - exact family_hosted.
  - exact family_clean.
  - reflexivity.
  - simpl. lia.
Defined.

(** ** Visibility *)

(** *** Transport of the invariants *)

Lemma kin_refl s : kin s s.
Proof. intros x. auto. Qed.

Lemma kin_trans a b c : kin a b -> kin b c -> kin a c.
Proof.
  intros H1 H2 x. destruct (H1 x) as (L1 & P1 & N1).
  destruct (H2 x) as (L2 & P2 & N2).
  repeat split; [congruence|congruence|auto].
Qed.

Lemma wframe_kin s s' : wframe s s' -> kin s s'.
Proof.
  intros H x. destruct (H x) as (Hn & Hl & Hp & _).
  repeat split; [exact Hl|exact Hp|now rewrite Hn].
Qed.

Lemma kin_put w W s :
  _layout W = _layout (get s w) -> _parent W = _parent (get s w) ->
  (_node (get s w) <> None -> _node W <> None) ->
  kin s (put w W s).
Proof.
  intros Hl Hp Hn x. rewrite get_put.
  destruct (decide (x = w)) as [->|]; auto.
Qed.

Lemma kin_record e s : kin s (record e s).
Proof. intros x. rewrite get_record. auto. Qed.

Lemma kin_parent s s' x : kin s s' -> parent s' x = parent s x.
Proof. intros H. apply (H x). Qed.

Lemma kin_childrenOf s s' x : kin s s' -> childrenOf s' x = childrenOf s x.
Proof. intros H. unfold childrenOf. now rewrite (proj1 (H x)). Qed.

Lemma forest_kin rank s s' : kin s s' -> forest rank s -> forest rank s'.
Proof.
  intros Hk (Hr & Hl & Hn). split; [|split].
  - intros p c. rewrite (kin_childrenOf s) by exact Hk. apply Hr.
  - intros p c. rewrite (kin_childrenOf s), (kin_parent s) by exact Hk.
    apply Hl.
  - intros x. apply (Hk x), Hn.
Qed.

Lemma linked_wframe s s' : wframe s s' -> linked s -> linked s'.
Proof.
  intros Hf Hl p c.
  rewrite (wframe_childrenOf s), (wframe_parent s) by exact Hf. apply Hl.
Qed.

Lemma steady_refl s : steady s s.
Proof. split; [apply kin_refl|reflexivity]. Qed.

Lemma steady_trans a b c : steady a b -> steady b c -> steady a c.
Proof.
  intros [K1 F1] [K2 F2]. split; [eapply kin_trans; eassumption|].
  intros x. now rewrite F2.
Qed.

Lemma steady_record e s : steady s (record e s).
Proof. split; [apply kin_record|reflexivity]. Qed.

Lemma steady_node w n s :
  steady s (put w (with_node (get s w) (Some n)) s).
Proof.
  split.
  - apply kin_put; simpl; auto; discriminate.
  - intros x. rewrite get_put. now destruct (decide (x = w)) as [->|].
Qed.

Lemma steady_testFlag s s' x f : steady s s' -> testFlag s' x f = testFlag s x f.
Proof. intros [_ H]. unfold testFlag. now rewrite H. Qed.

Lemma steady_parent s s' x : steady s s' -> parent s' x = parent s x.
Proof. intros [H _]. now apply kin_parent. Qed.

Lemma steady_parentVisible s s' x :
  steady s s' -> parentVisible s' x = parentVisible s x.
Proof.
  intros H. unfold parentVisible, isVisible.
  rewrite (steady_parent s) by exact H.
  destruct (parent s x); [now apply steady_testFlag|reflexivity].
Qed.

Lemma steady_visibleOk s s' x : steady s s' -> visibleOk s x -> visibleOk s' x.
Proof.
  intros H. unfold visibleOk, isVisible, isAttached, isHidden.
  rewrite !(steady_testFlag s s'), (steady_parentVisible s s') by exact H.
  auto.
Qed.

Lemma steady_attachedOk s s' x :
  steady s s' -> attachedOk s x -> attachedOk s' x.
Proof.
  intros H Ha p. unfold isAttached.
  rewrite !(steady_testFlag s s'), (steady_parent s s') by exact H.
  apply Ha.
Qed.

Lemma steady_sound s s' : steady s s' -> sound s -> sound s'.
Proof.
  intros H [Ha Hv]. split; intros x;
    [eapply steady_attachedOk|eapply steady_visibleOk]; eauto.
Qed.

(** *** What [before] and [after] leave alone *)

Lemma get_before_other msg w s x : x <> w -> get (before msg w s) x = get s x.
Proof.
  intros Hne. destruct msg; simpl; try reflexivity.
  - unfold setFlag. now rewrite get_put_other.
  - unfold setFlag at 1. rewrite get_put_other by exact Hne.
    destruct (negb (isHidden s w) && parentVisible s w); [|reflexivity].
    unfold setFlag. now rewrite get_put_other.
Qed.

Lemma get_after_other msg w s x : x <> w -> get (after msg w s) x = get s x.
Proof.
  intros Hne. destruct msg; simpl; try reflexivity.
  - unfold clearFlag. now rewrite get_put_other.
  - unfold clearFlag. now rewrite !get_put_other.
Qed.

Lemma testFlag_before_other msg w s x f :
  x <> w -> testFlag (before msg w s) x f = testFlag s x f.
Proof. intros H. unfold testFlag. now rewrite get_before_other. Qed.

Lemma testFlag_after_other msg w s x f :
  x <> w -> testFlag (after msg w s) x f = testFlag s x f.
Proof. intros H. unfold testFlag. now rewrite get_after_other. Qed.

Lemma parentVisible_growing s s' x :
  parent s' x = parent s x -> growing s s' ->
  parentVisible s x = true -> parentVisible s' x = true.
Proof.
  intros Hp Hg. unfold parentVisible. rewrite Hp.
  destruct (parent s x); [apply Hg|auto].
Qed.

(** A traversal that shows or hides leaves the attached flags alone. *)
Lemma processMessage_keeps_attached fuel w msg s s' :
  msg = AfterShow \/ msg = BeforeHide ->
  processMessage fuel w msg s = Ok s' ->
  forall x, isAttached s' x = isAttached s x.
Proof.
  intros Hm.
  apply (processMessage_rel_ok
           (fun a b => forall x, isAttached b x = isAttached a x) msg).
  - destruct Hm; subst; discriminate.
  - reflexivity.
  - intros a b c H1 H2 x. now rewrite H2.
  - reflexivity.
  - intros w0 s0 x. unfold isAttached.
    destruct Hm; subst; simpl; [|reflexivity].
    rewrite testFlag_setFlag.
    destruct (decide (x = w0 /\ IsAttached = IsVisible)) as [[_ ?]|];
      [discriminate|reflexivity].
  - intros w0 s0 x. unfold isAttached.
    destruct Hm; subst; simpl; [reflexivity|].
    rewrite testFlag_clearFlag.
    destruct (decide (x = w0 /\ IsAttached = IsVisible)) as [[_ ?]|];
      [discriminate|reflexivity].
Qed.

(** *** Attaching and detaching a subtree *)

(** The flag a before-detach or after-attach traversal has given stays. *)
Lemma processMessage_sticky fuel w msg b s s' :
  attaching msg b -> processMessage fuel w msg s = Ok s' ->
  forall x, isAttached s x = b -> isAttached s' x = b.
Proof.
  intros [[-> ->]|[-> ->]] Hrun x Hx.
  - destruct (isAttached s' x) eqn:E; [|reflexivity].
    rewrite <- Hx. symmetry.
    eapply (processMessage_fading fuel w BeforeDetach); eauto.
  - eapply (processMessage_growing fuel w AfterAttach); eauto.
Qed.

Lemma attaching_lifecycle msg b : attaching msg b -> lifecycle msg.
Proof. intros [[-> _]|[-> _]]; exact I. Qed.

Lemma attaching_not_close msg b : attaching msg b -> msg <> CloseRequest.
Proof. intros [[-> _]|[-> _]]; discriminate. Qed.

Lemma attaching_skips msg b : attaching msg b -> skipsHidden msg = false.
Proof. intros [[-> _]|[-> _]]; reflexivity. Qed.

Lemma attaching_before msg b w s :
  attaching msg b ->
  forall x, isAttached s x = b -> isAttached (before msg w s) x = b.
Proof.
  intros [[-> ->]|[-> ->]] x Hx; simpl; [exact Hx|].
  apply growing_setFlag.
  destruct (negb (isHidden s w) && parentVisible s w);
    [apply growing_setFlag|]; exact Hx.
Qed.

Lemma attaching_after msg b w s :
  attaching msg b ->
  forall x, isAttached s x = b -> isAttached (after msg w s) x = b.
Proof.
  intros [[-> ->]|[-> ->]] x Hx; simpl; [|exact Hx].
  unfold isAttached in *. rewrite !testFlag_clearFlag.
  destruct (decide (x = w /\ IsAttached = IsAttached)); [reflexivity|].
  destruct (decide (x = w /\ IsAttached = IsVisible)); [reflexivity|exact Hx].
Qed.

(** Once the traversal is through, the widget has the flag. *)
Lemma attaching_done msg b w s t :
  attaching msg b ->
  (isAttached (before msg w s) w = b -> isAttached t w = b) ->
  isAttached (after msg w t) w = b.
Proof.
  intros [[-> ->]|[-> ->]] Hkeep; simpl.
  - unfold isAttached. rewrite testFlag_clearFlag.
    destruct (decide (w = w /\ IsAttached = IsAttached)) as [|n];
      [reflexivity|exfalso; apply n; auto].
  - apply Hkeep. simpl. unfold isAttached. rewrite testFlag_setFlag.
    destruct (decide (w = w /\ IsAttached = IsAttached)) as [|n];
      [reflexivity|exfalso; apply n; auto].
Qed.

(** A before-detach (after-attach) traversal from [w] clears (sets) the
    attached flag of [w] and keeps every other widget in step with its
    parent. *)
Lemma processMessage_attachment fuel :
  forall w msg b s s',
  attaching msg b -> linked s ->
  processMessage fuel w msg s = Ok s' ->
  isAttached s' w = b /\
  (forall x, x <> w -> attachedOk s x -> attachedOk s' x).
Proof.
  induction fuel as [|fuel IH]; intros w msg b s s' Hm Hlink Hrun;
    [discriminate|].
  pose proof (attaching_not_close msg b Hm) as Hnc.
  pose proof (processMessage_frame_ok _ _ _ _ _ Hnc Hrun) as Hfr.
  rewrite processMessage_lifecycle in Hrun
    by (eapply attaching_lifecycle; eauto).
  destruct (notify fuel w msg (before msg w s)) as [t| |] eqn:Hn;
    simpl in Hrun; try discriminate.
  injection Hrun as <-.
  set (s0 := before msg w s) in *.
  assert (Hf0 : wframe s s0) by apply wframe_before.
  unfold notify in Hn. rewrite (wframe_childrenOf s) in Hn by exact Hf0.
  rewrite (attaching_skips msg b Hm) in Hn. cbn [andb] in Hn.
  pose (Inv := fun (done : list wid) (t : State) =>
    wframe s t /\
    (forall x, isAttached s0 x = b -> isAttached t x = b) /\
    (forall c, In c done -> isAttached t c = b) /\
    (forall x, parent s x <> Some w -> attachedOk s0 x -> attachedOk t x)).
  assert (HI : Inv ([] ++ childrenOf s w) t).
  { refine (forEach_invariant Inv _ _ [] s0 t _ _ Hn).
    - unfold Inv. split; [exact Hf0|]. split; [auto|].
      split; [intros c []|auto].
    - intros pre c s1 s2 (I1 & I2 & I3 & I4) Hc Hstep.
      assert (Hl1 : linked (record (Sent c msg) s1)).
      { eapply linked_wframe; [|exact Hlink].
        eapply wframe_trans; [exact I1|apply wframe_record]. }
      destruct (IH c msg b _ s2 Hm Hl1 Hstep) as [Hcb Hothers].
      pose proof (processMessage_frame_ok _ _ _ _ _ Hnc Hstep) as Hf12.
      pose proof (processMessage_sticky _ _ _ _ _ _ Hm Hstep) as Hst.
      split; [|split; [|split]].
      + eapply wframe_trans; [exact I1|].
        eapply wframe_trans; [apply wframe_record|exact Hf12].
      + intros x Hx. apply Hst, I2, Hx.
      + intros c' Hc'. apply in_app_or in Hc'.
        destruct Hc' as [Hc'|[<-|[]]]; [apply Hst, I3, Hc'|exact Hcb].
      + intros x Hx Hok. apply Hothers; [|apply (I4 x Hx Hok)].
        intros ->. apply Hx. apply Hlink, Hc. }
  simpl app in HI. destruct HI as (I1 & I2 & I3 & I4).
  split.
  - apply (attaching_done msg b w s t Hm), I2.
  - intros x Hxw Hok p Hp.
    rewrite (wframe_parent s) in Hp by exact Hfr.
    destruct (decide (p = w)) as [->|Hpw].
    + transitivity b.
      * apply attaching_after; [exact Hm|]. apply I3, Hlink, Hp.
      * symmetry. apply (attaching_done msg b w s t Hm), I2.
    + unfold isAttached.
      rewrite !testFlag_after_other by assumption.
      apply (I4 x); [congruence| |].
      * intros q Hq. unfold isAttached, s0.
        rewrite (wframe_parent s) in Hq by exact Hf0.
        assert (q = p) by congruence. subst q.
        rewrite !testFlag_before_other by assumption. apply Hok, Hp.
      * rewrite (wframe_parent s) by exact I1. exact Hp.
Qed.

(** *** Hiding and detaching a subtree *)

Lemma isVisible_after_down msg w t :
  msg = BeforeHide \/ msg = BeforeDetach -> isVisible (after msg w t) w = false.
Proof.
  intros [->| ->]; simpl; unfold isVisible; rewrite !testFlag_clearFlag.
  - destruct (decide (w = w /\ IsVisible = IsVisible)) as [|n];
      [reflexivity|exfalso; apply n; auto].
  - destruct (decide (w = w /\ IsVisible = IsAttached)) as [[_ ?]|];
      [discriminate|].
    destruct (decide (w = w /\ IsVisible = IsVisible)) as [|n'];
      [reflexivity|exfalso; apply n'; auto].
Qed.

(** A before-hide or before-detach traversal from [w] leaves [w] invisible
    and breaks the visibility invariant nowhere. *)
Lemma processMessage_down fuel :
  forall w msg s s',
  msg = BeforeHide \/ msg = BeforeDetach -> linked s ->
  processMessage fuel w msg s = Ok s' ->
  isVisible s' w = false /\ (forall x, visibleOk s x -> visibleOk s' x).
Proof.
  induction fuel as [|fuel IH]; intros w msg s s' Hm Hlink Hrun;
    [discriminate|].
  assert (Hnc : msg <> CloseRequest) by (destruct Hm; subst; discriminate).
  assert (Hlc : lifecycle msg) by (destruct Hm; subst; exact I).
  rewrite processMessage_lifecycle in Hrun by exact Hlc.
  destruct (notify fuel w msg (before msg w s)) as [t| |] eqn:Hn;
    simpl in Hrun; try discriminate.
  injection Hrun as <-.
  assert (Hb : before msg w s = s) by (destruct Hm; subst; reflexivity).
  rewrite Hb in Hn. unfold notify in Hn.
  pose (Inv := fun (done : list wid) (t : State) =>
    wframe s t /\ fading s t /\
    (forall c, In c done -> isHidden s c = false -> isVisible t c = false) /\
    (forall x, visibleOk s x -> visibleOk t x)).
  assert (HI : Inv ([] ++ childrenOf s w) t).
  { refine (forEach_invariant Inv _ _ [] s t _ _ Hn).
    - unfold Inv. split; [apply wframe_refl|]. split; [apply fading_refl|].
      split; [intros c []|auto].
    - intros pre c s1 s2 (I1 & I2 & I3 & I4) Hc Hstep.
      destruct (skipsHidden msg && isHidden s1 c) eqn:Hskip.
      + injection Hstep as <-. split; [|split; [|split]]; auto.
        intros c' Hc' Hh. apply in_app_or in Hc'.
        destruct Hc' as [Hc'|[<-|[]]]; [auto|].
        apply andb_true_iff in Hskip. destruct Hskip as [_ Hskip].
        rewrite (wframe_isHidden s) in Hskip by exact I1. congruence.
      + assert (Hl1 : linked (record (Sent c msg) s1)).
        { eapply linked_wframe; [|exact Hlink].
          eapply wframe_trans; [exact I1|apply wframe_record]. }
        destruct (IH c msg _ s2 Hm Hl1 Hstep) as [Hcv Hkeep].
        pose proof (processMessage_frame_ok _ _ _ _ _ Hnc Hstep) as Hf12.
        pose proof (processMessage_fading _ _ _ _ _ Hm Hstep) as Hfd.
        split; [|split; [|split]].
        * eapply wframe_trans; [exact I1|].
          eapply wframe_trans; [apply wframe_record|exact Hf12].
        * eapply fading_trans; [exact I2|]. exact Hfd.
        * intros c' Hc' Hh. apply in_app_or in Hc'.
          destruct Hc' as [Hc'|[<-|[]]]; [|exact Hcv].
          destruct (isVisible s2 c') eqn:E; [|reflexivity].
          rewrite <- (I3 c' Hc' Hh). symmetry. apply Hfd, E.
        * intros x Hx. apply Hkeep, (I4 x Hx). }
  simpl app in HI. destruct HI as (I1 & I2 & I3 & I4).
  split; [apply isVisible_after_down, Hm|].
  intros x Hx Hv.
  assert (Hxw : x <> w).
  { intros ->. rewrite isVisible_after_down in Hv by exact Hm.
    discriminate. }
  unfold isVisible in Hv. rewrite testFlag_after_other in Hv by exact Hxw.
  destruct (I4 x Hx Hv) as (Ha & Hh & Hp).
  assert (Hfa : wframe t (after msg w t)) by apply wframe_after.
  split; [|split].
  - unfold isAttached. now rewrite testFlag_after_other.
  - unfold isHidden. now rewrite testFlag_after_other.
  - unfold parentVisible in *. rewrite (wframe_parent t) by exact Hfa.
    destruct (parent t x) as [p|] eqn:Hpx; [|reflexivity].
    destruct (decide (p = w)) as [->|Hpw].
    + exfalso. rewrite (wframe_parent s) in Hpx by exact I1.
      rewrite (wframe_isHidden s) in Hh by exact I1.
      apply Hlink in Hpx. specialize (I3 x Hpx Hh).
      unfold isVisible in I3. congruence.
    + unfold isVisible. now rewrite testFlag_after_other.
Qed.

(** *** Showing and attaching a subtree *)

(** The flags set before the layout is notified break nothing. *)
Lemma visibleOk_before msg w s :
  msg = AfterShow \/ msg = AfterAttach ->
  (msg = AfterShow -> showable s w) ->
  forall x, visibleOk s x -> visibleOk (before msg w s) x.
Proof.
  intros Hm Hpre x Hx Hv.
  assert (Hf : wframe s (before msg w s)) by apply wframe_before.
  assert (Hg : growing s (before msg w s)).
  { destruct Hm; subst; simpl.
    - apply growing_setFlag.
    - eapply growing_trans; [|apply growing_setFlag].
      destruct (negb (isHidden s w) && parentVisible s w);
        [apply growing_setFlag|apply growing_refl]. }
  assert (Hrest : isAttached s x = true /\ isHidden s x = false /\
                  parentVisible s x = true ->
                  isAttached (before msg w s) x = true /\
                  isHidden (before msg w s) x = false /\
                  parentVisible (before msg w s) x = true).
  { intros (Ha & Hh & Hp). split; [apply Hg, Ha|]. split.
    - now rewrite (wframe_isHidden s) by exact Hf.
    - apply (parentVisible_growing s); auto. now apply wframe_parent. }
  destruct (decide (x = w)) as [->|Hxw].
  - destruct Hm as [->| ->].
    + destruct (Hpre eq_refl) as (Ha & Hh & Hp & _). auto.
    + simpl in Hv |- *.
      assert (Hatt : isAttached
                (setFlag w IsAttached
                   (if negb (isHidden s w) && parentVisible s w
                    then setFlag w IsVisible s else s)) w = true).
      { unfold isAttached. rewrite testFlag_setFlag.
        destruct (decide (w = w /\ IsAttached = IsAttached)) as [|n];
          [reflexivity|exfalso; apply n; auto]. }
      split; [exact Hatt|].
      assert (Hc : isHidden s w = false /\ parentVisible s w = true).
      { unfold isVisible in Hv. rewrite testFlag_setFlag in Hv.
        destruct (decide (w = w /\ IsVisible = IsAttached)) as [[_ ?]|];
          [discriminate|].
        destruct (negb (isHidden s w) && parentVisible s w) eqn:E.
        - apply andb_true_iff in E. destruct E as [E1 E2].
          apply negb_true_iff in E1. auto.
        - destruct (Hx Hv) as (_ & ? & ?). auto. }
      destruct Hc as [Hh Hp]. split.
      * now rewrite (wframe_isHidden s) by exact Hf.
      * apply (parentVisible_growing s); auto. now apply wframe_parent.
  - apply Hrest, Hx. unfold isVisible in *.
    now rewrite testFlag_before_other in Hv.
Qed.

(** An after-show or after-attach traversal from [w] breaks the visibility
    invariant nowhere. *)
Lemma processMessage_up fuel :
  forall w msg s s',
  msg = AfterShow \/ msg = AfterAttach -> linked s ->
  (msg = AfterShow -> showable s w) ->
  processMessage fuel w msg s = Ok s' ->
  forall x, visibleOk s x -> visibleOk s' x.
Proof.
  induction fuel as [|fuel IH]; intros w msg s s' Hm Hlink Hpre Hrun;
    [discriminate|].
  assert (Hnc : msg <> CloseRequest) by (destruct Hm; subst; discriminate).
  assert (Hlc : lifecycle msg) by (destruct Hm; subst; exact I).
  rewrite processMessage_lifecycle in Hrun by exact Hlc.
  destruct (notify fuel w msg (before msg w s)) as [t| |] eqn:Hn;
    simpl in Hrun; try discriminate.
  injection Hrun as <-.
  assert (Ha : after msg w t = t) by (destruct Hm; subst; reflexivity).
  rewrite Ha. clear Ha.
  pose proof (visibleOk_before msg w s Hm Hpre) as H0.
  assert (Hf0 : wframe s (before msg w s)) by apply wframe_before.
  assert (Hatt0 : msg = AfterShow ->
                  forall x, isAttached (before msg w s) x = isAttached s x).
  { intros -> x. simpl. unfold isAttached. rewrite testFlag_setFlag.
    destruct (decide (x = w /\ IsAttached = IsVisible)) as [[_ ?]|];
      [discriminate|reflexivity]. }
  assert (Hvis0 : msg = AfterShow -> isVisible (before msg w s) w = true).
  { intros ->. simpl. unfold isVisible. rewrite testFlag_setFlag.
    destruct (decide (w = w /\ IsVisible = IsVisible)) as [|n];
      [reflexivity|exfalso; apply n; auto]. }
  unfold notify in Hn. rewrite (wframe_childrenOf s) in Hn by exact Hf0.
  revert H0 Hf0 Hatt0 Hvis0 Hn. generalize (before msg w s). intros s0.
  intros H0 Hf0 Hatt0 Hvis0 Hn.
  pose (Inv := fun (done : list wid) (t : State) =>
    wframe s t /\ growing s0 t /\
    (msg = AfterShow -> forall x, isAttached t x = isAttached s x) /\
    (forall x, visibleOk s x -> visibleOk t x)).
  assert (HI : Inv ([] ++ childrenOf s w) t).
  { refine (forEach_invariant Inv _ _ [] s0 t _ _ Hn).
    - unfold Inv. split; [exact Hf0|]. split; [apply growing_refl|].
      split; [exact Hatt0|exact H0].
    - intros pre c s1 s2 (I1 & I2 & I3 & I4) Hc Hstep.
      destruct (skipsHidden msg && isHidden s1 c) eqn:Hskip.
      + injection Hstep as <-. split; [|split; [|split]]; auto.
      + assert (Hf1 : wframe s (record (Sent c msg) s1)).
        { eapply wframe_trans; [exact I1|apply wframe_record]. }
        assert (Hl1 : linked (record (Sent c msg) s1)).
        { eapply linked_wframe; [exact Hf1|exact Hlink]. }
        assert (Hpre1 : msg = AfterShow ->
                        showable (record (Sent c msg) s1) c).
        { intros ->. destruct (Hpre eq_refl) as (Pa & Ph & Pp & Pok).
          simpl in Hskip. specialize (I3 eq_refl).
          assert (Hpc : parent s c = Some w) by apply Hlink, Hc.
          split; [|split; [|split]].
          - change (isAttached s1 c = true). rewrite I3.
            now rewrite (Pok c w Hpc).
          - exact Hskip.
          - unfold parentVisible.
            rewrite (wframe_parent s), Hpc by exact Hf1.
            change (isVisible s1 w = true). apply I2, Hvis0. reflexivity.
          - intros x p Hp. rewrite (wframe_parent s) in Hp by exact Hf1.
            change (isAttached s1 x = isAttached s1 p).
            rewrite !I3. apply Pok, Hp. }
        pose proof (IH c msg _ s2 Hm Hl1 Hpre1 Hstep) as Hkeep.
        pose proof (processMessage_frame_ok _ _ _ _ _ Hnc Hstep) as Hf12.
        pose proof (processMessage_growing _ _ _ _ _ Hm Hstep) as Hgr.
        split; [|split; [|split]].
        * eapply wframe_trans; [exact Hf1|exact Hf12].
        * eapply growing_trans; [exact I2|]. exact Hgr.
        * intros -> x.
          rewrite (processMessage_keeps_attached _ _ _ _ _
                     (or_introl eq_refl) Hstep).
          apply (I3 eq_refl).
        * intros x Hx. apply Hkeep, (I4 x Hx). }
  simpl app in HI. destruct HI as (_ & _ & _ & I4). exact I4.
Qed.

(** *** The four operations *)

Lemma sound_rehide s s' :
  (forall x, parent s' x = parent s x) ->
  (forall x, isVisible s' x = isVisible s x) ->
  (forall x, isAttached s' x = isAttached s x) ->
  (forall x, isVisible s x = true -> isHidden s x = false ->
             isHidden s' x = false) ->
  sound s -> sound s'.
Proof.
  intros Hp Hv Ha Hh [Sa Sv]. split.
  - intros x p Hxp. rewrite Hp in Hxp. rewrite !Ha. apply Sa, Hxp.
  - intros x Hx. rewrite Hv in Hx. destruct (Sv x Hx) as (A & H & P).
    split; [now rewrite Ha|]. split; [now apply Hh|].
    unfold parentVisible in *. rewrite Hp.
    destruct (parent s x); [now rewrite Hv|reflexivity].
Qed.

Lemma testFlag_setFlag_other w f s x g :
  g <> f -> testFlag (setFlag w f s) x g = testFlag s x g.
Proof.
  intros Hne. rewrite testFlag_setFlag.
  destruct (decide (x = w /\ g = f)) as [[_ ?]|]; [contradiction|reflexivity].
Qed.

Lemma testFlag_clearFlag_other w f s x g :
  g <> f -> testFlag (clearFlag w f s) x g = testFlag s x g.
Proof.
  intros Hne. rewrite testFlag_clearFlag.
  destruct (decide (x = w /\ g = f)) as [[_ ?]|]; [contradiction|reflexivity].
Qed.

Lemma testFlag_setFlag_same w f s : testFlag (setFlag w f s) w f = true.
Proof.
  rewrite testFlag_setFlag.
  destruct (decide (w = w /\ f = f)) as [|n];
    [reflexivity|exfalso; apply n; auto].
Qed.

Lemma testFlag_clearFlag_same w f s : testFlag (clearFlag w f s) w f = false.
Proof.
  rewrite testFlag_clearFlag.
  destruct (decide (w = w /\ f = f)) as [|n];
    [reflexivity|exfalso; apply n; auto].
Qed.

Lemma kin_setFlag w f s : kin s (setFlag w f s).
Proof. apply kin_put; simpl; auto. Qed.

Lemma kin_clearFlag w f s : kin s (clearFlag w f s).
Proof. apply kin_put; simpl; auto. Qed.

Lemma sound_hidden w s :
  sound s -> isVisible s w = false -> sound (setFlag w IsHidden s).
Proof.
  intros Hs Hw. revert Hs. apply sound_rehide.
  - intros x. apply parent_setFlag.
  - intros x. now apply testFlag_setFlag_other.
  - intros x. now apply testFlag_setFlag_other.
  - intros x Hx Hh. unfold isHidden. rewrite testFlag_setFlag.
    destruct (decide (x = w /\ IsHidden = IsHidden)) as [[-> _]|];
      [congruence|exact Hh].
Qed.

Lemma sound_shown w s : sound s -> sound (clearFlag w IsHidden s).
Proof.
  apply sound_rehide.
  - intros x. apply parent_clearFlag.
  - intros x. now apply testFlag_clearFlag_other.
  - intros x. now apply testFlag_clearFlag_other.
  - intros x Hx Hh. unfold isHidden. rewrite testFlag_clearFlag.
    destruct (decide (x = w /\ IsHidden = IsHidden)); [reflexivity|exact Hh].
Qed.

(** The word a widget sends to its parent about a child changes no
    widget. *)
Lemma tell_parent fuel w msg s :
  passive msg ->
  match (match parent s w with
         | Some p => sendMessage fuel p msg s
         | None => Ok s
         end) with
  | Ok s' => steady s s'
  | Thrown _ _ => False
  | OutOfFuel => fuel = O
  end.
Proof.
  intros Hp. destruct (parent s w) as [p|]; [|apply steady_refl].
  destruct fuel as [|fuel]; [reflexivity|].
  rewrite sendMessage_passive by exact Hp. apply steady_record.
Qed.

Lemma setHiddenClass_steady w b s :
  _node (get s w) <> None ->
  exists s', setHiddenClass w b s = Ok s' /\ steady s s'.
Proof.
  intros Hn. unfold setHiddenClass.
  destruct (_node (get s w)) as [n|]; [|contradiction].
  eexists. split; [reflexivity|apply steady_node].
Qed.

(** A traversal with enough fuel returns; with less it may run out. *)
Lemma sendMessage_cases rank fuel w msg s :
  msg <> CloseRequest -> ranked rank s ->
  match sendMessage fuel w msg s with
  | Ok s' => wframe s s' /\ processMessage fuel w msg (record (Sent w msg) s)
                           = Ok s'
  | Thrown _ _ => False
  | OutOfFuel => (fuel <= rank w)%nat
  end.
Proof.
  intros Hnc Hr. unfold sendMessage.
  destruct (processMessage fuel w msg (record (Sent w msg) s))
    as [s'|e s'|] eqn:Hrun.
  - split; [|reflexivity]. eapply wframe_trans; [apply wframe_record|].
    eapply processMessage_frame_ok; eauto.
  - eapply processMessage_no_throw; eauto.
  - destruct (le_lt_dec fuel (rank w)) as [|Hlt]; [assumption|].
    destruct (processMessage_total rank fuel w msg
                (record (Sent w msg) s) Hnc) as (s' & Hs'); auto.
    congruence.
Qed.

(** [hide] keeps the tree and the invariants, and hides the widget. *)
Lemma hide_spec rank fuel w s :
  forest rank s -> sound s ->
  match hide fuel w s with
  | Ok s' => kin s s' /\ sound s' /\ isHidden s' w = true /\
             (forall x, x <> w -> isHidden s' x = isHidden s x)
  | Thrown _ _ => False
  | OutOfFuel => (fuel <= rank w)%nat
  end.
Proof.
  intros (Hr & Hl & Hn) Hs. unfold hide.
  destruct (testFlag s w IsHidden) eqn:Hh.
  { split; [apply kin_refl|]. split; [exact Hs|].
    split; [exact Hh|reflexivity]. }
  assert (H1 : match (if isAttached s w && parentVisible s w
                      then sendMessage fuel w BeforeHide s else Ok s) with
               | Ok s1 => wframe s s1 /\ sound s1 /\ isVisible s1 w = false
               | Thrown _ _ => False
               | OutOfFuel => (fuel <= rank w)%nat
               end).
  { destruct (isAttached s w && parentVisible s w) eqn:E.
    - assert (Hnc : BeforeHide <> CloseRequest) by discriminate.
      pose proof (sendMessage_cases rank fuel w BeforeHide s Hnc Hr) as Hc.
      destruct (sendMessage fuel w BeforeHide s) as [s1| |]; auto.
      destruct Hc as [Hf Hrun].
      destruct (processMessage_down fuel w BeforeHide
                  (record (Sent w BeforeHide) s) s1
                  (or_introl eq_refl) Hl Hrun) as [Hv Hkeep].
      split; [exact Hf|]. split; [|exact Hv]. split.
      + intros x p Hp. rewrite (wframe_parent s) in Hp by exact Hf.
        rewrite !(processMessage_keeps_attached _ _ _ _ _
                    (or_intror eq_refl) Hrun).
        apply (proj1 Hs x p Hp).
      + intros x. apply Hkeep. apply (proj2 Hs x).
    - split; [apply wframe_refl|]. split; [exact Hs|].
      destruct (isVisible s w) eqn:Hv; [|reflexivity].
      destruct (proj2 Hs w Hv) as (A & _ & P).
      rewrite A, P in E. discriminate. }
  destruct (if isAttached s w && parentVisible s w
            then sendMessage fuel w BeforeHide s else Ok s) as [s1| |];
    simpl; [|contradiction|exact H1].
  destruct H1 as (Hf1 & Hs1 & Hv1).
  destruct (setHiddenClass_steady w true (setFlag w IsHidden s1))
    as (s2 & Hs2 & Hst2).
  { unfold setFlag. rewrite get_put_same. simpl.
    rewrite (wframe_node s) by exact Hf1. apply Hn. }
  rewrite Hs2. simpl.
  pose proof (tell_parent fuel w (ChildHidden w) s2 I) as Ht.
  destruct (match parent s2 w with
            | Some p => sendMessage fuel p (ChildHidden w) s2
            | None => Ok s2
            end) as [s'| |]; [|contradiction|subst; lia].
  split; [|split; [|split]].
  - eapply kin_trans; [apply wframe_kin, Hf1|].
    eapply kin_trans; [apply kin_setFlag|].
    eapply kin_trans; [apply Hst2|apply Ht].
  - eapply steady_sound; [exact Ht|]. eapply steady_sound; [exact Hst2|].
    apply sound_hidden; assumption.
  - unfold isHidden.
    rewrite (steady_testFlag s2 s'),
      (steady_testFlag (setFlag w IsHidden s1) s2) by assumption.
    apply testFlag_setFlag_same.
  - intros x Hx. unfold isHidden.
    rewrite (steady_testFlag s2 s'),
      (steady_testFlag (setFlag w IsHidden s1) s2) by assumption.
    rewrite testFlag_setFlag.
    destruct (decide (x = w /\ IsHidden = IsHidden)) as [[? _]|];
      [contradiction|].
    apply (wframe_isHidden s). exact Hf1.
Qed.

(** [show] keeps the tree and the invariants, and shows the widget. *)
Lemma show_spec rank fuel w s :
  forest rank s -> sound s ->
  match show fuel w s with
  | Ok s' => kin s s' /\ sound s' /\ isHidden s' w = false /\
             (forall x, x <> w -> isHidden s' x = isHidden s x)
  | Thrown _ _ => False
  | OutOfFuel => (fuel <= rank w)%nat
  end.
Proof.
  intros (Hr & Hl & Hn) Hs. unfold show.
  destruct (testFlag s w IsHidden) eqn:Hh; simpl negb; cbv iota.
  2:{ split; [apply kin_refl|]. split; [exact Hs|].
      split; [exact Hh|reflexivity]. }
  destruct (setHiddenClass_steady w false (clearFlag w IsHidden s))
    as (s1 & Hs1 & Hst1).
  { unfold clearFlag. rewrite get_put_same. simpl. apply Hn. }
  rewrite Hs1. simpl.
  assert (Hk1 : kin s s1).
  { eapply kin_trans; [apply kin_clearFlag|apply Hst1]. }
  assert (Hso1 : sound s1).
  { eapply steady_sound; [exact Hst1|]. apply sound_shown, Hs. }
  assert (Hh1 : isHidden s1 w = false).
  { unfold isHidden. rewrite (steady_testFlag (clearFlag w IsHidden s) s1) by exact Hst1.
    apply testFlag_clearFlag_same. }
  assert (Hho1 : forall x, x <> w -> isHidden s1 x = isHidden s x).
  { intros x Hx. unfold isHidden.
    rewrite (steady_testFlag (clearFlag w IsHidden s) s1) by exact Hst1.
    rewrite testFlag_clearFlag.
    destruct (decide (x = w /\ IsHidden = IsHidden)) as [[? _]|];
      [contradiction|reflexivity]. }
  assert (Hfo1 : forest rank s1).
  { eapply forest_kin; [exact Hk1|]. repeat split; auto; apply Hl. }
  destruct Hfo1 as (Hr1 & Hl1 & Hn1).
  assert (H2 : match (if isAttached s1 w && parentVisible s1 w
                      then sendMessage fuel w AfterShow s1 else Ok s1) with
               | Ok s2 => wframe s1 s2 /\ sound s2
               | Thrown _ _ => False
               | OutOfFuel => (fuel <= rank w)%nat
               end).
  { destruct (isAttached s1 w && parentVisible s1 w) eqn:E.
    - apply andb_true_iff in E. destruct E as [Ea Ep].
      assert (Hnc : AfterShow <> CloseRequest) by discriminate.
      pose proof (sendMessage_cases rank fuel w AfterShow s1 Hnc Hr1) as Hc.
      destruct (sendMessage fuel w AfterShow s1) as [s2| |]; auto.
      destruct Hc as [Hf Hrun]. split; [exact Hf|].
      assert (Hpre : AfterShow = AfterShow ->
                     showable (record (Sent w AfterShow) s1) w).
      { intros _. split; [exact Ea|]. split; [exact Hh1|].
        split; [exact Ep|exact (proj1 Hso1)]. }
      split.
      + intros x p Hp. rewrite (wframe_parent s1) in Hp by exact Hf.
        rewrite !(processMessage_keeps_attached _ _ _ _ _
                    (or_introl eq_refl) Hrun).
        apply (proj1 Hso1 x p Hp).
      + intros x.
        apply (processMessage_up fuel w AfterShow
                 (record (Sent w AfterShow) s1) s2
                 (or_introl eq_refl) Hl1 Hpre Hrun).
        apply (proj2 Hso1 x).
    - split; [apply wframe_refl|exact Hso1]. }
  destruct (if isAttached s1 w && parentVisible s1 w
            then sendMessage fuel w AfterShow s1 else Ok s1) as [s2| |];
    simpl; [|contradiction|exact H2].
  destruct H2 as (Hf2 & Hso2).
  pose proof (tell_parent fuel w (ChildShown w) s2 I) as Ht.
  destruct (match parent s2 w with
            | Some p => sendMessage fuel p (ChildShown w) s2
            | None => Ok s2
            end) as [s'| |]; [|contradiction|subst; lia].
  split; [|split; [|split]].
  - eapply kin_trans; [exact Hk1|].
    eapply kin_trans; [apply wframe_kin, Hf2|apply Ht].
  - eapply steady_sound; [exact Ht|exact Hso2].
  - unfold isHidden. rewrite (steady_testFlag s2 s') by assumption.
    fold (isHidden s2 w). now rewrite (wframe_isHidden s1) by exact Hf2.
  - intros x Hx. unfold isHidden.
    rewrite (steady_testFlag s2 s') by assumption.
    fold (isHidden s2 x). rewrite (wframe_isHidden s1) by exact Hf2.
    now apply Hho1.
Qed.

(** A call that throws at once leaves the state as it was. *)
Ltac thrown_at_once Hs :=
  simpl; intros [= <-]; split; [apply kin_refl|exact Hs].

Lemma attach_settles rank fuel w hostInBody s s' :
  forest rank s -> sound s ->
  settled (attach fuel w hostInBody s) = Some s' ->
  kin s s' /\ sound s'.
Proof.
  intros (Hr & Hl & Hn) Hs. unfold attach.
  destruct (parent s w) as [p|] eqn:Hp; [thrown_at_once Hs|].
  destruct (_node (get s w)) as [n|] eqn:Hnode.
  2:{ destruct (isAttached s w); [thrown_at_once Hs|].
      destruct (negb hostInBody); thrown_at_once Hs. }
  destruct (isAttached s w || inBody n); [thrown_at_once Hs|].
  destruct (negb hostInBody); [thrown_at_once Hs|].
  set (s0 := put w (with_node (get s w) _) s).
  assert (Hst0 : steady s s0) by apply steady_node.
  assert (Hfo0 : forest rank s0).
  { eapply forest_kin; [apply Hst0|]. repeat split; auto; apply Hl. }
  destruct Hfo0 as (Hr0 & Hl0 & Hn0).
  assert (Hso0 : sound s0) by (eapply steady_sound; eauto).
  assert (Hnc : AfterAttach <> CloseRequest) by discriminate.
  pose proof (sendMessage_cases rank fuel w AfterAttach s0 Hnc Hr0) as Hc.
  destruct (sendMessage fuel w AfterAttach s0) as [s1| |];
    [|contradiction|discriminate].
  simpl. intros [= <-]. destruct Hc as [Hf Hrun].
  split.
  { eapply kin_trans; [apply Hst0|apply wframe_kin, Hf]. }
  destruct (processMessage_attachment fuel w AfterAttach true
              (record (Sent w AfterAttach) s0) s1
              (or_intror (conj eq_refl eq_refl)) Hl0 Hrun) as [_ Hothers].
  split.
  - intros x. destruct (decide (x = w)) as [->|Hxw].
    + intros q Hq. rewrite (wframe_parent s0) in Hq by exact Hf.
      rewrite (steady_parent s s0) in Hq by exact Hst0. congruence.
    + apply Hothers; [exact Hxw|]. apply (proj1 Hso0 x).
  - intros x.
    apply (processMessage_up fuel w AfterAttach
             (record (Sent w AfterAttach) s0) s1
             (or_intror eq_refl) Hl0); [discriminate|exact Hrun|].
    apply (proj2 Hso0 x).
Qed.

Lemma detach_settles rank fuel w s s' :
  forest rank s -> sound s ->
  settled (detach fuel w s) = Some s' ->
  kin s s' /\ sound s'.
Proof.
  intros (Hr & Hl & Hn) Hs. unfold detach, detach_with.
  destruct (parent s w) as [p|] eqn:Hp; [thrown_at_once Hs|].
  destruct (negb (isAttached s w)
            || negb match _node (get s w) with
                    | Some n => inBody n
                    | None => false
                    end); [thrown_at_once Hs|].
  assert (Hnc : BeforeDetach <> CloseRequest) by discriminate.
  pose proof (sendMessage_cases rank fuel w BeforeDetach s Hnc Hr) as Hc.
  destruct (sendMessage fuel w BeforeDetach s) as [s1| |];
    [|contradiction|discriminate].
  destruct Hc as [Hf Hrun].
  destruct (processMessage_attachment fuel w BeforeDetach false
              (record (Sent w BeforeDetach) s) s1
              (or_introl (conj eq_refl eq_refl)) Hl Hrun) as [_ Hothers].
  destruct (processMessage_down fuel w BeforeDetach
              (record (Sent w BeforeDetach) s) s1
              (or_intror eq_refl) Hl Hrun) as [_ Hkeep].
  assert (Hso1 : sound s1).
  { split.
    - intros x. destruct (decide (x = w)) as [->|Hxw].
      + intros q Hq. rewrite (wframe_parent s) in Hq by exact Hf.
        congruence.
      + apply Hothers; [exact Hxw|]. apply (proj1 Hs x).
    - intros x. apply Hkeep. apply (proj2 Hs x). }
  simpl.
  destruct (_node (get s1 w)) as [n|] eqn:Hnode.
  - simpl. intros [= <-].
    split.
    + eapply kin_trans; [apply wframe_kin, Hf|apply steady_node].
    + eapply steady_sound; [apply steady_node|exact Hso1].
  - simpl. intros [= <-]. split; [apply wframe_kin, Hf|exact Hso1].
Qed.

(** Every operation keeps the forest and the invariants. *)
Lemma run_settles rank fuel o s s' :
  forest rank s -> sound s -> settled (run fuel o s) = Some s' ->
  kin s s' /\ sound s'.
Proof.
  intros Hf Hs. destruct o as [w host|w|w|w]; simpl.
  - apply (attach_settles rank); assumption.
  - apply (detach_settles rank); assumption.
  - pose proof (show_spec rank fuel w s Hf Hs) as H.
    destruct (show fuel w s); simpl; [|contradiction|discriminate].
    intros [= <-]. destruct H as (? & ? & _). auto.
  - pose proof (hide_spec rank fuel w s Hf Hs) as H.
    destruct (hide fuel w s); simpl; [|contradiction|discriminate].
    intros [= <-]. destruct H as (? & ? & _). auto.
Qed.

Lemma detached_sound s : detached s -> sound s.
Proof.
  intros Hd. split.
  - intros x p _. now rewrite (proj1 (Hd x)), (proj1 (Hd p)).
  - intros x Hx. rewrite (proj2 (Hd x)) in Hx. discriminate.
Qed.

Lemma reachable_sound rank s0 s :
  forest rank s0 -> detached s0 -> reachable s0 s ->
  forest rank s /\ sound s.
Proof.
  intros Hf Hd Hreach. induction Hreach as [|s fuel o s' _ [IHf IHs] Hstep].
  - split; [exact Hf|apply detached_sound, Hd].
  - destruct (run_settles rank fuel o s s' IHf IHs Hstep) as [Hk Hs'].
    split; [eapply forest_kin; eauto|exact Hs'].
Qed.

(** A visible widget has no hidden widget on the way up. *)
Lemma sound_no_hidden s :
  sound s ->
  forall a x, descends s a x -> isVisible s x = true ->
              isVisible s a = true /\ isHidden s a = false.
Proof.
  intros [_ Hv] a x Hd. induction Hd as [|x p Hp _ IH]; intros Hx.
  - split; [exact Hx|]. apply (Hv a Hx).
  - apply IH. destruct (Hv x Hx) as (_ & _ & Hpv).
    unfold parentVisible in Hpv. now rewrite Hp in Hpv.
Qed.

Lemma kin_descends s s' a x : kin s s' -> descends s a x -> descends s' a x.
Proof.
  intros Hk Hd. induction Hd as [|x p Hp _ IH].
  - apply descends_self.
  - apply (descends_step s' a x p); [|exact IH].
    now rewrite (kin_parent s) by exact Hk.
Qed.

(** *** The chain *)

Lemma chain_get x :
  get chain x =
  match x with
  | 0%nat => with_layout fresh (Some (mkLayoutOf [1%nat]))
  | 1%nat => with_parent (with_layout fresh (Some (mkLayoutOf [2%nat])))
                         (Some 0%nat)
  | 2%nat => with_parent fresh (Some 1%nat)
  | _ => fresh
  end.
Proof.
  destruct x as [|[|[|x]]]; try reflexivity.
  unfold get, chain. cbn [heap].
  rewrite !lookup_insert_ne by lia. rewrite lookup_empty. reflexivity.
Qed.

Lemma chain_forest : forest chainRank chain.
Proof.
  split; [|split].
  - intros p c. unfold childrenOf. rewrite chain_get.
    destruct p as [|[|[|p]]]; simpl; try tauto.
    + intros [<-|[]]. unfold chainRank. lia.
    + intros [<-|[]]. unfold chainRank. lia.
  - intros p c. unfold childrenOf, parent. rewrite !chain_get.
    destruct p as [|[|[|p]]]; destruct c as [|[|[|c]]]; simpl;
      split; intros H; try discriminate; try tauto; try reflexivity;
      try (destruct H as [H|[]]; discriminate); try (left; reflexivity).
  - intros x. rewrite chain_get. destruct x as [|[|[|x]]]; discriminate.
Qed.

Lemma chain_detached : detached chain.
Proof.
  intros x. unfold isAttached, isVisible, testFlag. rewrite chain_get.
  destruct x as [|[|[|x]]]; split; reflexivity.
Qed.

Lemma chain_reaches : reachable chain chainAttached.
Proof.
  apply (reachable_step chain chain 3 (Attach 0 true) chainAttached).
  - apply reachable_start.
  - vm_compute. reflexivity.
Qed.

(** The scenario of the chain: hiding the parent makes the grandchild
    invisible, showing the parent again restores it, unless the child has
    been hidden in between. *)
Example chain_scenario :
  let s1 := chainAttached in
  let s2 := next (hide 3 0 s1) s1 in
  let s3 := next (show 3 0 s2) s2 in
  let s4 := next (show 3 0 (next (hide 3 1 s2) s2)) s2 in
  isVisible s1 2 = true /\
  (isVisible s2 2 = false /\ isHidden s2 2 = false) /\
  isVisible s3 2 = true /\
  (isVisible s4 2 = false /\ isHidden s4 2 = false).
Proof. vm_compute. repeat split; reflexivity. Qed.




Import Widgets WidgetSpec WidgetOps.

(** ** Descent *)

Lemma contains_sound_true s this fuel :
  forall x, contains fuel s this (Some x) = Some true -> descends s this x.
Proof.
  induction fuel as [|fuel IH]; intros x; simpl;
    destruct (decide (x = this)) as [->|Hne]; try (intros; constructor).
  - discriminate.
  - destruct (parent s x) as [p|] eqn:Hp.
    + intros H. apply (descends_step s this x p Hp). apply IH, H.
    + destruct fuel; discriminate.
Qed.

Lemma contains_sound_false s this fuel :
  forall x, contains fuel s this (Some x) = Some false ->
            ~ descends s this x.
Proof.
  induction fuel as [|fuel IH]; intros x; simpl;
    destruct (decide (x = this)) as [->|Hne]; try discriminate.
  destruct (parent s x) as [p|] eqn:Hp.
  - intros H Hd. inversion Hd as [|x' p' Hp' Hup]; subst; [congruence|].
    assert (p' = p) as -> by congruence. now apply (IH p).
  - intros _ Hd. inversion Hd as [|x' p' Hp' Hup]; subst; congruence.
Qed.

(** [contains] decides descent: for a widget with a finite chain of
    parents above it, and fuel for that chain, it returns, and it returns
    [true] exactly when the widget is [this] or one of its descendants;
    for no widget at all it returns [false]. *)
Theorem contains_decides (s : State) (this v : wid) (d fuel : nat) :
  depth s v d -> (d < fuel)%nat ->
  (exists b, contains fuel s this (Some v) = Some b /\
             (b = true <-> descends s this v)) /\
  contains fuel s this None = Some false.
Proof.
  intros Hd Hf. split; [|destruct fuel; reflexivity].
  destruct (contains fuel s this (Some v)) as [[|]|] eqn:E.
  - exists true. split; [reflexivity|].
    split; [intros _; eapply contains_sound_true; eauto|reflexivity].
  - exists false. split; [reflexivity|]. split; [discriminate|].
    intros H. exfalso. eapply contains_sound_false; eauto.
  - exfalso.
    assert (Hcase : descends s this v \/ ~ descends s this v).
    { clear E Hf. induction Hd as [x Hx|x p n Hx _ IH].
      - destruct (decide (x = this)) as [->|Hne]; [left; constructor|].
        right. intros H. inversion H; subst; congruence.
      - destruct (decide (x = this)) as [->|Hne]; [left; constructor|].
        destruct IH as [IH|IH]; [left; econstructor; eauto|].
        right. intros H. inversion H as [|x' p' Hp' Hup]; subst;
          [congruence|].
        assert (p' = p) as -> by congruence. contradiction. }
    destruct Hcase as [H|H].
    + rewrite (contains_true s this fuel v d H Hd Hf) in E. discriminate.
    + rewrite (contains_false s this fuel v d H Hd Hf) in E. discriminate.
Qed.

Lemma contains_decides_witness :
  (exists b, contains 3 chain 0 (Some 2%nat) = Some b /\
             (b = true <-> descends chain 0 2)) /\
  contains 3 chain 0 None = Some false.
Proof.
  apply (contains_decides chain 0 2 2 3); [|lia].
  apply (depth_child chain 2 1 1); [reflexivity|].
  apply (depth_child chain 1 0 0); [reflexivity|].
  apply depth_root. reflexivity.
Defined.

(** ** Flags *)

(** The five flags are independent bits: setting or clearing a flag of a
    widget changes that flag of that widget and nothing else, no other
    flag, no other widget, no parent and no layout; a flag that has been
    set tests true, one that has been cleared tests false, and a widget
    nothing has touched has no flag. *)
Theorem flags_independent (w : wid) (f : WidgetFlag) (s : State) :
  (forall x g, testFlag (setFlag w f s) x g
               = if decide (x = w /\ g = f) then true else testFlag s x g) /\
  (forall x g, testFlag (clearFlag w f s) x g
               = if decide (x = w /\ g = f) then false else testFlag s x g) /\
  (forall x, parent (setFlag w f s) x = parent s x /\
             parent (clearFlag w f s) x = parent s x /\
             childrenOf (setFlag w f s) x = childrenOf s x /\
             childrenOf (clearFlag w f s) x = childrenOf s x) /\
  testFlag (clearFlag w f (setFlag w f s)) w f = false /\
  testFlag blank w f = false.
Proof.
  split; [intros x g; apply testFlag_setFlag|].
  split; [intros x g; apply testFlag_clearFlag|].
  split.
  - intros x. split; [apply parent_setFlag|].
    split; [apply parent_clearFlag|].
    unfold childrenOf, setFlag, clearFlag. rewrite !get_put.
    destruct (decide (x = w)) as [->|]; auto.
  - split; [apply testFlag_clearFlag_same|]. destruct f; reflexivity.
Qed.

(** ** The parent references stay free of cycles *)

(** What a call of the setter leaves behind: the state as it was, or the
    state with the one parent reference replaced, by a widget that does
    not descend from [w]. *)
Lemma set_parent_cases fuel w value s s' :
  settled (set_parent fuel w value s) = Some s' ->
  heap s' = heap s \/
  (heap s' = <[w := with_parent (get s w) value]> (heap s) /\
   match value with
   | Some v => ~ descends s w v
   | None => True
   end).
Proof.
  destruct (decide (parent s w = value)) as [Heq|Hne].
  { unfold set_parent, set_parent_with.
    destruct (decide (parent s w = value)); [|contradiction].
    intros [= <-]. now left. }
  destruct (match value with
            | Some v => contains fuel s w (Some v)
            | None => Some false
            end) as [[|]|] eqn:Hc.
  - unfold set_parent, set_parent_with.
    destruct (decide (parent s w = value)); [contradiction|].
    rewrite Hc. intros [= <-]. now left.
  - destruct fuel as [|fuel].
    + unfold set_parent, set_parent_with.
      destruct (decide (parent s w = value)); [contradiction|].
      rewrite Hc. unfold sendMessage. simpl.
      destruct (parent s w) as [p|]; [destruct (isDisposed s p)|];
        simpl; try discriminate;
        destruct value as [v|]; simpl;
        unfold parent; rewrite ?get_record, ?get_put_same; simpl;
        try discriminate;
        destruct (isDisposed _ v); simpl; discriminate.
    + destruct (set_parent_effective fuel s w value Hne Hc)
        as (s1 & -> & _ & Hheap).
      intros [= <-]. right. split; [exact Hheap|].
      destruct value as [v|]; [|exact I].
      eapply contains_sound_false; eauto.
  - unfold set_parent, set_parent_with.
    destruct (decide (parent s w = value)); [contradiction|].
    rewrite Hc. discriminate.
Qed.

Lemma get_heap_insert s s' w W x :
  heap s' = <[w := W]> (heap s) ->
  get s' x = if decide (x = w) then W else get s x.
Proof.
  intros H. unfold get. rewrite H.
  destruct (decide (x = w)) as [->|Hne].
  - now rewrite lookup_insert_eq.
  - now rewrite lookup_insert_ne by congruence.
Qed.

(** A chain of parents that does not pass [w] is not changed by a new
    parent of [w]. *)
Lemma depth_avoiding s s' w value :
  heap s' = <[w := with_parent (get s w) value]> (heap s) ->
  forall v d, depth s v d -> ~ descends s w v -> depth s' v d.
Proof.
  intros Hheap v d Hd. induction Hd as [x Hx|x p n Hx _ IH]; intros Hnd.
  - apply depth_root. unfold parent.
    rewrite (get_heap_insert s s' w _ x Hheap).
    destruct (decide (x = w)) as [->|]; [|exact Hx].
    exfalso. apply Hnd. constructor.
  - apply (depth_child s' x p n).
    + unfold parent. rewrite (get_heap_insert s s' w _ x Hheap).
      destruct (decide (x = w)) as [->|]; [|exact Hx].
      exfalso. apply Hnd. constructor.
    + apply IH. intros Hp. apply Hnd. econstructor; eauto.
Qed.

(** The setter of [parent] never closes a cycle: when every widget has a
    finite chain of parents above it before the call, every widget has
    one in the state the call leaves behind, whether it returns or
    throws. *)
Theorem set_parent_keeps_grounded (fuel : nat) (w : wid)
        (value : option wid) (s s' : State) :
  grounded s -> settled (set_parent fuel w value s) = Some s' ->
  grounded s'.
Proof.
  intros Hg Hrun.
  destruct (set_parent_cases fuel w value s s' Hrun) as [Hsame|[Hheap Hnd]].
  - intros x. destruct (Hg x) as [d Hd]. exists d.
    clear -Hsame Hd. induction Hd as [x Hx|x p n Hx _ IH].
    + apply depth_root. unfold parent, get in *. now rewrite Hsame.
    + apply (depth_child s' x p n); [|exact IH].
      unfold parent, get in *. now rewrite Hsame.
  - assert (Hw : exists d, depth s' w d).
    { destruct value as [v|].
      - destruct (Hg v) as [dv Hdv]. exists (S dv).
        apply (depth_child s' w v dv).
        + unfold parent. rewrite (get_heap_insert s s' w _ w Hheap).
          destruct (decide (w = w)); [reflexivity|contradiction].
        + eapply depth_avoiding; eauto.
      - exists 0%nat. apply depth_root. unfold parent.
        rewrite (get_heap_insert s s' w _ w Hheap).
        destruct (decide (w = w)); [reflexivity|contradiction]. }
    intros x. destruct (Hg x) as [d Hd].
    induction Hd as [x Hx|x p n Hx _ IH].
    + destruct (decide (x = w)) as [->|Hne]; [exact Hw|].
      exists 0%nat. apply depth_root. unfold parent.
      rewrite (get_heap_insert s s' w _ x Hheap).
      destruct (decide (x = w)); [contradiction|exact Hx].
    + destruct (decide (x = w)) as [->|Hne]; [exact Hw|].
      destruct IH as [d' Hd']. exists (S d').
      apply (depth_child s' x p d'); [|exact Hd'].
      unfold parent. rewrite (get_heap_insert s s' w _ x Hheap).
      destruct (decide (x = w)); [contradiction|exact Hx].
Qed.

Lemma chain_grounded : grounded chain.
Proof.
  assert (H0 : depth chain 0 0) by (apply depth_root; reflexivity).
  assert (H1 : depth chain 1 1)
    by (apply (depth_child chain 1 0 0); [reflexivity|exact H0]).
  intros x. destruct x as [|[|[|x]]].
  - exists 0%nat. exact H0.
  - exists 1%nat. exact H1.
  - exists 2%nat. apply (depth_child chain 2 1 1); [reflexivity|exact H1].
  - exists 0%nat. apply depth_root. unfold parent. now rewrite chain_get.
Qed.

Lemma set_parent_keeps_grounded_witness :
  grounded (next (set_parent 3 2 (Some 0%nat) chain) chain).
Proof.
  apply (set_parent_keeps_grounded 3 2 (Some 0%nat) chain).
  - exact chain_grounded.
  - vm_compute. reflexivity.
Defined.

(** ** Closing a widget *)

Lemma close_unfold fuel w s :
  close (S fuel) w s
  = let s1 := record (Sent w CloseRequest) s in
    match parent s1 w with
    | Some _ => set_parent fuel w None s1
    | None => if isAttached s1 w then detach fuel w s1 else Ok s1
    end.
Proof.
  unfold close, sendMessage. simpl processMessage.
  destruct (_layout (get (record (Sent w CloseRequest) s) w)); reflexivity.
Qed.

(** [close] unparents a widget that has a parent, the parent, unless
    disposed, being told of the child removed; it detaches a root that is
    attached, which then is neither attached nor visible; it does
    nothing to a root that is not attached.  No other parent reference
    and no hidden flag changes. *)
Theorem close_releases (rank : wid -> nat) (fuel : nat) (w : wid)
        (s : State) :
  ranked rank s -> (rank w + 2 <= fuel)%nat ->
  (parent s w = None -> isAttached s w = true ->
   exists n, _node (get s w) = Some n /\ inBody n = true) ->
  exists s', close fuel w s = Ok s' /\
    parent s' w = None /\
    (forall x, x <> w -> parent s' x = parent s x) /\
    (forall x, isHidden s' x = isHidden s x) /\
    (parent s w = None -> isAttached s w = true ->
     isAttached s' w = false /\ isVisible s' w = false) /\
    (parent s w = None -> isAttached s w = false ->
     s' = record (Sent w CloseRequest) s) /\
    (forall p, parent s w = Some p -> isDisposed s p = false ->
               In (Sent p (ChildRemoved w)) (trace s')).
Proof.
  intros Hr Hf Hhost.
  destruct fuel as [|[|fuel]]; [lia|lia|].
  rewrite close_unfold. cbv zeta.
  set (s1 := record (Sent w CloseRequest) s).
  change (parent s1 w) with (parent s w).
  change (isAttached s1 w) with (isAttached s w).
  destruct (parent s w) as [p|] eqn:Hp.
  - destruct (set_parent_effective fuel s1 w None) as (s' & -> & Htr & Hheap).
    { change (parent s1 w) with (parent s w). congruence. }
    { reflexivity. }
    assert (Hget : forall x, get s' x
                   = if decide (x = w) then with_parent (get s w) None
                     else get s x).
    { intros x. apply (get_heap_insert s1 s' w _ x Hheap). }
    exists s'. split; [reflexivity|]. split; [|split; [|split; [|split]]].
    + unfold parent. rewrite Hget.
      destruct (decide (w = w)); [reflexivity|contradiction].
    + intros x Hx. unfold parent. rewrite Hget.
      destruct (decide (x = w)); [contradiction|reflexivity].
    + intros x. unfold isHidden, testFlag. rewrite Hget.
      destruct (decide (x = w)) as [->|]; reflexivity.
    + discriminate.
    + split; [discriminate|]. intros q [= <-] Hd. rewrite Htr.
      unfold reparentEvents. change (parent s1 w) with (parent s w).
      rewrite Hp. change (isDisposed s1 p) with (isDisposed s p).
      rewrite Hd. apply in_or_app. right. now left.
  - destruct (isAttached s w) eqn:Ha.
    + destruct (Hhost eq_refl eq_refl) as (n & Hn & Hin).
      destruct (detach_returns rank (S fuel) w s1 n) as (s2 & Hs2 & ->);
        auto; [lia|].
      assert (Hfr : wframe s s2).
      { apply (processMessage_frame_ok (S fuel) w BeforeDetach
                 (record (Sent w BeforeDetach) s1)); [congruence|exact Hs2]. }
      destruct (processMessage_detach_clears _ _ _ _ Hs2) as [Hca Hcv].
      eexists. split; [reflexivity|].
      assert (Hflag : forall x f,
                testFlag (put w (with_node (get s2 w)
                                   (Some (mkNode false (classHidden n)))) s2)
                         x f = testFlag s2 x f).
      { intros x f. unfold testFlag. rewrite get_put.
        destruct (decide (x = w)) as [->|]; reflexivity. }
      assert (Hpar : forall x,
                parent (put w (with_node (get s2 w)
                                 (Some (mkNode false (classHidden n)))) s2) x
                = parent s x).
      { intros x. unfold parent. rewrite get_put.
        destruct (decide (x = w)) as [->|]; simpl;
          apply (wframe_parent s s2 _ Hfr). }
      split; [rewrite Hpar; exact Hp|]. split; [intros x _; apply Hpar|].
      split; [|split; [|split]].
      * intros x. unfold isHidden. rewrite Hflag.
        apply (wframe_isHidden s s2 x Hfr).
      * intros _ _. unfold isAttached, isVisible. rewrite !Hflag.
        split; assumption.
      * discriminate.
      * discriminate.
    + exists s1. split; [reflexivity|].
      split; [exact Hp|]. split; [reflexivity|]. split; [reflexivity|].
      split; [discriminate|]. split; [reflexivity|discriminate].
Qed.

Lemma close_releases_witness :
  exists s', close 3 0 family = Ok s' /\
    parent s' 0 = None /\
    (forall x, x <> 0%nat -> parent s' x = parent family x) /\
    (forall x, isHidden s' x = isHidden family x) /\
    (parent family 0 = None -> isAttached family 0 = true ->
     isAttached s' 0 = false /\ isVisible s' 0 = false) /\
    (parent family 0 = None -> isAttached family 0 = false ->
     s' = record (Sent 0%nat CloseRequest) family) /\
    (forall p, parent family 0 = Some p -> isDisposed family p = false ->
               In (Sent p (ChildRemoved 0%nat)) (trace s')).
Proof.
  apply (close_releases familyRank 3 0 family).
  - exact family_ranked.
  - simpl. lia.
  - intros _ _. eexists. split; reflexivity.
Defined.

(** ** What a traversal reaches *)

Lemma descends_trans s a b c :
  descends s a b -> descends s b c -> descends s a c.
Proof.
  intros Hab Hbc. induction Hbc as [|x p Hp _ IH]; [exact Hab|].
  apply (descends_step s a x p Hp IH).
Qed.

Lemma descends_same_parents s s' a x :
  (forall y, parent s' y = parent s y) ->
  descends s a x -> descends s' a x.
Proof.
  intros Hp Hd. induction Hd as [|x p Hx _ IH]; [constructor|].
  apply (descends_step s' a x p); [now rewrite Hp|exact IH].
Qed.

Lemma depth_same_parents s s' x d :
  (forall y, parent s' y = parent s y) -> depth s x d -> depth s' x d.
Proof.
  intros Hp Hd. induction Hd as [x Hx|x p n Hx _ IH].
  - apply depth_root. now rewrite Hp.
  - apply (depth_child s' x p n); [now rewrite Hp|exact IH].
Qed.

Lemma descends_child s w c :
  linked s -> In c (childrenOf s w) -> descends s w c.
Proof.
  intros Hl Hc. apply (descends_step s w c w); [now apply Hl|constructor].
Qed.

Lemma descends_rank rank s a x :
  ranked rank s -> linked s -> descends s a x -> (rank x <= rank a)%nat.
Proof.
  intros Hr Hl Hd. induction Hd as [|x p Hp _ IH]; [lia|].
  apply Hl in Hp. specialize (Hr p x Hp). lia.
Qed.

(** A traversal from [w] changes no widget outside the subtree of [w]. *)
Lemma processMessage_local fuel :
  forall w msg s s',
  msg <> CloseRequest -> linked s ->
  processMessage fuel w msg s = Ok s' ->
  forall x, ~ descends s w x -> get s' x = get s x.
Proof.
  induction fuel as [|fuel IH]; intros w msg s s' Hnc Hlink Hrun x Hx;
    [discriminate|].
  destruct (lifecycle_or_passive msg Hnc) as [Hlc|Hp].
  2:{ rewrite processMessage_passive in Hrun by exact Hp.
      now injection Hrun as <-. }
  rewrite processMessage_lifecycle in Hrun by exact Hlc.
  destruct (notify fuel w msg (before msg w s)) as [t| |] eqn:Hn;
    simpl in Hrun; try discriminate.
  injection Hrun as <-.
  assert (Hxw : x <> w) by (intros ->; apply Hx; constructor).
  rewrite get_after_other by exact Hxw.
  assert (Hf0 : wframe s (before msg w s)) by apply wframe_before.
  unfold notify in Hn. rewrite (wframe_childrenOf s) in Hn by exact Hf0.
  pose (Inv := fun (done : list wid) (t : State) =>
    wframe s t /\ get t x = get s x).
  assert (HI : Inv ([] ++ childrenOf s w) t).
  { refine (forEach_invariant Inv _ _ [] (before msg w s) t _ _ Hn).
    - split; [exact Hf0|]. now apply get_before_other.
    - intros pre c s1 s2 [I1 I2] Hc Hstep.
      destruct (skipsHidden msg && isHidden s1 c).
      + injection Hstep as <-. split; assumption.
      + assert (Hf1 : wframe s (record (Sent c msg) s1)).
        { eapply wframe_trans; [exact I1|apply wframe_record]. }
        split.
        * eapply wframe_trans; [exact Hf1|].
          eapply processMessage_frame_ok; eauto.
        * rewrite (IH c msg _ s2 Hnc (linked_wframe _ _ Hf1 Hlink) Hstep);
            [exact I2|].
          intros Hd. apply Hx.
          apply (descends_trans s w c x); [now apply descends_child|].
          apply (descends_same_parents (record (Sent c msg) s1) s);
            [|exact Hd].
          intros y. symmetry. now apply wframe_parent. }
  apply HI.
Qed.

(** A before-detach traversal leaves a widget alone or clears both its
    visible and its attached flag. *)
Lemma cleared_refl s : cleared s s.
Proof. intros x. now left. Qed.

Lemma cleared_trans a b c : cleared a b -> cleared b c -> cleared a c.
Proof.
  intros H1 H2 x. destruct (H2 x) as [Hk|Hc]; [|now right].
  destruct (H1 x) as [Hk1|[Hv Ha]].
  - left. intros f. now rewrite Hk.
  - right. unfold isVisible, isAttached in *. now rewrite !Hk.
Qed.

Lemma processMessage_cleared fuel w s s' :
  processMessage fuel w BeforeDetach s = Ok s' -> cleared s s'.
Proof.
  apply (processMessage_rel_ok cleared BeforeDetach).
  - discriminate.
  - apply cleared_refl.
  - apply cleared_trans.
  - intros e s0 x. now left.
  - intros w0 s0. apply cleared_refl.
  - intros w0 s0 x. simpl. destruct (decide (x = w0)) as [->|Hne].
    + right. unfold isVisible, isAttached.
      rewrite testFlag_clearFlag_other by discriminate.
      rewrite !testFlag_clearFlag_same. auto.
    + left. intros f. rewrite !testFlag_clearFlag.
      destruct (decide (x = w0 /\ f = IsAttached)) as [[? _]|];
        [contradiction|].
      destruct (decide (x = w0 /\ f = IsVisible)) as [[? _]|];
        [contradiction|reflexivity].
Qed.

(** *** The second half of the invariant under the traversals *)

Lemma visibleDue_other msg w t x :
  x <> w -> parent t x <> Some w ->
  visibleDue t x -> visibleDue (after msg w t) x.
Proof.
  intros Hxw Hpw Hd Ha Hh Hp.
  unfold isAttached, isHidden, isVisible in *.
  rewrite testFlag_after_other in * by exact Hxw.
  apply Hd; auto.
  unfold parentVisible in *.
  rewrite (wframe_parent t (after msg w t)) in Hp by apply wframe_after.
  destruct (parent t x) as [p|]; [|reflexivity].
  unfold isVisible in *. rewrite testFlag_after_other in Hp; [exact Hp|].
  congruence.
Qed.

Lemma visibleDue_other_before msg w s x :
  x <> w -> parent s x <> Some w ->
  visibleDue s x -> visibleDue (before msg w s) x.
Proof.
  intros Hxw Hpw Hd Ha Hh Hp.
  unfold isAttached, isHidden, isVisible in *.
  rewrite testFlag_before_other in * by exact Hxw.
  apply Hd; auto.
  unfold parentVisible in *.
  rewrite (wframe_parent s (before msg w s)) in Hp by apply wframe_before.
  destruct (parent s x) as [p|]; [|reflexivity].
  unfold isVisible in *. rewrite testFlag_before_other in Hp; [exact Hp|].
  congruence.
Qed.

(** A before-hide traversal from [w] leaves every widget but [w] due as
    before. *)
Lemma processMessage_hide_due fuel :
  forall w s s',
  linked s -> processMessage fuel w BeforeHide s = Ok s' ->
  forall x, x <> w -> visibleDue s x -> visibleDue s' x.
Proof.
  induction fuel as [|fuel IH]; intros w s s' Hlink Hrun; [discriminate|].
  rewrite processMessage_lifecycle in Hrun by exact I.
  change (before BeforeHide w s) with s in Hrun.
  destruct (notify fuel w BeforeHide s) as [t| |] eqn:Hn;
    simpl in Hrun; try discriminate.
  injection Hrun as <-. unfold notify in Hn.
  pose (Inv := fun (done : list wid) (t : State) =>
    wframe s t /\
    (forall x, parent s x <> Some w -> visibleDue s x -> visibleDue t x)).
  assert (HI : Inv ([] ++ childrenOf s w) t).
  { refine (forEach_invariant Inv _ _ [] s t _ _ Hn).
    - split; [apply wframe_refl|auto].
    - intros pre c s1 s2 [I1 I2] Hc Hstep.
      destruct (skipsHidden BeforeHide && isHidden s1 c).
      + injection Hstep as <-. split; assumption.
      + assert (Hf1 : wframe s (record (Sent c BeforeHide) s1)).
        { eapply wframe_trans; [exact I1|apply wframe_record]. }
        split.
        * eapply wframe_trans; [exact Hf1|].
          eapply processMessage_frame_ok; eauto. discriminate.
        * intros x Hx Hd.
          apply (IH c _ s2 (linked_wframe _ _ Hf1 Hlink) Hstep);
            [|apply (I2 x Hx Hd)].
          intros ->. apply Hx. now apply Hlink. }
  destruct HI as [I1 I2]. intros x Hxw Hd.
  destruct (decide (parent s x = Some w)) as [Hpw|Hpw].
  - intros _ _ Hp. exfalso. unfold parentVisible in Hp.
    simpl after in Hp.
    rewrite parent_clearFlag, (wframe_parent s t x I1), Hpw in Hp.
    unfold isVisible in Hp.
    rewrite testFlag_clearFlag_same in Hp. discriminate.
  - apply (visibleDue_other BeforeHide w t x);
      [exact Hxw| |apply (I2 x Hpw Hd)].
    now rewrite (wframe_parent s) by exact I1.
Qed.

(** A before-detach traversal leaves every widget due as before. *)
Lemma processMessage_detach_due fuel w s s' :
  processMessage fuel w BeforeDetach s = Ok s' ->
  forall x, visibleDue s x -> visibleDue s' x.
Proof.
  intros Hrun x Hd Ha Hh Hp.
  pose proof (processMessage_cleared _ _ _ _ Hrun) as Hc.
  pose proof (processMessage_fading _ _ _ _ _ (or_intror eq_refl) Hrun)
    as Hf.
  assert (Hfr : wframe s s')
    by (eapply processMessage_frame_ok; eauto; discriminate).
  destruct (Hc x) as [Hk|[_ Hna]]; [|congruence].
  unfold isVisible, isAttached, isHidden in *. rewrite Hk in *.
  apply Hd; auto.
  unfold parentVisible in *. rewrite (wframe_parent s) in Hp by exact Hfr.
  destruct (parent s x) as [p|]; [|reflexivity]. apply Hf, Hp.
Qed.

Lemma ranked_wframe rank s s' : wframe s s' -> ranked rank s -> ranked rank s'.
Proof.
  intros Hf Hr p c. rewrite (wframe_childrenOf s) by exact Hf. apply Hr.
Qed.

Lemma isVisible_before_show msg w s :
  msg = AfterShow \/ msg = AfterAttach ->
  willShow msg s w -> isVisible (before msg w s) w = true.
Proof.
  intros [->| ->] Hw; simpl; unfold isVisible.
  - apply testFlag_setFlag_same.
  - destruct Hw as [Hh Hp]. rewrite Hh, Hp. simpl.
    rewrite testFlag_setFlag_other by discriminate.
    apply testFlag_setFlag_same.
Qed.

(** An after-show or after-attach traversal from [w] makes [w] visible
    when it is to be shown, and leaves every other widget due as
    before. *)
Lemma processMessage_show_due rank fuel :
  forall w msg s s',
  msg = AfterShow \/ msg = AfterAttach ->
  ranked rank s -> linked s ->
  processMessage fuel w msg s = Ok s' ->
  (willShow msg s w -> isVisible s' w = true) /\
  (forall x, x <> w -> visibleDue s x -> visibleDue s' x).
Proof.
  induction fuel as [|fuel IH]; intros w msg s s' Hm Hr Hlink Hrun;
    [discriminate|].
  assert (Hnc : msg <> CloseRequest) by (destruct Hm; subst; discriminate).
  assert (Hlc : lifecycle msg) by (destruct Hm; subst; exact I).
  rewrite processMessage_lifecycle in Hrun by exact Hlc.
  destruct (notify fuel w msg (before msg w s)) as [t| |] eqn:Hn;
    simpl in Hrun; try discriminate.
  injection Hrun as <-.
  assert (Ha : after msg w t = t) by (destruct Hm; subst; reflexivity).
  rewrite Ha. clear Ha.
  assert (Hf0 : wframe s (before msg w s)) by apply wframe_before.
  pose proof (isVisible_before_show msg w s Hm) as Hvis0.
  pose proof (fun x Hxw Hpw =>
                visibleDue_other_before msg w s x Hxw Hpw) as Hdue0.
  unfold notify in Hn. rewrite (wframe_childrenOf s) in Hn by exact Hf0.
  revert Hf0 Hvis0 Hdue0 Hn. generalize (before msg w s). intros s0.
  intros Hf0 Hvis0 Hdue0 Hn.
  pose (Inv := fun (done : list wid) (t : State) =>
    wframe s t /\ growing s0 t /\ get t w = get s0 w /\
    (forall c, In c done -> isHidden s c = false ->
               isVisible s0 w = true -> isVisible t c = true) /\
    (forall x, x <> w -> parent s x <> Some w ->
               visibleDue s x -> visibleDue t x)).
  assert (HI : Inv ([] ++ childrenOf s w) t).
  { refine (forEach_invariant Inv _ _ [] s0 t _ _ Hn).
    - split; [exact Hf0|]. split; [apply growing_refl|].
      split; [reflexivity|]. split; [intros c []|exact Hdue0].
    - intros pre c s1 s2 (I1 & I2 & I3 & I4 & I5) Hc Hstep.
      destruct (skipsHidden msg && isHidden s1 c) eqn:Hskip.
      + injection Hstep as <-.
        split; [exact I1|]. split; [exact I2|]. split; [exact I3|].
        split; [|exact I5].
        intros c' Hc' Hh Hv. apply in_app_or in Hc'.
        destruct Hc' as [Hc'|[<-|[]]]; [auto|].
        apply andb_true_iff in Hskip. destruct Hskip as [_ Hskip].
        rewrite (wframe_isHidden s) in Hskip by exact I1. congruence.
      + assert (Hf1 : wframe s (record (Sent c msg) s1)).
        { eapply wframe_trans; [exact I1|apply wframe_record]. }
        assert (Hl1 : linked (record (Sent c msg) s1))
          by (eapply linked_wframe; eauto).
        assert (Hr1 : ranked rank (record (Sent c msg) s1))
          by (eapply ranked_wframe; eauto).
        destruct (IH c msg _ s2 Hm Hr1 Hl1 Hstep) as [HA HB].
        pose proof (processMessage_frame_ok _ _ _ _ _ Hnc Hstep) as Hf12.
        pose proof (processMessage_growing _ _ _ _ _ Hm Hstep) as Hgr.
        assert (Hpc : parent s c = Some w) by apply Hlink, Hc.
        assert (Hw2 : get s2 w = get s1 w).
        { rewrite (processMessage_local fuel c msg _ s2 Hnc Hl1 Hstep);
            [reflexivity|].
          intros Hd.
          apply (descends_same_parents _ s) in Hd;
            [|intros y; symmetry; now apply wframe_parent].
          pose proof (descends_rank rank s c w Hr Hlink Hd).
          specialize (Hr w c Hc). lia. }
        split; [eapply wframe_trans; eassumption|].
        split; [eapply growing_trans; [exact I2|exact Hgr]|].
        split; [now rewrite Hw2|]. split.
        * intros c' Hc' Hh Hv. apply in_app_or in Hc'.
          destruct Hc' as [Hc'|[<-|[]]]; [apply Hgr, (I4 c' Hc' Hh Hv)|].
          apply HA.
          assert (Hpv : parentVisible (record (Sent c msg) s1) c = true).
          { unfold parentVisible.
            rewrite (wframe_parent s _ c Hf1), Hpc.
            unfold isVisible, testFlag in *. rewrite get_record, I3.
            exact Hv. }
          assert (Hh1 : isHidden (record (Sent c msg) s1) c = false)
            by (rewrite (wframe_isHidden s _ c Hf1); exact Hh).
          destruct Hm as [->| ->]; [exact I|split; assumption].
        * intros x Hxw Hpw Hd. apply HB; [congruence|].
          apply (I5 x Hxw Hpw Hd). }
  destruct HI as (I1 & I2 & I3 & I4 & I5). split.
  - intros Hw. apply I2, Hvis0, Hw.
  - intros x Hxw Hd.
    destruct (decide (parent s x = Some w)) as [Hpw|Hpw];
      [|apply (I5 x Hxw Hpw Hd)].
    intros Hat Hh Hp. apply (I4 x).
    + simpl. now apply Hlink.
    + now rewrite (wframe_isHidden s) in Hh by exact I1.
    + unfold parentVisible in Hp.
      rewrite (wframe_parent s t x I1), Hpw in Hp.
      unfold isVisible, testFlag in *. now rewrite I3 in Hp.
Qed.

(** ** The second half of the invariant under the operations *)

Lemma steady_visibleDue s s' x :
  steady s s' -> visibleDue s x -> visibleDue s' x.
Proof.
  intros H. unfold visibleDue, isVisible, isAttached, isHidden.
  rewrite !(steady_testFlag s s'), (steady_parentVisible s s') by exact H.
  auto.
Qed.

Lemma visibleDue_hidden_set w s :
  (forall x, x <> w -> visibleDue s x) ->
  forall x, visibleDue (setFlag w IsHidden s) x.
Proof.
  intros Hd x Ha Hh Hp. unfold isAttached, isHidden, isVisible in *.
  rewrite testFlag_setFlag in Hh.
  destruct (decide (x = w /\ IsHidden = IsHidden)) as [_|Hn];
    [discriminate|].
  assert (Hxw : x <> w) by (intros ->; apply Hn; auto).
  rewrite testFlag_setFlag_other in * by discriminate.
  apply (Hd x Hxw); auto.
  unfold parentVisible in *. rewrite parent_setFlag in Hp.
  destruct (parent s x); [|reflexivity].
  unfold isVisible in *. now rewrite testFlag_setFlag_other in Hp.
Qed.

Lemma visibleDue_hidden_clear w s :
  (forall x, visibleDue s x) ->
  forall x, x <> w -> visibleDue (clearFlag w IsHidden s) x.
Proof.
  intros Hd x Hxw Ha Hh Hp. unfold isAttached, isHidden, isVisible in *.
  rewrite testFlag_clearFlag in Hh.
  destruct (decide (x = w /\ IsHidden = IsHidden)) as [[? _]|_];
    [contradiction|].
  rewrite testFlag_clearFlag_other in * by discriminate.
  apply (Hd x); auto.
  unfold parentVisible in *. rewrite parent_clearFlag in Hp.
  destruct (parent s x); [|reflexivity].
  unfold isVisible in *. now rewrite testFlag_clearFlag_other in Hp.
Qed.

(** A traversal keeps every flag but the visible and the attached one. *)
Lemma wframe_testFlag s s' x f :
  wframe s s' -> f <> IsVisible -> f <> IsAttached ->
  testFlag s' x f = testFlag s x f.
Proof. intros H Hv Ha. unfold testFlag. now apply (H x). Qed.

(** [hide], in full. *)
Lemma hide_view rank fuel w s :
  forest rank s -> settledView s ->
  match hide fuel w s with
  | Ok s' =>
    (forall x, visibleDue s' x) /\
    (forall x f, f <> IsVisible -> x <> w \/ f <> IsHidden ->
                 testFlag s' x f = testFlag s x f)
  | Thrown _ _ => False
  | OutOfFuel => (fuel <= rank w)%nat
  end.
Proof.
  intros (Hr & Hl & Hn) [Hs Hd]. unfold hide.
  destruct (testFlag s w IsHidden) eqn:Hh; [auto|].
  assert (H1 : match (if isAttached s w && parentVisible s w
                      then sendMessage fuel w BeforeHide s else Ok s) with
               | Ok s1 =>
                 wframe s s1 /\ (forall x, x <> w -> visibleDue s1 x) /\
                 (forall x, isAttached s1 x = isAttached s x)
               | Thrown _ _ => False
               | OutOfFuel => (fuel <= rank w)%nat
               end).
  { destruct (isAttached s w && parentVisible s w) eqn:E.
    - assert (Hnc : BeforeHide <> CloseRequest) by discriminate.
      pose proof (sendMessage_cases rank fuel w BeforeHide s Hnc Hr) as Hc.
      destruct (sendMessage fuel w BeforeHide s) as [s1| |]; auto.
      destruct Hc as [Hf Hrun]. split; [exact Hf|]. split.
      + intros x Hxw.
        apply (processMessage_hide_due fuel w
                 (record (Sent w BeforeHide) s) s1 Hl Hrun x Hxw).
        apply (Hd x).
      + apply (processMessage_keeps_attached _ _ _ _ _
                 (or_intror eq_refl) Hrun).
    - split; [apply wframe_refl|]. split; [intros x _; apply Hd|].
      reflexivity. }
  destruct (if isAttached s w && parentVisible s w
            then sendMessage fuel w BeforeHide s else Ok s) as [s1| |];
    simpl; [|contradiction|exact H1].
  destruct H1 as (Hf1 & Hd1 & Ha1).
  destruct (setHiddenClass_steady w true (setFlag w IsHidden s1))
    as (s2 & Hs2 & Hst2).
  { unfold setFlag. rewrite get_put_same. simpl.
    rewrite (wframe_node s) by exact Hf1. apply Hn. }
  rewrite Hs2. simpl.
  pose proof (tell_parent fuel w (ChildHidden w) s2 I) as Ht.
  destruct (match parent s2 w with
            | Some p => sendMessage fuel p (ChildHidden w) s2
            | None => Ok s2
            end) as [s'| |]; [|contradiction|subst; lia].
  assert (Hst : steady (setFlag w IsHidden s1) s')
    by (eapply steady_trans; eassumption).
  split.
  - intros x. eapply steady_visibleDue; [exact Hst|].
    now apply visibleDue_hidden_set.
  - intros x f Hfv Hcase.
    rewrite (steady_testFlag _ s' x f Hst), testFlag_setFlag.
    destruct (decide (x = w /\ f = IsHidden)) as [[-> ->]|_];
      [destruct Hcase; contradiction|].
    destruct (decide (f = IsAttached)) as [->|Hfa].
    + apply Ha1.
    + now apply wframe_testFlag.
Qed.

(** [show], in full. *)
Lemma show_view rank fuel w s :
  forest rank s -> settledView s ->
  match show fuel w s with
  | Ok s' =>
    (forall x, visibleDue s' x) /\
    (forall x f, f <> IsVisible -> x <> w \/ f <> IsHidden ->
                 testFlag s' x f = testFlag s x f)
  | Thrown _ _ => False
  | OutOfFuel => (fuel <= rank w)%nat
  end.
Proof.
  intros (Hr & Hl & Hn) [Hs Hd]. unfold show.
  destruct (testFlag s w IsHidden) eqn:Hh; simpl negb; cbv iota; [|auto].
  destruct (setHiddenClass_steady w false (clearFlag w IsHidden s))
    as (s1 & Hs1 & Hst1).
  { unfold clearFlag. rewrite get_put_same. simpl. apply Hn. }
  rewrite Hs1. simpl.
  assert (Hk1 : kin s s1).
  { eapply kin_trans; [apply kin_clearFlag|apply Hst1]. }
  destruct (forest_kin rank s s1 Hk1 (conj Hr (conj Hl Hn)))
    as (Hr1 & Hl1 & Hn1).
  assert (Hd1 : forall x, x <> w -> visibleDue s1 x).
  { intros x Hxw. eapply steady_visibleDue; [exact Hst1|].
    now apply visibleDue_hidden_clear. }
  assert (Hfl1 : forall x f, x <> w \/ f <> IsHidden ->
                             testFlag s1 x f = testFlag s x f).
  { intros x f Hcase.
    rewrite (steady_testFlag _ s1 x f Hst1), testFlag_clearFlag.
    destruct (decide (x = w /\ f = IsHidden)) as [[-> ->]|_];
      [destruct Hcase; contradiction|reflexivity]. }
  assert (H2 : match (if isAttached s1 w && parentVisible s1 w
                      then sendMessage fuel w AfterShow s1 else Ok s1) with
               | Ok s2 =>
                 wframe s1 s2 /\ (forall x, visibleDue s2 x) /\
                 (forall x, isAttached s2 x = isAttached s1 x)
               | Thrown _ _ => False
               | OutOfFuel => (fuel <= rank w)%nat
               end).
  { destruct (isAttached s1 w && parentVisible s1 w) eqn:E.
    - assert (Hnc : AfterShow <> CloseRequest) by discriminate.
      pose proof (sendMessage_cases rank fuel w AfterShow s1 Hnc Hr1) as Hc.
      destruct (sendMessage fuel w AfterShow s1) as [s2| |]; auto.
      destruct Hc as [Hf Hrun]. split; [exact Hf|].
      destruct (processMessage_show_due rank fuel w AfterShow
                  (record (Sent w AfterShow) s1) s2
                  (or_introl eq_refl) Hr1 Hl1 Hrun) as [Hw Hothers].
      split.
      + intros x. destruct (decide (x = w)) as [->|Hxw].
        * intros _ _ _. apply Hw. exact I.
        * apply Hothers; [exact Hxw|]. apply (Hd1 x Hxw).
      + apply (processMessage_keeps_attached _ _ _ _ _
                 (or_introl eq_refl) Hrun).
    - split; [apply wframe_refl|]. split; [|reflexivity].
      intros x. destruct (decide (x = w)) as [->|Hxw]; [|auto].
      intros Ha _ Hp. rewrite Ha, Hp in E. discriminate. }
  destruct (if isAttached s1 w && parentVisible s1 w
            then sendMessage fuel w AfterShow s1 else Ok s1) as [s2| |];
    simpl; [|contradiction|exact H2].
  destruct H2 as (Hf2 & Hd2 & Ha2).
  pose proof (tell_parent fuel w (ChildShown w) s2 I) as Ht.
  destruct (match parent s2 w with
            | Some p => sendMessage fuel p (ChildShown w) s2
            | None => Ok s2
            end) as [s'| |]; [|contradiction|subst; lia].
  split.
  - intros x. eapply steady_visibleDue; [exact Ht|apply Hd2].
  - intros x f Hfv Hcase. rewrite (steady_testFlag s2 s' x f Ht).
    rewrite <- (Hfl1 x f Hcase).
    destruct (decide (f = IsAttached)) as [->|Hfa].
    + apply Ha2.
    + now apply wframe_testFlag.
Qed.

(** [attach], in full: the call throws at once, or it returns. *)
Lemma attach_view rank fuel w hostInBody s :
  forest rank s -> settledView s ->
  match attach fuel w hostInBody s with
  | Ok s' =>
    parent s w = None /\ isAttached s w = false /\
    isAttached s' w = true /\
    (exists n, _node (get s' w) = Some n /\ inBody n = true) /\
    (forall x, visibleDue s' x) /\
    (forall x f, f <> IsVisible -> f <> IsAttached ->
                 testFlag s' x f = testFlag s x f) /\
    (forall x f, ~ descends s w x -> testFlag s' x f = testFlag s x f)
  | Thrown _ s' => s' = s
  | OutOfFuel => (fuel <= rank w)%nat
  end.
Proof.
  intros (Hr & Hl & Hn) [Hs Hd]. unfold attach.
  destruct (parent s w) as [p|] eqn:Hp; [reflexivity|].
  destruct (_node (get s w)) as [n|] eqn:Hnode.
  2:{ destruct (isAttached s w); [reflexivity|].
      destruct (negb hostInBody); reflexivity. }
  destruct (isAttached s w || inBody n) eqn:Hai; [reflexivity|].
  destruct (negb hostInBody); [reflexivity|].
  apply orb_false_iff in Hai. destruct Hai as [Ha Hin].
  set (s0 := put w (with_node (get s w) _) s).
  assert (Hst0 : steady s s0) by apply steady_node.
  destruct (forest_kin rank s s0 (proj1 Hst0) (conj Hr (conj Hl Hn)))
    as (Hr0 & Hl0 & Hn0).
  assert (Hnc : AfterAttach <> CloseRequest) by discriminate.
  pose proof (sendMessage_cases rank fuel w AfterAttach s0 Hnc Hr0) as Hc.
  destruct (sendMessage fuel w AfterAttach s0) as [s1| |];
    [|contradiction|exact Hc].
  destruct Hc as [Hf Hrun].
  split; [reflexivity|]. split; [exact Ha|].
  destruct (processMessage_attachment fuel w AfterAttach true
              (record (Sent w AfterAttach) s0) s1
              (or_intror (conj eq_refl eq_refl)) Hl0 Hrun) as [Hset _].
  destruct (processMessage_show_due rank fuel w AfterAttach
              (record (Sent w AfterAttach) s0) s1
              (or_intror eq_refl) Hr0 Hl0 Hrun) as [Hw Hothers].
  split; [exact Hset|]. split; [|split; [|split]].
  - rewrite (wframe_node s0 s1 w Hf). unfold s0. rewrite get_put_same.
    simpl. eexists. split; reflexivity.
  - intros x. destruct (decide (x = w)) as [->|Hxw].
    + intros _ Hh _. apply Hw. split.
      * change (isHidden s0 w = false).
        now rewrite <- (wframe_isHidden s0 s1 w Hf).
      * unfold parentVisible.
        change (parent (record (Sent w AfterAttach) s0) w)
          with (parent s0 w).
        now rewrite (steady_parent s s0 w Hst0), Hp.
    + apply Hothers; [exact Hxw|].
      apply (steady_visibleDue s s0 x Hst0), Hd.
  - intros x f Hfv Hfa. rewrite (wframe_testFlag s0 s1 x f Hf Hfv Hfa).
    apply (steady_testFlag s s0 x f Hst0).
  - intros x f Hx. unfold testFlag.
    rewrite (processMessage_local fuel w AfterAttach
               (record (Sent w AfterAttach) s0) s1 Hnc Hl0 Hrun).
    + rewrite get_record. apply (steady_testFlag s s0 x f Hst0).
    + intros Hd'. apply Hx.
      apply (descends_same_parents (record (Sent w AfterAttach) s0) s);
        [|exact Hd'].
      intros y. symmetry. apply (steady_parent s s0 y Hst0).
Qed.

(** [detach], in full. *)
Lemma detach_view rank fuel w s :
  forest rank s -> settledView s ->
  match detach fuel w s with
  | Ok s' =>
    parent s w = None /\ isAttached s w = true /\
    isAttached s' w = false /\
    (forall x, visibleDue s' x) /\
    (forall x f, f <> IsVisible -> f <> IsAttached ->
                 testFlag s' x f = testFlag s x f) /\
    (forall x f, ~ descends s w x -> testFlag s' x f = testFlag s x f)
  | Thrown _ s' => s' = s
  | OutOfFuel => (fuel <= rank w)%nat
  end.
Proof.
  intros (Hr & Hl & Hn) [Hs Hd]. unfold detach, detach_with.
  destruct (parent s w) as [p|] eqn:Hp; [reflexivity|].
  destruct (negb (isAttached s w)
            || negb match _node (get s w) with
                    | Some n => inBody n
                    | None => false
                    end) eqn:Hguard; [reflexivity|].
  apply orb_false_iff in Hguard. destruct Hguard as [Ha _].
  apply negb_false_iff in Ha.
  assert (Hnc : BeforeDetach <> CloseRequest) by discriminate.
  pose proof (sendMessage_cases rank fuel w BeforeDetach s Hnc Hr) as Hc.
  destruct (sendMessage fuel w BeforeDetach s) as [s1| |];
    [|contradiction|exact Hc].
  destruct Hc as [Hf Hrun]. simpl.
  destruct (_node (get s1 w)) as [n|] eqn:Hnode.
  2:{ exfalso. rewrite (wframe_node s s1 w Hf) in Hnode.
      now apply (Hn w). }
  set (s2 := put w (with_node (get s1 w) _) s1).
  assert (Hst2 : steady s1 s2) by apply steady_node.
  destruct (processMessage_detach_clears _ _ _ _ Hrun) as [Hca _].
  split; [reflexivity|]. split; [exact Ha|].
  split; [|split; [|split]].
  - unfold isAttached. now rewrite (steady_testFlag s1 s2 w _ Hst2).
  - intros x. apply (steady_visibleDue s1 s2 x Hst2).
    apply (processMessage_detach_due fuel w
             (record (Sent w BeforeDetach) s) s1 Hrun), Hd.
  - intros x f Hfv Hfa. rewrite (steady_testFlag s1 s2 x f Hst2).
    now apply wframe_testFlag.
  - intros x f Hx. rewrite (steady_testFlag s1 s2 x f Hst2).
    unfold testFlag.
    rewrite (processMessage_local fuel w BeforeDetach
               (record (Sent w BeforeDetach) s) s1 Hnc Hl Hrun);
      [reflexivity|].
    intros Hd'. apply Hx.
    apply (descends_same_parents (record (Sent w BeforeDetach) s) s);
      [reflexivity|exact Hd'].
Qed.

(** Every operation keeps both halves of the invariant. *)
Lemma run_view rank fuel o s s' :
  forest rank s -> settledView s -> settled (run fuel o s) = Some s' ->
  forest rank s' /\ settledView s'.
Proof.
  intros Hf Hv Hrun.
  destruct (run_settles rank fuel o s s' Hf (proj1 Hv) Hrun) as [Hk Hs'].
  split; [eapply forest_kin; eauto|]. split; [exact Hs'|].
  destruct o as [w host|w|w|w]; simpl in Hrun.
  - pose proof (attach_view rank fuel w host s Hf Hv) as H.
    destruct (attach fuel w host s); simpl in Hrun; [| |discriminate];
      injection Hrun as <-; [apply H|subst; apply Hv].
  - pose proof (detach_view rank fuel w s Hf Hv) as H.
    destruct (detach fuel w s); simpl in Hrun; [| |discriminate];
      injection Hrun as <-; [apply H|subst; apply Hv].
  - pose proof (show_view rank fuel w s Hf Hv) as H.
    destruct (show fuel w s); simpl in Hrun; [|contradiction|discriminate].
    injection Hrun as <-. apply H.
  - pose proof (hide_view rank fuel w s Hf Hv) as H.
    destruct (hide fuel w s); simpl in Hrun; [|contradiction|discriminate].
    injection Hrun as <-. apply H.
Qed.

Lemma reachable_view rank s0 s :
  forest rank s0 -> detached s0 -> reachable s0 s ->
  forest rank s /\ settledView s.
Proof.
  intros Hf Hd Hreach. induction Hreach as [|s fuel o s' _ [IHf IHv] Hstep].
  - split; [exact Hf|]. split; [apply detached_sound, Hd|].
    intros x Ha. rewrite (proj1 (Hd x)) in Ha. discriminate.
  - eapply run_view; eauto.
Qed.

(** ** Visibility, exactly *)

Lemma descends_decided s w x d :
  depth s x d -> descends s w x \/ ~ descends s w x.
Proof.
  intros Hd. induction Hd as [x Hx|x p n Hx _ IH].
  - destruct (decide (x = w)) as [->|Hne]; [left; constructor|].
    right. intros H. inversion H; subst; congruence.
  - destruct (decide (x = w)) as [->|Hne]; [left; constructor|].
    destruct IH as [IH|IH]; [left; econstructor; eauto|].
    right. intros H. inversion H as [|x' p' Hp' Hup]; subst; [congruence|].
    assert (p' = p) as -> by congruence. contradiction.
Qed.

Lemma attached_subtree s w x :
  sound s -> descends s w x -> isAttached s x = isAttached s w.
Proof.
  intros [Ha _] Hd. induction Hd as [|x p Hp _ IH]; [reflexivity|].
  now rewrite (Ha x p Hp).
Qed.

Lemma reachable_facts rank s0 s :
  forest rank s0 -> detached s0 -> reachable s0 s ->
  forest rank s /\ settledView s /\ kin s0 s.
Proof.
  intros Hf Hd Hreach.
  induction Hreach as [|s fuel o s' Hr (IHf & IHv & IHk) Hstep].
  - destruct (reachable_view rank s0 s0 Hf Hd (reachable_start s0))
      as [_ Hv].
    split; [exact Hf|]. split; [exact Hv|apply kin_refl].
  - destruct (run_view rank fuel o s s' IHf IHv Hstep) as [Hf' Hv'].
    destruct (run_settles rank fuel o s s' IHf (proj1 IHv) Hstep) as [Hk _].
    split; [exact Hf'|]. split; [exact Hv'|eapply kin_trans; eauto].
Qed.

Lemma grounded_kin s s' : kin s s' -> grounded s -> grounded s'.
Proof.
  intros Hk Hg x. destruct (Hg x) as [d Hd]. exists d.
  apply (depth_same_parents s s' x d); [|exact Hd].
  intros y. now apply kin_parent.
Qed.

(** With both halves of the invariant, the visible flag says what the
    attached and hidden flags up the chain of parents say. *)
Lemma visible_exact s x d :
  settledView s -> depth s x d ->
  (isVisible s x = true <->
   isAttached s x = true /\
   forall a, descends s a x -> isHidden s a = false).
Proof.
  intros [Hs Hdue] Hd. split.
  - intros Hv. split; [apply (proj2 Hs x Hv)|].
    intros a Ha. apply (sound_no_hidden s Hs a x Ha Hv).
  - intros [Ha Hh]. induction Hd as [x Hx|x p n Hx _ IH].
    + apply (Hdue x Ha); [apply Hh; constructor|].
      unfold parentVisible. now rewrite Hx.
    + apply (Hdue x Ha); [apply Hh; constructor|].
      unfold parentVisible. rewrite Hx. apply IH.
      * now rewrite <- (proj1 Hs x p Hx).
      * intros a Hap. apply Hh. econstructor; eauto.
Qed.

(** In every state reached from a detached forest by attaching,
    detaching, showing and hiding widgets, a widget with a finite chain
    of parents is visible exactly when it is attached and neither the
    widget nor any of its ancestors is explicitly hidden: the visible
    flag is never missing where it is due. *)
Theorem visibility_exact (rank : wid -> nat) (s0 s : State) (x : wid)
        (d : nat) :
  forest rank s0 -> detached s0 -> reachable s0 s -> depth s x d ->
  (isVisible s x = true <->
   isAttached s x = true /\
   forall a, descends s a x -> isHidden s a = false).
Proof.
  intros Hf Hd Hreach Hdepth.
  destruct (reachable_view rank s0 s Hf Hd Hreach) as [_ Hv].
  now apply (visible_exact s x d).
Qed.

Lemma chainAttached_depth : depth chainAttached 2 2.
Proof.
  apply (depth_child chainAttached 2 1 1); [reflexivity|].
  apply (depth_child chainAttached 1 0 0); [reflexivity|].
  apply depth_root. reflexivity.
Qed.

Lemma visibility_exact_witness :
  isVisible chainAttached 2 = true <->
  isAttached chainAttached 2 = true /\
  forall a, descends chainAttached a 2 -> isHidden chainAttached a = false.
Proof.
  apply (visibility_exact chainRank chain chainAttached 2 2).
  - exact chain_forest.
  - exact chain_detached.
  - exact chain_reaches.
  - exact chainAttached_depth.
Defined.

(** ** Hiding and showing again *)

Lemma bool_iff_eq (a b : bool) : (a = true <-> b = true) -> a = b.
Proof.
  destruct a, b; intros [H1 H2]; try reflexivity;
    [symmetry; now apply H1|now apply H2].
Qed.

(** In such a state, hiding a widget that is not hidden and showing it
    again returns, with fuel for the tree below it, and restores every
    flag of every widget, the visible flags of its descendants
    included; parents and layouts are as before. *)
Theorem hide_show_round_trip (rank : wid -> nat) (s0 s : State) (w : wid)
        (fuel : nat) :
  forest rank s0 -> detached s0 -> grounded s0 -> reachable s0 s ->
  isHidden s w = false -> (rank w < fuel)%nat ->
  exists s1 s2,
    setHidden fuel w true s = Ok s1 /\
    setHidden fuel w false s1 = Ok s2 /\
    isHidden s1 w = true /\ sameFlags s s2.
Proof.
  intros Hf Hd Hg Hreach Hw Hfuel. unfold setHidden.
  destruct (reachable_facts rank s0 s Hf Hd Hreach) as (Hfs & Hvs & Hk0).
  pose proof (grounded_kin s0 s Hk0 Hg) as Hgs.
  pose proof (hide_spec rank fuel w s Hfs (proj1 Hvs)) as H1.
  pose proof (hide_view rank fuel w s Hfs Hvs) as H1'.
  destruct (hide fuel w s) as [s1| |] eqn:E1; [|contradiction|lia].
  destruct H1 as (Hk1 & Hs1 & Hh1 & Ho1). destruct H1' as [Hd1 Hfl1].
  assert (Hf1 : forest rank s1) by (eapply forest_kin; eauto).
  assert (Hv1 : settledView s1) by (split; assumption).
  pose proof (show_spec rank fuel w s1 Hf1 Hs1) as H2.
  pose proof (show_view rank fuel w s1 Hf1 Hv1) as H2'.
  destruct (show fuel w s1) as [s2| |] eqn:E2; [|contradiction|lia].
  destruct H2 as (Hk2 & Hs2 & Hh2 & Ho2). destruct H2' as [Hd2 Hfl2].
  exists s1, s2. split; [reflexivity|]. split; [exact E2|].
  split; [exact Hh1|].
  assert (Hk : kin s s2) by (eapply kin_trans; eauto).
  assert (Hhid : forall a, isHidden s2 a = isHidden s a).
  { intros a. destruct (decide (a = w)) as [->|Ha]; [congruence|].
    rewrite (Ho2 a Ha). now apply Ho1. }
  assert (Hatt : forall a, isAttached s2 a = isAttached s a).
  { intros a. unfold isAttached.
    rewrite Hfl2 by (try discriminate; right; discriminate).
    apply Hfl1; try discriminate. right. discriminate. }
  intros x. split; [now apply kin_parent|split; [apply (Hk x)|]].
  intros f. destruct (decide (f = IsVisible)) as [->|Hfv].
  - destruct (Hgs x) as [d Hdx].
    assert (Hdx2 : depth s2 x d).
    { apply (depth_same_parents s s2 x d); [|exact Hdx].
      intros y. now apply kin_parent. }
    apply bool_iff_eq.
    change (isVisible s2 x = true <-> isVisible s x = true).
    rewrite (visible_exact s2 x d (conj Hs2 Hd2) Hdx2).
    rewrite (visible_exact s x d Hvs Hdx).
    rewrite Hatt. split; intros [Ha Hh]; (split; [exact Ha|]); intros a Hda.
    + rewrite <- Hhid. apply Hh.
      apply (descends_same_parents s s2); [|exact Hda].
      intros y. now apply kin_parent.
    + rewrite Hhid. apply Hh.
      apply (descends_same_parents s2 s); [|exact Hda].
      intros y. symmetry. now apply kin_parent.
  - destruct (decide (f = IsHidden)) as [->|Hfh]; [apply Hhid|].
    rewrite Hfl2 by (auto; right; exact Hfh).
    apply Hfl1; auto.
Qed.

Lemma hide_show_round_trip_witness :
  exists s1 s2,
    setHidden 3 0 true chainAttached = Ok s1 /\
    setHidden 3 0 false s1 = Ok s2 /\
    isHidden s1 0 = true /\ sameFlags chainAttached s2.
Proof.
  apply (hide_show_round_trip chainRank chain chainAttached 0 3).
  - exact chain_forest.
  - exact chain_detached.
  - exact chain_grounded.
  - exact chain_reaches.
  - reflexivity.
  - unfold chainRank. lia.
Defined.

(** ** Attaching and detaching a tree *)

Lemma descends_root_depth s w x :
  parent s w = None -> descends s w x -> exists d, depth s x d.
Proof.
  intros Hw Hd. induction Hd as [|x p Hp _ [d IH]].
  - exists 0%nat. now apply depth_root.
  - exists (S d). eapply depth_child; eauto.
Qed.

Lemma descends_kin s s' w x : kin s s' -> descends s w x <-> descends s' w x.
Proof.
  intros Hk. split; intros Hd.
  - apply (descends_same_parents s s'); [|exact Hd].
    intros y. now apply kin_parent.
  - apply (descends_same_parents s' s); [|exact Hd].
    intros y. symmetry. now apply kin_parent.
Qed.

(** [attach] returns for a root with a node outside the document. *)
Lemma attach_to_document rank fuel w s n :
  forest rank s -> parent s w = None -> isAttached s w = false ->
  _node (get s w) = Some n -> inBody n = false -> (rank w < fuel)%nat ->
  exists s', attach fuel w true s = Ok s' /\
             _node (get s' w) = Some (mkNode true (classHidden n)).
Proof.
  intros Hf Hp Ha Hnode Hin Hfuel. unfold attach.
  rewrite Hp, Hnode, Ha, Hin. simpl.
  set (s0 := put w (with_node (get s w) _) s).
  assert (Hst0 : steady s s0) by apply steady_node.
  destruct (forest_kin rank s s0 (proj1 Hst0) Hf) as (Hr0 & _).
  assert (Hnc : AfterAttach <> CloseRequest) by discriminate.
  pose proof (sendMessage_cases rank fuel w AfterAttach s0 Hnc Hr0) as Hc.
  destruct (sendMessage fuel w AfterAttach s0) as [s1| |];
    [|contradiction|lia].
  exists s1. split; [reflexivity|].
  rewrite (wframe_node s0 s1 w (proj1 Hc)). unfold s0.
  now rewrite get_put_same.
Qed.

(** [detach] returns for an attached root with a node in the document. *)
Lemma detach_from_document rank fuel w s n :
  forest rank s -> parent s w = None -> isAttached s w = true ->
  _node (get s w) = Some n -> inBody n = true -> (rank w < fuel)%nat ->
  exists s', detach fuel w s = Ok s' /\
             _node (get s' w) = Some (mkNode false (classHidden n)).
Proof.
  intros (Hr & Hl & Hn) Hp Ha Hnode Hin Hfuel. unfold detach, detach_with.
  rewrite Hp, Hnode, Ha, Hin. simpl.
  assert (Hnc : BeforeDetach <> CloseRequest) by discriminate.
  pose proof (sendMessage_cases rank fuel w BeforeDetach s Hnc Hr) as Hc.
  destruct (sendMessage fuel w BeforeDetach s) as [s1| |];
    [|contradiction|lia].
  simpl. rewrite (wframe_node s s1 w (proj1 Hc)), Hnode.
  eexists. split; [reflexivity|]. now rewrite get_put_same.
Qed.

(** After attaching the root [w] to a host in the document, every widget
    of its tree is attached, and is visible exactly when neither it nor
    an ancestor of it is explicitly hidden; the flags of the widgets
    outside the tree are left alone. *)
Theorem attach_cascade (rank : wid -> nat) (s0 s : State) (w : wid)
        (n : Node) (fuel : nat) :
  forest rank s0 -> detached s0 -> reachable s0 s ->
  parent s w = None -> isAttached s w = false ->
  _node (get s w) = Some n -> inBody n = false -> (rank w < fuel)%nat ->
  exists s',
    attach fuel w true s = Ok s' /\
    (forall x, descends s w x ->
       isAttached s' x = true /\
       (isVisible s' x = true <->
        forall a, descends s a x -> isHidden s a = false)) /\
    (forall x f, ~ descends s w x -> testFlag s' x f = testFlag s x f).
Proof.
  intros Hf0 Hd0 Hreach Hp Ha Hnode Hin Hfuel.
  destruct (reachable_facts rank s0 s Hf0 Hd0 Hreach) as (Hf & Hv & _).
  destruct (attach_to_document rank fuel w s n Hf Hp Ha Hnode Hin Hfuel)
    as (s' & E & _).
  pose proof (attach_view rank fuel w true s Hf Hv) as Hview.
  pose proof (attach_settles rank fuel w true s s' Hf (proj1 Hv)) as Hset.
  rewrite E in Hview, Hset.
  destruct (Hset eq_refl) as [Hk Hs'].
  destruct Hview as (_ & _ & Ha' & _ & Hdue & Hfl & Hout).
  exists s'. split; [exact E|]. split; [|exact Hout].
  intros x Hx.
  assert (Hx' : descends s' w x) by now apply (descends_kin s s').
  assert (Hax : isAttached s' x = true)
    by now rewrite (attached_subtree s' w x Hs' Hx').
  split; [exact Hax|].
  destruct (descends_root_depth s' w x) as [d Hd]; [|exact Hx'|].
  { now rewrite (kin_parent s s' w Hk). }
  rewrite (visible_exact s' x d (conj Hs' Hdue) Hd).
  split.
  - intros [_ Hh] a Hda. unfold isHidden. rewrite <- Hfl by discriminate.
    apply Hh. now apply (descends_kin s s').
  - intros Hh. split; [exact Hax|]. intros a Hda.
    unfold isHidden. rewrite Hfl by discriminate.
    apply Hh. now apply (descends_kin s s').
Qed.

Lemma attach_cascade_witness :
  exists s',
    attach 3 0 true chain = Ok s' /\
    (forall x, descends chain 0 x ->
       isAttached s' x = true /\
       (isVisible s' x = true <->
        forall a, descends chain a x -> isHidden chain a = false)) /\
    (forall x f, ~ descends chain 0 x -> testFlag s' x f = testFlag chain x f).
Proof.
  apply (attach_cascade chainRank chain chain 0 (mkNode false false) 3).
  - exact chain_forest.
  - exact chain_detached.
  - apply reachable_start.
  - reflexivity.
  - reflexivity.
  - reflexivity.
  - reflexivity.
  - unfold chainRank. lia.
Defined.

(** After detaching the attached root [w], no widget of its tree is
    attached or visible; the other flags of every widget, and all flags
    of the widgets outside the tree, are left alone. *)
Theorem detach_cascade (rank : wid -> nat) (s0 s : State) (w : wid)
        (n : Node) (fuel : nat) :
  forest rank s0 -> detached s0 -> reachable s0 s ->
  parent s w = None -> isAttached s w = true ->
  _node (get s w) = Some n -> inBody n = true -> (rank w < fuel)%nat ->
  exists s',
    detach fuel w s = Ok s' /\
    (forall x, descends s w x ->
       isAttached s' x = false /\ isVisible s' x = false) /\
    (forall x f, f <> IsVisible -> f <> IsAttached ->
                 testFlag s' x f = testFlag s x f) /\
    (forall x f, ~ descends s w x -> testFlag s' x f = testFlag s x f).
Proof.
  intros Hf0 Hd0 Hreach Hp Ha Hnode Hin Hfuel.
  destruct (reachable_facts rank s0 s Hf0 Hd0 Hreach) as (Hf & Hv & _).
  destruct (detach_from_document rank fuel w s n Hf Hp Ha Hnode Hin Hfuel)
    as (s' & E & _).
  pose proof (detach_view rank fuel w s Hf Hv) as Hview.
  pose proof (detach_settles rank fuel w s s' Hf (proj1 Hv)) as Hset.
  rewrite E in Hview, Hset.
  destruct (Hset eq_refl) as [Hk Hs'].
  destruct Hview as (_ & _ & Ha' & Hdue & Hfl & Hout).
  exists s'. split; [exact E|]. split; [|split; [exact Hfl|exact Hout]].
  intros x Hx.
  assert (Hx' : descends s' w x) by now apply (descends_kin s s').
  assert (Hax : isAttached s' x = false)
    by now rewrite (attached_subtree s' w x Hs' Hx').
  split; [exact Hax|].
  destruct (isVisible s' x) eqn:Hvis; [|reflexivity].
  destruct (proj2 Hs' x Hvis) as [Hax' _]. congruence.
Qed.

Lemma detach_cascade_witness :
  exists s',
    detach 3 0 chainAttached = Ok s' /\
    (forall x, descends chainAttached 0 x ->
       isAttached s' x = false /\ isVisible s' x = false) /\
    (forall x f, f <> IsVisible -> f <> IsAttached ->
                 testFlag s' x f = testFlag chainAttached x f) /\
    (forall x f, ~ descends chainAttached 0 x ->
                 testFlag s' x f = testFlag chainAttached x f).
Proof.
  apply (detach_cascade chainRank chain chainAttached 0 (mkNode true false) 3).
  - exact chain_forest.
  - exact chain_detached.
  - exact chain_reaches.
  - reflexivity.
  - reflexivity.
  - reflexivity.
  - reflexivity.
  - unfold chainRank. lia.
Defined.

(** ** Round trips *)

(** Two settled states with the same tree agree on every flag once they
    agree on the attachment of a root [w], on the flags outside its tree
    and on the flags that are not derived. *)
Lemma flags_restored s s2 w :
  kin s s2 -> grounded s -> settledView s -> settledView s2 ->
  isAttached s2 w = isAttached s w ->
  (forall x f, f <> IsVisible -> f <> IsAttached ->
               testFlag s2 x f = testFlag s x f) ->
  (forall x f, ~ descends s w x -> testFlag s2 x f = testFlag s x f) ->
  sameFlags s s2.
Proof.
  intros Hk Hg Hv Hv2 Hw Hfl Hout.
  assert (Hatt : forall a, isAttached s2 a = isAttached s a).
  { intros a. destruct (Hg a) as [d Hd].
    destruct (descends_decided s w a d Hd) as [Hin|Hno].
    - rewrite (attached_subtree s w a (proj1 Hv) Hin).
      rewrite (attached_subtree s2 w a (proj1 Hv2)); [exact Hw|].
      now apply (descends_kin s s2).
    - now apply Hout. }
  assert (Hhid : forall a, isHidden s2 a = isHidden s a)
    by (intros a; apply Hfl; discriminate).
  intros x. split; [now apply kin_parent|split; [apply (Hk x)|]].
  intros f. destruct (decide (f = IsVisible)) as [->|Hfv].
  - destruct (Hg x) as [d Hdx].
    assert (Hdx2 : depth s2 x d).
    { apply (depth_same_parents s s2 x d); [|exact Hdx].
      intros y. now apply kin_parent. }
    apply bool_iff_eq.
    change (isVisible s2 x = true <-> isVisible s x = true).
    rewrite (visible_exact s2 x d Hv2 Hdx2).
    rewrite (visible_exact s x d Hv Hdx).
    rewrite Hatt. split; intros [Ha Hh]; (split; [exact Ha|]); intros a Hda.
    + rewrite <- Hhid. apply Hh. now apply (descends_kin s s2).
    + rewrite Hhid. apply Hh. now apply (descends_kin s s2).
  - destruct (decide (f = IsAttached)) as [->|Hfa]; [apply Hatt|].
    now apply Hfl.
Qed.

(** Detaching an attached root and attaching it again returns, with fuel
    for its tree, and restores every flag of every widget, the visible
    flags of the whole tree included. *)
Theorem detach_attach_round_trip (rank : wid -> nat) (s0 s : State)
        (w : wid) (n : Node) (fuel : nat) :
  forest rank s0 -> detached s0 -> grounded s0 -> reachable s0 s ->
  parent s w = None -> isAttached s w = true ->
  _node (get s w) = Some n -> inBody n = true -> (rank w < fuel)%nat ->
  exists s1 s2,
    detach fuel w s = Ok s1 /\ attach fuel w true s1 = Ok s2 /\
    isAttached s1 w = false /\ sameFlags s s2 /\
    _node (get s2 w) = _node (get s w).
Proof.
  intros Hf0 Hd0 Hg0 Hreach Hp Ha Hnode Hin Hfuel.
  destruct (reachable_facts rank s0 s Hf0 Hd0 Hreach) as (Hf & Hv & Hk0).
  pose proof (grounded_kin s0 s Hk0 Hg0) as Hg.
  destruct (detach_from_document rank fuel w s n Hf Hp Ha Hnode Hin Hfuel)
    as (s1 & E1 & Hn1).
  pose proof (detach_view rank fuel w s Hf Hv) as Hview1.
  pose proof (detach_settles rank fuel w s s1 Hf (proj1 Hv)) as Hset1.
  rewrite E1 in Hview1, Hset1.
  destruct (Hset1 eq_refl) as [Hk1 Hs1].
  destruct Hview1 as (_ & _ & Ha1 & Hdue1 & Hfl1 & Hout1).
  assert (Hf1 : forest rank s1) by (eapply forest_kin; eauto).
  assert (Hp1 : parent s1 w = None) by now rewrite (kin_parent s s1 w Hk1).
  destruct (attach_to_document rank fuel w s1 _ Hf1 Hp1 Ha1 Hn1 eq_refl Hfuel)
    as (s2 & E2 & Hn2).
  pose proof (attach_view rank fuel w true s1 Hf1 (conj Hs1 Hdue1)) as Hview2.
  pose proof (attach_settles rank fuel w true s1 s2 Hf1 Hs1) as Hset2.
  rewrite E2 in Hview2, Hset2.
  destruct (Hset2 eq_refl) as [Hk2 Hs2].
  destruct Hview2 as (_ & _ & Ha2 & _ & Hdue2 & Hfl2 & Hout2).
  exists s1, s2. split; [exact E1|]. split; [exact E2|].
  split; [exact Ha1|]. split.
  - apply (flags_restored s s2 w).
    + eapply kin_trans; eauto.
    + exact Hg.
    + exact Hv.
    + split; assumption.
    + congruence.
    + intros x f Hfv Hfa. rewrite Hfl2 by assumption. now apply Hfl1.
    + intros x f Hx. rewrite Hout2; [now apply Hout1|].
      intros Hd. apply Hx. now apply (descends_kin s s1).
  - rewrite Hn2, Hnode. simpl. destruct n as [b c]. simpl in *. now subst.
Qed.

Lemma detach_attach_round_trip_witness :
  exists s1 s2,
    detach 3 0 chainAttached = Ok s1 /\ attach 3 0 true s1 = Ok s2 /\
    isAttached s1 0 = false /\ sameFlags chainAttached s2 /\
    _node (get s2 0) = _node (get chainAttached 0).
Proof.
  apply (detach_attach_round_trip chainRank chain chainAttached 0
           (mkNode true false) 3).
  - exact chain_forest.
  - exact chain_detached.
  - exact chain_grounded.
  - exact chain_reaches.
  - reflexivity.
  - reflexivity.
  - reflexivity.
  - reflexivity.
  - unfold chainRank. lia.
Defined.

(** Attaching a root and detaching it again returns, with fuel for its
    tree, and leaves no trace in the flags of any widget; the node of
    the root is out of the document again. *)
Theorem attach_detach_round_trip (rank : wid -> nat) (s0 s : State)
        (w : wid) (n : Node) (fuel : nat) :
  forest rank s0 -> detached s0 -> grounded s0 -> reachable s0 s ->
  parent s w = None -> isAttached s w = false ->
  _node (get s w) = Some n -> inBody n = false -> (rank w < fuel)%nat ->
  exists s1 s2,
    attach fuel w true s = Ok s1 /\ detach fuel w s1 = Ok s2 /\
    isAttached s1 w = true /\ sameFlags s s2 /\
    _node (get s2 w) = _node (get s w).
Proof.
  intros Hf0 Hd0 Hg0 Hreach Hp Ha Hnode Hin Hfuel.
  destruct (reachable_facts rank s0 s Hf0 Hd0 Hreach) as (Hf & Hv & Hk0).
  pose proof (grounded_kin s0 s Hk0 Hg0) as Hg.
  destruct (attach_to_document rank fuel w s n Hf Hp Ha Hnode Hin Hfuel)
    as (s1 & E1 & Hn1).
  pose proof (attach_view rank fuel w true s Hf Hv) as Hview1.
  pose proof (attach_settles rank fuel w true s s1 Hf (proj1 Hv)) as Hset1.
  rewrite E1 in Hview1, Hset1.
  destruct (Hset1 eq_refl) as [Hk1 Hs1].
  destruct Hview1 as (_ & _ & Ha1 & _ & Hdue1 & Hfl1 & Hout1).
  assert (Hf1 : forest rank s1) by (eapply forest_kin; eauto).
  assert (Hp1 : parent s1 w = None) by now rewrite (kin_parent s s1 w Hk1).
  destruct (detach_from_document rank fuel w s1 _ Hf1 Hp1 Ha1 Hn1 eq_refl Hfuel)
    as (s2 & E2 & Hn2).
  pose proof (detach_view rank fuel w s1 Hf1 (conj Hs1 Hdue1)) as Hview2.
  pose proof (detach_settles rank fuel w s1 s2 Hf1 Hs1) as Hset2.
  rewrite E2 in Hview2, Hset2.
  destruct (Hset2 eq_refl) as [Hk2 Hs2].
  destruct Hview2 as (_ & _ & Ha2 & Hdue2 & Hfl2 & Hout2).
  exists s1, s2. split; [exact E1|]. split; [exact E2|].
  split; [exact Ha1|]. split.
  - apply (flags_restored s s2 w).
    + eapply kin_trans; eauto.
    + exact Hg.
    + exact Hv.
    + split; assumption.
    + congruence.
    + intros x f Hfv Hfa. rewrite Hfl2 by assumption. now apply Hfl1.
    + intros x f Hx. rewrite Hout2; [now apply Hout1|].
      intros Hd. apply Hx. now apply (descends_kin s s1).
  - rewrite Hn2, Hnode. simpl. destruct n as [b c]. simpl in *. now subst.
Qed.

Lemma attach_detach_round_trip_witness :
  exists s1 s2,
    attach 3 0 true chain = Ok s1 /\ detach 3 0 s1 = Ok s2 /\
    isAttached s1 0 = true /\ sameFlags chain s2 /\
    _node (get s2 0) = _node (get chain 0).
Proof.
  apply (attach_detach_round_trip chainRank chain chain 0
           (mkNode false false) 3).
  - exact chain_forest.
  - exact chain_detached.
  - exact chain_grounded.
  - apply reachable_start.
  - reflexivity.
  - reflexivity.
  - reflexivity.
  - reflexivity.
  - unfold chainRank. lia.
Defined.

Import BoxEngine Split SizerSpec SplitOps.
Local Open Scope Q_scope.

(** ** Setting the sizes *)

Lemma setSizesLoop_fields zs vs :
  map minSize (setSizesLoop zs vs) = map minSize zs /\
  map maxSize (setSizesLoop zs vs) = map maxSize zs /\
  map stretch (setSizesLoop zs vs) = map stretch zs.
Proof.
  revert vs. induction zs as [|z zs IH]; intros vs; [auto|].
  destruct vs as [|v vs]; [auto|]. simpl.
  destruct (IH vs) as (-> & -> & ->). auto.
Qed.

Lemma setSizesLoop_values (f : BoxSizer -> Q) zs vs :
  (forall z v, f (set_size (set_sizeHint z v) v) = v) ->
  map f (setSizesLoop zs vs)
  = map (Qmax 0) (take (length zs) vs) ++ drop (length vs) (map f zs).
Proof.
  intros Hf. revert vs. induction zs as [|z zs IH]; intros vs.
  - simpl. now rewrite drop_nil.
  - destruct vs as [|v vs]; [reflexivity|]. simpl.
    now rewrite Hf, IH.
Qed.

(** [sizes()] after [setSizes(sizes)]: the given sizes, none below zero,
    for as many sizers as there are values, the old sizes for the rest;
    the hints are set alike, values in excess are ignored, the limits and
    the stretch factors are kept, and an update is requested from the
    parent, if there is one. *)
Theorem setSizes_sizes (L : SplitLayout) (vs : list Q) :
  let L' := setSizes L vs in
  let n := length (_sizers L) in
  sizes L' = map (Qmax 0) (take n vs) ++ drop (length vs) (sizes L) /\
  map sizeHint (_sizers L')
  = map (Qmax 0) (take n vs) ++ drop (length vs) (map sizeHint (_sizers L)) /\
  map minSize (_sizers L') = map minSize (_sizers L) /\
  map maxSize (_sizers L') = map maxSize (_sizers L) /\
  map stretch (_sizers L') = map stretch (_sizers L) /\
  (length vs = n -> sizes L' = map (Qmax 0) vs) /\
  posted L' = (if hasParent L then posted L ++ [PostUpdateRequest]
               else posted L).
Proof.
  cbv zeta. unfold setSizes, sizes. rewrite requestUpdate_sizers.
  cbn [set_sizers _sizers].
  destruct (setSizesLoop_fields (_sizers L) vs) as (Hmin & Hmax & Hst).
  assert (Hsz : map size (setSizesLoop (_sizers L) vs)
                = map (Qmax 0) (take (length (_sizers L)) vs)
                  ++ drop (length vs) (map size (_sizers L)))
    by (apply setSizesLoop_values; reflexivity).
  split; [exact Hsz|]. split; [apply setSizesLoop_values; reflexivity|].
  split; [exact Hmin|]. split; [exact Hmax|]. split; [exact Hst|]. split.
  - intros Hlen. rewrite Hsz, <- Hlen, firstn_all.
    rewrite drop_ge by (rewrite length_map; lia). apply app_nil_r.
  - unfold requestUpdate. cbn [set_sizers hasParent posted].
    destruct (hasParent L); reflexivity.
Qed.

(** ** The spacing *)

Lemma Qfloor_max_nonneg v : 0 <= Qmax 0 (inject_Z (Qfloor v)).
Proof. apply Q.le_max_l. Qed.

(** The setter of [spacing] stores [max(0, floor(value))], a whole number
    that is not negative; it changes nothing and posts nothing when that
    is the spacing already, so that setting the same value again is a
    no-op; otherwise one fit request goes to the parent, if there is
    one, and nothing but the spacing is written. *)
Theorem set_spacing_settles (L : SplitLayout) (value : Q) :
  let target := Qmax 0 (inject_Z (Qfloor value)) in
  let L' := set_spacing L value in
  _spacing L' == target /\ 0 <= _spacing L' /\
  (exists k : Z, _spacing L' == inject_Z k) /\
  set_spacing L' value = L' /\
  (_spacing L == target -> L' = L) /\
  (~ _spacing L == target ->
   L' = (if hasParent L then fit (with_spacing L target)
         else with_spacing L target)).
Proof.
  cbv zeta. unfold set_spacing.
  set (target := Qmax 0 (inject_Z (Qfloor value))).
  assert (Hint : exists k : Z, target == inject_Z k).
  { unfold target. destruct (Qmax_cases 0 (inject_Z (Qfloor value)))
      as [[_ H]|[_ H]]; [exists (Qfloor value)|exists 0%Z];
      rewrite H; reflexivity. }
  assert (Hnn : 0 <= target) by apply Qfloor_max_nonneg.
  destruct (Qeq_bool (_spacing L) target) eqn:E.
  - apply Qeq_bool_iff in E. rewrite (proj2 (Qeq_bool_iff _ _) E).
    split; [exact E|]. split; [rewrite E; exact Hnn|].
    split; [destruct Hint as [k Hk]; exists k; now rewrite E|].
    split; [reflexivity|]. split; [reflexivity|]. intros H. now elim H.
  - assert (Hne : ~ _spacing L == target).
    { intros H. apply Qeq_bool_iff in H. congruence. }
    assert (Hsp : _spacing (if hasParent (with_spacing L target)
                            then fit (with_spacing L target)
                            else with_spacing L target) = target).
    { cbn [with_spacing hasParent]. destruct (hasParent L); reflexivity. }
    rewrite Hsp.
    rewrite (proj2 (Qeq_bool_iff target target) (Qeq_refl target)).
    split; [reflexivity|]. split; [exact Hnn|]. split; [exact Hint|].
    split; [reflexivity|]. split; [intros H; now elim Hne|].
    intros _. reflexivity.
Qed.

(** ** The mean size *)

Lemma fold_size_from (zs : list BoxSizer) (a : Q) :
  fold_left (fun v s => v + size s) zs a == a + Qsum (map size zs).
Proof.
  revert a. induction zs as [|z zs IH]; intros a; simpl.
  - unfold Qsum. simpl. lra.
  - rewrite IH. unfold Qsum. simpl. lra.
Qed.

Lemma inject_nat_pos (n : nat) :
  (0 < n)%nat -> 0 < inject_Z (Z.of_nat n).
Proof. intros H. unfold Qlt. simpl. lia. Qed.



(** ** Class names *)

Lemma contains_app cl1 cl2 name :
  ClassList.contains (cl1 ++ cl2) name
  = ClassList.contains cl1 name || ClassList.contains cl2 name.
Proof. unfold ClassList.contains. apply existsb_app. Qed.

Lemma contains_add cl name other :
  ClassList.contains (ClassList.add cl name) other
  = ClassList.contains cl other || String.eqb other name.
Proof.
  unfold ClassList.add.
  destruct (ClassList.contains cl name) eqn:E.
  - destruct (String.eqb_spec other name) as [->|_];
      [rewrite E|]; now rewrite ?orb_false_r.
  - rewrite contains_app. simpl. now rewrite orb_false_r.
Qed.

Lemma contains_remove cl name other :
  ClassList.contains (ClassList.remove cl name) other
  = ClassList.contains cl other && negb (String.eqb other name).
Proof.
  unfold ClassList.remove, ClassList.contains.
  induction cl as [|c cl IH]; simpl; [reflexivity|].
  destruct (String.eqb_spec name c) as [Hnc|Hnc]; simpl; rewrite IH.
  - destruct (String.eqb_spec other c) as [Hoc|Hoc]; simpl; [|reflexivity].
    destruct (String.eqb_spec other name) as [_|Hon]; simpl;
      [apply andb_false_r|congruence].
  - destruct (String.eqb_spec other c) as [Hoc|Hoc]; simpl; [|reflexivity].
    destruct (String.eqb_spec other name) as [Hon|_]; simpl;
      [congruence|reflexivity].
Qed.

(** [toggleClass] returns whether the node has the class afterwards: the
    forced value when there is one, the opposite of what it was
    otherwise; no other class name is added or removed; on a released
    node it is a [TypeError]. *)
Theorem toggleClass_result (cl : list string) (name : string)
        (force : option bool) :
  match ClassList.toggleClass (Some cl) name force with
  | Some (r, cl') =>
    ClassList.hasClass (Some cl') name = Some r /\
    r = match force with
        | Some b => b
        | None => negb (ClassList.contains cl name)
        end /\
    forall other, other <> name ->
      ClassList.contains cl' other = ClassList.contains cl other
  | None => False
  end /\
  ClassList.toggleClass None name force = None.
Proof.
  split; [|reflexivity].
  assert (Hadd : forall other, other <> name ->
            ClassList.contains (ClassList.add cl name) other
            = ClassList.contains cl other).
  { intros other Hne. rewrite contains_add.
    destruct (String.eqb_spec other name); [contradiction|].
    apply orb_false_r. }
  assert (Hrem : forall other, other <> name ->
            ClassList.contains (ClassList.remove cl name) other
            = ClassList.contains cl other).
  { intros other Hne. rewrite contains_remove.
    destruct (String.eqb_spec other name); [contradiction|].
    apply andb_true_r. }
  assert (Hin : ClassList.contains (ClassList.add cl name) name = true).
  { rewrite contains_add, String.eqb_refl. apply orb_true_r. }
  assert (Hout : ClassList.contains (ClassList.remove cl name) name = false).
  { rewrite contains_remove, String.eqb_refl. apply andb_false_r. }
  unfold ClassList.toggleClass, ClassList.toggle, ClassList.hasClass.
  destruct force as [[|]|].
  - rewrite Hin. auto.
  - rewrite Hout. auto.
  - destruct (ClassList.contains cl name); [rewrite Hout|rewrite Hin]; auto.
Qed.

Lemma toggleOrientation_oriented cl o :
  exists cl', toggleOrientation (Some cl) o = Some cl' /\ oriented cl' o /\
    forall other, other <> ClassList.HORIZONTAL_CLASS ->
                  other <> ClassList.VERTICAL_CLASS ->
                  ClassList.contains cl' other = ClassList.contains cl other.
Proof.
  unfold toggleOrientation.
  pose proof (proj1 (toggleClass_result cl ClassList.HORIZONTAL_CLASS
                       (Some (sameOrientation o Horizontal)))) as H1.
  destruct (ClassList.toggleClass (Some cl) ClassList.HORIZONTAL_CLASS
              (Some (sameOrientation o Horizontal))) as [[r1 cl1]|];
    [|contradiction].
  destruct H1 as (Hh1 & -> & Ho1).
  pose proof (proj1 (toggleClass_result cl1 ClassList.VERTICAL_CLASS
                       (Some (sameOrientation o Vertical)))) as H2.
  destruct (ClassList.toggleClass (Some cl1) ClassList.VERTICAL_CLASS
              (Some (sameOrientation o Vertical))) as [[r2 cl2]|];
    [|contradiction].
  destruct H2 as (Hh2 & -> & Ho2).
  exists cl2. split; [reflexivity|]. split; [split|].
  - rewrite Ho2 by discriminate. simpl in Hh1. congruence.
  - simpl in Hh2. congruence.
  - intros other Hh Hv. rewrite Ho2, Ho1; auto.
Qed.

(** The setter of [orientation] of a layout that has a parent keeps the
    orientation classes of the parent node in step: afterwards the node
    has the horizontal class exactly when the layout is horizontal and
    the vertical class exactly when it is vertical, no other class is
    touched, and one fit request is posted when the orientation has
    changed, none otherwise. *)
Theorem set_orientation_classes (L : SplitLayout) (cl : list string)
        (value : Orientation) :
  hasParent L = true -> oriented cl (_orientation L) ->
  exists L' cl',
    set_orientation L (Some cl) value = Some (L', Some cl') /\
    _orientation L' = value /\ oriented cl' value /\
    (forall other, other <> ClassList.HORIZONTAL_CLASS ->
                   other <> ClassList.VERTICAL_CLASS ->
                   ClassList.contains cl' other
                   = ClassList.contains cl other) /\
    _sizers L' = _sizers L /\
    posted L' = (if sameOrientation (_orientation L) value then posted L
                 else posted L ++ [PostFitRequest]).
Proof.
  intros Hp Hor. unfold set_orientation.
  destruct (sameOrientation (_orientation L) value) eqn:E.
  - exists L, cl. assert (Hv : _orientation L = value).
    { destruct (_orientation L), value; try discriminate; reflexivity. }
    rewrite <- Hv. auto 10.
  - cbn [with_orientation hasParent]. rewrite Hp.
    destruct (toggleOrientation_oriented cl value) as (cl' & -> & Ho & Hk).
    eexists _, cl'. split; [reflexivity|]. auto 10.
Qed.

Lemma set_orientation_classes_witness :
  exists L' cl',
    set_orientation
      (mkLayout [] [] Horizontal 3 0 false true [])
      (Some ["p-SplitPanel"; "p-mod-horizontal"]%string) Vertical
    = Some (L', Some cl') /\
    _orientation L' = Vertical /\ oriented cl' Vertical /\
    (forall other, other <> ClassList.HORIZONTAL_CLASS ->
                   other <> ClassList.VERTICAL_CLASS ->
                   ClassList.contains cl' other
                   = ClassList.contains
                       ["p-SplitPanel"; "p-mod-horizontal"]%string other) /\
    _sizers L' = [] /\
    posted L' = [PostFitRequest].
Proof.
  apply (set_orientation_classes
           (mkLayout [] [] Horizontal 3 0 false true [])
           ["p-SplitPanel"; "p-mod-horizontal"]%string Vertical).
  - reflexivity.
  - split; reflexivity.
Defined.

(** ** Boundaries that cannot move *)

Lemma Num_min_le (d : Q) (g : num) : Num.min d g <= d.
Proof. destruct g as [g|]; simpl; [apply Q.le_min_l|lra]. Qed.

(** Nothing moves for a delta that is not positive, nor at the boundary
    after the last sizer, whatever the delta: [growSizer] and
    [shrinkSizer] return with every sizer as it was. *)
Theorem nothing_to_move (zs : list BoxSizer) (i : nat) (d : Q) :
  (i < length zs)%nat ->
  d <= 0 \/ S i = length zs ->
  growSizer zs i d = Some zs /\ shrinkSizer zs i d = Some zs.
Proof.
  intros Hi Hcase. unfold growSizer, shrinkSizer.
  destruct (Nat.ltb_spec i (length zs)) as [_|]; [|lia]. cbv zeta.
  assert (Hback : reverse (reverse (take (S i) zs)) ++ drop (S i) zs = zs).
  { rewrite reverse_involutive. apply take_drop. }
  assert (Hg : Qmin (Num.min d (accGrowRoom (take (S i) zs)))
                    (accShrinkRoom (drop (S i) zs)) <= 0).
  { destruct Hcase as [Hd|Hlast].
    - eapply Qle_trans; [apply Q.le_min_l|].
      eapply Qle_trans; [apply Num_min_le|exact Hd].
    - rewrite drop_ge by lia. apply Q.le_min_r. }
  assert (Hs : Qmin (Num.min d (accGrowRoom (drop (S i) zs)))
                    (accShrinkRoom (take (S i) zs)) <= 0).
  { destruct Hcase as [Hd|Hlast].
    - eapply Qle_trans; [apply Q.le_min_l|].
      eapply Qle_trans; [apply Num_min_le|exact Hd].
    - rewrite drop_ge by lia. eapply Qle_trans; [apply Q.le_min_l|].
      apply Q.le_min_r. }
  rewrite !growLoop_nonpos, !shrinkLoop_nonpos by assumption.
  rewrite Hback. auto.
Qed.

Lemma nothing_to_move_witness :
  growSizer drag_sizers 1 1000 = Some drag_sizers /\
  shrinkSizer drag_sizers 1 1000 = Some drag_sizers.
Proof.
  apply (nothing_to_move drag_sizers 1 1000).
  - simpl. lia.
  - right. reflexivity.
Defined.

(** ** Moving a handle to where it is *)

Lemma pinHint_idem z : pinHint (pinHint z) = pinHint z.
Proof.
  unfold pinHint. destruct (Qlt_le_dec 0 (size z)) as [H|H]; simpl.
  - destruct (Qlt_le_dec 0 (size z)); [reflexivity|lra].
  - destruct (Qlt_le_dec 0 (size z)); [lra|reflexivity].
Qed.

Lemma set_sizeHint_pinHint z w v :
  set_sizeHint (pinHint (set_sizeHint z w)) v = set_sizeHint z v.
Proof. unfold pinHint. simpl. now destruct (Qlt_le_dec 0 (size z)). Qed.

Lemma growRoom_pinHint z w :
  growRoom (pinHint (set_sizeHint z w)) = growRoom z.
Proof. unfold pinHint. simpl. now destruct (Qlt_le_dec 0 (size z)). Qed.

Lemma shrinkRoom_pinHint z w :
  shrinkRoom (pinHint (set_sizeHint z w)) = shrinkRoom z.
Proof. unfold pinHint. simpl. now destruct (Qlt_le_dec 0 (size z)). Qed.

Lemma size_pinHint z w : size (pinHint (set_sizeHint z w)) = size z.
Proof. unfold pinHint. simpl. now destruct (Qlt_le_dec 0 (size z)). Qed.

Lemma map_pinned zs : Forall (fun z => pinHint z = z) zs -> map pinHint zs = zs.
Proof.
  induction 1 as [|z zs Hz _ IH]; [reflexivity|]. simpl. now rewrite Hz, IH.
Qed.

(** Running a loop again on its pinned result writes the same hints. *)
Lemma growLoop_again zs :
  Forall (fun z => pinHint z = z) zs ->
  forall g, growLoop g (map pinHint (growLoop g zs)) = growLoop g zs.
Proof.
  induction 1 as [|z zs Hz Hzs IH]; intros g; [reflexivity|].
  simpl. destruct (Qlt_le_dec 0 g) as [Hg|Hg].
  - destruct (growRoom z) as [limit|] eqn:Hroom.
    + destruct (Qle_bool g limit) eqn:Hle; simpl;
        destruct (Qlt_le_dec 0 g); try lra;
        rewrite growRoom_pinHint, Hroom, Hle, set_sizeHint_pinHint,
          size_pinHint, IH; reflexivity.
    + simpl. destruct (Qlt_le_dec 0 g); try lra.
      rewrite growRoom_pinHint, Hroom, set_sizeHint_pinHint, size_pinHint, IH.
      reflexivity.
  - simpl. rewrite Hz, (map_pinned zs Hzs).
    destruct (Qlt_le_dec 0 g); [lra|reflexivity].
Qed.

Lemma shrinkLoop_again zs :
  Forall (fun z => pinHint z = z) zs ->
  forall g, shrinkLoop g (map pinHint (shrinkLoop g zs)) = shrinkLoop g zs.
Proof.
  induction 1 as [|z zs Hz Hzs IH]; intros g; [reflexivity|].
  simpl. destruct (Qlt_le_dec 0 g) as [Hg|Hg].
  - destruct (Qle_bool g (shrinkRoom z)) eqn:Hle; simpl;
      destruct (Qlt_le_dec 0 g); try lra;
      rewrite shrinkRoom_pinHint, Hle, set_sizeHint_pinHint,
        size_pinHint, IH; reflexivity.
  - simpl. rewrite Hz, (map_pinned zs Hzs).
    destruct (Qlt_le_dec 0 g); [lra|reflexivity].
Qed.

(** The limits read sizes and bounds only. *)
Lemma accGrowRoom_frame a b :
  Forall2 frame a b -> accGrowRoom b = accGrowRoom a.
Proof.
  intros H. unfold accGrowRoom. generalize (Fin 0).
  induction H as [|x y a b (Hmin & Hmax & Hst & Hsz) _ IH]; intros acc;
    [reflexivity|].
  simpl. replace (growRoom y) with (growRoom x)
    by (unfold growRoom; now rewrite Hmax, Hsz).
  apply IH.
Qed.

Lemma accShrinkRoom_frame a b :
  Forall2 frame a b -> accShrinkRoom b = accShrinkRoom a.
Proof.
  intros H. unfold accShrinkRoom. generalize 0.
  induction H as [|x y a b (Hmin & Hmax & Hst & Hsz) _ IH]; intros acc;
    [reflexivity|].
  simpl. replace (shrinkRoom y) with (shrinkRoom x)
    by (unfold shrinkRoom; now rewrite Hmin, Hsz).
  apply IH.
Qed.

Lemma Forall_pinned zs : Forall (fun z => pinHint z = z) (map pinHint zs).
Proof.
  induction zs as [|z zs IH]; simpl; [apply List.Forall_nil|].
  apply List.Forall_cons; [apply pinHint_idem|exact IH].
Qed.

Lemma Forall_pinned_take n zs :
  Forall (fun z => pinHint z = z) zs ->
  Forall (fun z => pinHint z = z) (take n zs).
Proof. apply Forall_take. Qed.

Section Again.

Variable zs : list BoxSizer.
Variable i : nat.
Variable d : Q.
Hypothesis Hpinned : Forall (fun z => pinHint z = z) zs.

Let left := take (S i) zs.
Let right := drop (S i) zs.

Lemma again_parts (f h : Q -> list BoxSizer -> list BoxSizer) (e : Q) :
  (forall l, length (f e l) = length l) ->
  (i < length zs)%nat ->
  take (S i) (map pinHint (reverse (f e (reverse left)) ++ h e right))
  = map pinHint (reverse (f e (reverse left))) /\
  drop (S i) (map pinHint (reverse (f e (reverse left)) ++ h e right))
  = map pinHint (h e right).
Proof.
  intros Hlen Hi.
  assert (Hl : length (map pinHint (reverse (f e (reverse left)))) = S i).
  { rewrite length_map, length_reverse, Hlen, length_reverse.
    unfold left. rewrite length_take. lia. }
  rewrite map_app. split.
  - rewrite take_app_length'; [reflexivity|now symmetry].
  - rewrite drop_app_length'; [reflexivity|now symmetry].
Qed.

Lemma growSizer_again zs1 :
  growSizer zs i d = Some zs1 -> growSizer (map pinHint zs1) i d = Some zs1.
Proof.
  unfold growSizer. destruct (Nat.ltb_spec i (length zs)) as [Hi|];
    [|discriminate].
  cbv zeta. fold left right. intros [= <-].
  set (e := Qmin (Num.min d (accGrowRoom left)) (accShrinkRoom right)).
  destruct (again_parts growLoop shrinkLoop e (growLoop_length e) Hi)
    as [Ht Hd].
  rewrite length_map, length_app, length_reverse, growLoop_length,
    length_reverse, shrinkLoop_length.
  unfold left at 1, right at 1. rewrite length_take, length_drop.
  destruct (Nat.ltb_spec i (S i `min` length zs + (length zs - S i)))
    as [_|]; [|lia].
  rewrite Ht, Hd.
  assert (Hgl : accGrowRoom (map pinHint (reverse (growLoop e (reverse left))))
                = accGrowRoom left).
  { apply accGrowRoom_frame.
    eapply Forall2_frame_trans; [|apply map_pinHint_frame].
    apply (Forall2_frame_reverse_loop (growLoop e)).
    intros l. apply growLoop_frame. }
  assert (Hsl : accShrinkRoom (map pinHint (shrinkLoop e right))
                = accShrinkRoom right).
  { apply accShrinkRoom_frame.
    eapply Forall2_frame_trans; [apply shrinkLoop_frame|].
    apply map_pinHint_frame. }
  rewrite Hgl, Hsl. fold e.
  rewrite <- map_reverse, reverse_involutive.
  rewrite growLoop_again, shrinkLoop_again; [reflexivity| |].
  - apply Forall_drop, Hpinned.
  - apply Forall_reverse, Forall_take, Hpinned.
Qed.

Lemma shrinkSizer_again zs1 :
  shrinkSizer zs i d = Some zs1 ->
  shrinkSizer (map pinHint zs1) i d = Some zs1.
Proof.
  unfold shrinkSizer. destruct (Nat.ltb_spec i (length zs)) as [Hi|];
    [|discriminate].
  cbv zeta. fold left right. intros [= <-].
  set (e := Qmin (Num.min d (accGrowRoom right)) (accShrinkRoom left)).
  destruct (again_parts shrinkLoop growLoop e (shrinkLoop_length e) Hi)
    as [Ht Hd].
  rewrite length_map, length_app, length_reverse, shrinkLoop_length,
    length_reverse, growLoop_length.
  unfold left at 1, right at 1. rewrite length_take, length_drop.
  destruct (Nat.ltb_spec i (S i `min` length zs + (length zs - S i)))
    as [_|]; [|lia].
  rewrite Ht, Hd.
  assert (Hsl : accShrinkRoom
                  (map pinHint (reverse (shrinkLoop e (reverse left))))
                = accShrinkRoom left).
  { apply accShrinkRoom_frame.
    eapply Forall2_frame_trans; [|apply map_pinHint_frame].
    apply (Forall2_frame_reverse_loop (shrinkLoop e)).
    intros l. apply shrinkLoop_frame. }
  assert (Hgl : accGrowRoom (map pinHint (growLoop e right))
                = accGrowRoom right).
  { apply accGrowRoom_frame.
    eapply Forall2_frame_trans; [apply growLoop_frame|].
    apply map_pinHint_frame. }
  rewrite Hgl, Hsl. fold e.
  rewrite <- map_reverse, reverse_involutive.
  rewrite growLoop_again, shrinkLoop_again; [reflexivity| |].
  - apply Forall_reverse, Forall_take, Hpinned.
  - apply Forall_drop, Hpinned.
Qed.

End Again.

Lemma requestUpdate_handles L : _handles (requestUpdate L) = _handles L.
Proof. unfold requestUpdate. now destruct (hasParent L). Qed.

Lemma requestUpdate_orientation L :
  _orientation (requestUpdate L) = _orientation L.
Proof. unfold requestUpdate. now destruct (hasParent L). Qed.

(** Moving a handle again to the position it has just been moved to,
    before the next update pass, writes the same hints: the second call
    returns with the sizers of the first. *)
Theorem setHandlePosition_again (L : SplitLayout) (index : Z)
        (position : Q) :
  match setHandlePosition L index position with
  | Returned L1 =>
    match setHandlePosition L1 index position with
    | Returned L2 => _sizers L2 = _sizers L1 /\ _handles L2 = _handles L1
    | TypeError _ => False
    end
  | TypeError _ => True
  end.
Proof.
  unfold setHandlePosition at 1.
  destruct (at_ (_handles L) index) as [handle|] eqn:Hat.
  2:{ unfold setHandlePosition. rewrite Hat. auto. }
  destruct (hidden handle) eqn:Hh.
  { unfold setHandlePosition. rewrite Hat, Hh. auto. }
  destruct (Qeq_bool (handleDelta (_orientation L) handle position) 0) eqn:Hz.
  { unfold setHandlePosition. rewrite Hat, Hh, Hz. auto. }
  set (delta := handleDelta (_orientation L) handle position) in *.
  set (pinned := map pinHint (_sizers L)).
  assert (Hpin : Forall (fun z => pinHint z = z) pinned)
    by apply Forall_pinned.
  assert (Hnext : forall zs1,
    (if Qlt_le_dec 0 delta then growSizer pinned (Z.to_nat index) delta
     else shrinkSizer pinned (Z.to_nat index) (- delta)) = Some zs1 ->
    match setHandlePosition (requestUpdate (set_sizers L zs1)) index position
    with
    | Returned L2 =>
      _sizers L2 = _sizers (requestUpdate (set_sizers L zs1)) /\
      _handles L2 = _handles (requestUpdate (set_sizers L zs1))
    | TypeError _ => False
    end).
  { intros zs1 Hzs1. unfold setHandlePosition.
    rewrite requestUpdate_handles, requestUpdate_orientation,
      requestUpdate_sizers.
    cbn [set_sizers _handles _orientation _sizers].
    rewrite Hat, Hh. fold delta. rewrite Hz.
    destruct (Qlt_le_dec 0 delta).
    - rewrite (growSizer_again pinned _ _ Hpin zs1 Hzs1).
      rewrite !requestUpdate_sizers, !requestUpdate_handles.
      cbn [set_sizers _sizers _handles].
      now rewrite requestUpdate_handles.
    - rewrite (shrinkSizer_again pinned _ _ Hpin zs1 Hzs1).
      rewrite !requestUpdate_sizers, !requestUpdate_handles.
      cbn [set_sizers _sizers _handles].
      now rewrite requestUpdate_handles. }
  destruct (if Qlt_le_dec 0 delta
            then growSizer pinned (Z.to_nat index) delta
            else shrinkSizer pinned (Z.to_nat index) (- delta))
    as [zs1|]; [|exact I].
  apply Hnext. reflexivity.
Qed.

(** ** Growing is shrinking seen from the other end *)

Lemma alike_refl z : alike z z.
Proof. split; [apply frame_refl|reflexivity]. Qed.

Lemma Forall2_alike_refl zs : Forall2 alike zs zs.
Proof. induction zs; constructor; auto using alike_refl. Qed.

Lemma alike_set_sizeHint z v v' :
  v == v' -> alike (set_sizeHint z v) (set_sizeHint z v').
Proof.
  intros H. split; [repeat split|]. simpl. now symmetry.
Qed.

Lemma Qle_bool_eq a a' b : a == a' -> Qle_bool a b = Qle_bool a' b.
Proof.
  intros H. destruct (Qle_bool a b) eqn:E1, (Qle_bool a' b) eqn:E2;
    try reflexivity.
  - apply Qle_bool_iff in E1. apply Qle_bool_false in E2. lra.
  - apply Qle_bool_iff in E2. apply Qle_bool_false in E1. lra.
Qed.

(** The loops depend on the amount as a number. *)
Lemma growLoop_proper zs :
  forall g g', g == g' -> Forall2 alike (growLoop g zs) (growLoop g' zs).
Proof.
  induction zs as [|z zs IH]; intros g g' Hg; [constructor|].
  simpl. destruct (Qlt_le_dec 0 g), (Qlt_le_dec 0 g'); try lra.
  - destruct (growRoom z) as [limit|].
    + rewrite (Qle_bool_eq g g' limit Hg).
      destruct (Qle_bool g' limit); constructor.
      * apply alike_set_sizeHint. lra.
      * apply Forall2_alike_refl.
      * apply alike_refl.
      * apply IH. lra.
    + constructor; [apply alike_set_sizeHint; lra|apply Forall2_alike_refl].
  - apply Forall2_alike_refl.
Qed.

Lemma shrinkLoop_proper zs :
  forall g g', g == g' -> Forall2 alike (shrinkLoop g zs) (shrinkLoop g' zs).
Proof.
  induction zs as [|z zs IH]; intros g g' Hg; [constructor|].
  simpl. destruct (Qlt_le_dec 0 g), (Qlt_le_dec 0 g'); try lra.
  - rewrite (Qle_bool_eq g g' (shrinkRoom z) Hg).
    destruct (Qle_bool g' (shrinkRoom z)); constructor.
    + apply alike_set_sizeHint. lra.
    + apply Forall2_alike_refl.
    + apply alike_refl.
    + apply IH. lra.
  - apply Forall2_alike_refl.
Qed.

Lemma accGrowRoom_reverse zs :
  Num.eq (accGrowRoom zs) (accGrowRoom (reverse zs)).
Proof.
  eapply Num_eq_trans; [apply accGrowRoom_sum|].
  apply Num_eq_sym. eapply Num_eq_trans; [apply accGrowRoom_sum|].
  rewrite map_reverse. apply Num_sum_reverse.
Qed.

Lemma accShrinkRoom_reverse zs :
  accShrinkRoom zs == accShrinkRoom (reverse zs).
Proof.
  rewrite !accShrinkRoom_sum, map_reverse, Qsum_reverse. reflexivity.
Qed.

Section Mirror.

Variable zs : list BoxSizer.
Variable i : nat.
Hypothesis Hi : (S i < length zs)%nat.

Lemma mirror_left :
  take (S (length zs - 2 - i)) (reverse zs) = reverse (drop (S i) zs).
Proof. rewrite take_reverse. f_equal. f_equal. lia. Qed.

Lemma mirror_right :
  drop (S (length zs - 2 - i)) (reverse zs) = reverse (take (S i) zs).
Proof. rewrite drop_reverse. f_equal. f_equal. lia. Qed.

Lemma mirror_index : (length zs - 2 - i <? length (reverse zs))%nat = true.
Proof. rewrite length_reverse. apply Nat.ltb_lt. lia. Qed.

End Mirror.



(** ** The fit pass *)

(** The first loop counts the widgets that are not hidden. *)
Lemma fitHandlesLoop_count (widgets : list FitItem) :
  forall i hs last nv hs' last' nv',
  fitHandlesLoop i (map (fun w => mkChild (itemHidden w)) widgets)
                 hs last nv = Some (hs', last', nv') ->
  nv' = (nv + length (shown widgets))%nat.
Proof.
  induction widgets as [|w rest IH]; intros i hs last nv hs' last' nv' Hrun.
  - simpl in Hrun. injection Hrun as _ _ <-. simpl. lia.
  - simpl in Hrun. destruct (hs !! i) as [h|]; [|discriminate].
    unfold shown. simpl. destruct (itemHidden w); simpl.
    + apply IH in Hrun. exact Hrun.
    + apply IH in Hrun. rewrite Hrun. unfold shown. lia.
Qed.

Lemma fitHandles_count (widgets : list FitItem) (handles : list Handle) :
  (length widgets <= length handles)%nat ->
  exists hs, fitHandles (map (fun w => mkChild (itemHidden w)) widgets)
                        handles
             = Some (hs, length (shown widgets)).
Proof.
  intros Hlen. unfold fitHandles.
  destruct (fitHandlesLoop_runs
              (map (fun w => mkChild (itemHidden w)) widgets) 0 handles
              None 0) as [[[hs last] nv] Hrun];
    [rewrite length_map; simpl; lia|].
  rewrite Hrun. apply fitHandlesLoop_count in Hrun. subst nv.
  eexists. reflexivity.
Qed.

(** The second loop, sizer by sizer. *)
Lemma fitSizersLoop_spec (horz : bool) (widgets : list FitItem) :
  forall i sizers b,
  (i + length widgets <= length sizers)%nat ->
  exists sizers',
    fitSizersLoop horz i widgets sizers b
    = Some (sizers', fold_left (fun b w => fitBounds horz w b) widgets b) /\
    length sizers' = length sizers /\
    (forall k w z, widgets !! k = Some w -> sizers !! (i + k)%nat = Some z ->
                   sizers' !! (i + k)%nat = Some (fitSizer horz w z)) /\
    (forall m, (m < i)%nat \/ (i + length widgets <= m)%nat ->
               sizers' !! m = sizers !! m).
Proof.
  induction widgets as [|w rest IH]; intros i sizers b Hlen.
  - exists sizers. simpl. repeat split; auto. intros k w z Hk. discriminate.
  - simpl in Hlen. simpl.
    destruct (lookup_lt_is_Some_2 sizers i) as [z Hz]; [lia|]. rewrite Hz.
    destruct (IH (S i) (<[i := fitSizer horz w z]> sizers)
                 (fitBounds horz w b)) as (sizers' & Hrun & Hl & Hat & Hkeep).
    { rewrite length_insert. lia. }
    exists sizers'. split; [exact Hrun|].
    rewrite length_insert in Hl. split; [exact Hl|]. split.
    + intros [|k] w0 z0 Hw0 Hz0; simpl in Hw0.
      * injection Hw0 as <-. rewrite Nat.add_0_r in *.
        assert (z0 = z) as -> by congruence.
        rewrite Hkeep by lia. apply list_lookup_insert_eq. lia.
      * replace (i + S k)%nat with (S i + k)%nat in * by lia.
        apply (Hat k w0 z0 Hw0).
        rewrite list_lookup_insert_ne by lia. exact Hz0.
    + intros m Hm. rewrite Hkeep by lia.
      apply list_lookup_insert_ne. lia.
Qed.



(** *** The size constraints of the parent *)

Lemma Num_add_eq a a' b b' :
  Num.eq a a' -> Num.eq b b' -> Num.eq (Num.add a b) (Num.add a' b').
Proof.
  destruct a, a', b, b'; simpl; try contradiction; try exact (fun _ _ => I);
    intros; lra.
Qed.

Lemma Num_add_assoc a b c :
  Num.eq (Num.add (Num.add a b) c) (Num.add a (Num.add b c)).
Proof. destruct a, b, c; simpl; try exact I; lra. Qed.

Lemma Num_add_0_r a : Num.eq (Num.add a (Fin 0)) a.
Proof. destruct a; simpl; [lra|exact I]. Qed.

Lemma numMin_le_l a b : numLe (numMin a b) a.
Proof.
  destruct a as [x|]; simpl.
  - destruct b as [y|]; simpl; [apply Q.le_min_l|lra].
  - destruct b; simpl; [exact I|reflexivity].
Qed.

Lemma numMin_le_r a b : numLe (numMin a b) b.
Proof.
  destruct a as [x|]; simpl.
  - destruct b as [y|]; simpl; [apply Q.le_min_r|exact I].
  - destruct b as [y|]; simpl; [lra|reflexivity].
Qed.

Lemma numLe_trans a b c : numLe a b -> numLe b c -> numLe a c.
Proof.
  destruct a as [x|], b as [y|], c as [z|]; simpl; intros H1 H2;
    try exact I; try discriminate; try contradiction; auto; lra.
Qed.

Lemma numLe_refl a : numLe a a.
Proof. destruct a; simpl; [lra|reflexivity]. Qed.

Lemma numLe_add a b (c : Q) :
  numLe a b -> numLe (Num.add a (Fin c)) (Num.add b (Fin c)).
Proof.
  destruct a as [x|], b as [y|]; simpl; intros H;
    try exact I; try discriminate; auto; lra.
Qed.

Section Fold.

Variable horz : bool.

Let step := fun (b : Bounds) (w : FitItem) => fitBounds horz w b.

Lemma fold_alongMin widgets : forall b,
  alongMin horz (fold_left step widgets b)
  == alongMin horz b
     + Qsum (map (fun w => minAlong horz (itemLimits w)) (shown widgets)).
Proof.
  induction widgets as [|w rest IH]; intros b.
  - unfold Qsum. simpl. lra.
  - simpl. rewrite IH. unfold step, fitBounds, shown. simpl.
    destruct (itemHidden w); simpl; [lra|].
    unfold Qsum, alongMin, minAlong. destruct horz; simpl; lra.
Qed.

Lemma fold_alongMax widgets : forall b,
  Num.eq (alongMax horz (fold_left step widgets b))
         (Num.add (alongMax horz b)
            (Num.sum (map (fun w => maxAlong horz (itemLimits w))
                          (shown widgets)))).
Proof.
  induction widgets as [|w rest IH]; intros b.
  - simpl. apply Num_eq_sym, Num_add_0_r.
  - simpl. eapply Num_eq_trans; [apply IH|].
    unfold step, fitBounds, shown. simpl.
    destruct (itemHidden w); simpl; [apply Num_eq_refl|].
    eapply Num_eq_trans; [|apply Num_add_assoc].
    apply Num_add_eq; [|apply Num_eq_refl].
    unfold alongMax, maxAlong. destruct horz; simpl; apply Num_eq_refl.
Qed.

Lemma fold_acrossMin widgets : forall b,
  acrossMin horz b <= acrossMin horz (fold_left step widgets b) /\
  Forall (fun w => minAcross horz (itemLimits w)
                   <= acrossMin horz (fold_left step widgets b))
         (shown widgets).
Proof.
  induction widgets as [|w rest IH]; intros b.
  - simpl. split; [lra|constructor].
  - simpl. destruct (IH (step b w)) as [H1 H2].
    assert (Hs : acrossMin horz b <= acrossMin horz (step b w) /\
                 (itemHidden w = false ->
                  minAcross horz (itemLimits w)
                  <= acrossMin horz (step b w))).
    { unfold step, fitBounds, acrossMin, minAcross.
      destruct (itemHidden w); [split; [lra|discriminate]|].
      destruct horz; simpl;
        (split; [apply Q.le_max_l|intros _; apply Q.le_max_r]). }
    destruct Hs as [Hs1 Hs2]. split; [lra|].
    unfold shown. simpl. destruct (itemHidden w); simpl; [exact H2|].
    constructor; [|exact H2]. specialize (Hs2 eq_refl). lra.
Qed.

Lemma fold_acrossMax widgets : forall b,
  numLe (acrossMax horz (fold_left step widgets b)) (acrossMax horz b) /\
  Forall (fun w => numLe (acrossMax horz (fold_left step widgets b))
                         (maxAcross horz (itemLimits w)))
         (shown widgets).
Proof.
  induction widgets as [|w rest IH]; intros b.
  - simpl. split; [apply numLe_refl|constructor].
  - simpl. destruct (IH (step b w)) as [H1 H2].
    assert (Hs : numLe (acrossMax horz (step b w)) (acrossMax horz b) /\
                 (itemHidden w = false ->
                  numLe (acrossMax horz (step b w))
                        (maxAcross horz (itemLimits w)))).
    { unfold step, fitBounds, acrossMax, maxAcross.
      destruct (itemHidden w); [split; [apply numLe_refl|discriminate]|].
      destruct horz; simpl;
        (split; [apply numMin_le_l|intros _; apply numMin_le_r]). }
    destruct Hs as [Hs1 Hs2].
    split; [eapply numLe_trans; eassumption|].
    unfold shown. simpl. destruct (itemHidden w); simpl; [exact H2|].
    constructor; [|exact H2]. eapply numLe_trans; [exact H1|auto].
Qed.

Lemma sum_le_sum (l : list FitItem) :
  Forall (fun w => Num.le (minAlong horz (itemLimits w))
                          (maxAlong horz (itemLimits w))) l ->
  Num.le (Qsum (map (fun w => minAlong horz (itemLimits w)) l))
         (Num.sum (map (fun w => maxAlong horz (itemLimits w)) l)).
Proof.
  induction 1 as [|w l Hw _ IH]; [unfold Qsum; simpl; lra|].
  unfold Qsum in *. simpl.
  destruct (maxAlong horz (itemLimits w)) as [m|]; [|exact I].
  destruct (Num.sum (map (fun w => maxAlong horz (itemLimits w)) l));
    simpl in *; [lra|exact I].
Qed.

End Fold.

Lemma addBox_parts horz box b :
  alongMin horz (addBox box b) = alongMin horz b + boxAlong horz box /\
  alongMax horz (addBox box b)
  = Num.add (alongMax horz b) (Fin (boxAlong horz box)) /\
  acrossMin horz (addBox box b) = acrossMin horz b + boxAcross horz box /\
  acrossMax horz (addBox box b)
  = Num.add (acrossMax horz b) (Fin (boxAcross horz box)).
Proof. destruct horz; repeat split. Qed.

Lemma initialBounds_parts horz fixed n :
  alongMin horz (initialBounds horz fixed n) = fixed /\
  alongMax horz (initialBounds horz fixed n)
  = (if (0 <? n)%nat then Fin fixed else Infinity) /\
  acrossMin horz (initialBounds horz fixed n) = 0 /\
  acrossMax horz (initialBounds horz fixed n) = Infinity.
Proof. destruct horz; repeat split. Qed.

(** The size constraints a fit pass writes to the parent node.  Along
    the layout direction the minimum is the fixed space of the handles
    plus the minima of the widgets that are not hidden plus the box
    sizing, and the maximum is the same sum over the maxima, or none
    when every widget is hidden; across it the minimum is at least the
    box sizing and every such widget's minimum with the box sizing, and
    the maximum at most every such widget's maximum with the box sizing.
    When no such widget has a minimum above its maximum, the minimum
    along the direction is not above the maximum. *)
Theorem fit_bounds (L : SplitLayout) (widgets : list FitItem)
        (box : BoxSizing) :
  (length widgets <= length (_handles L))%nat ->
  (length widgets <= length (_sizers L))%nat ->
  let horz := sameOrientation (_orientation L) Horizontal in
  let vis := shown widgets in
  exists L' b,
    _fit L widgets box = Some (L', b) /\
    _fixed L' = fixedSpace (_spacing L) (length vis) /\
    alongMin horz b
    == _fixed L' + Qsum (map (fun w => minAlong horz (itemLimits w)) vis)
       + boxAlong horz box /\
    Num.eq (alongMax horz b)
      (match vis with
       | [] => Infinity
       | _ => Num.add (Fin (_fixed L' + boxAlong horz box))
                (Num.sum (map (fun w => maxAlong horz (itemLimits w)) vis))
       end) /\
    boxAcross horz box <= acrossMin horz b /\
    Forall (fun w => minAcross horz (itemLimits w) + boxAcross horz box
                     <= acrossMin horz b) vis /\
    Forall (fun w => numLe (acrossMax horz b)
                       (Num.add (maxAcross horz (itemLimits w))
                                (Fin (boxAcross horz box)))) vis /\
    (Forall (fun w => Num.le (minAlong horz (itemLimits w))
                             (maxAlong horz (itemLimits w))) vis ->
     Num.le (alongMin horz b) (alongMax horz b)).
Proof.
  intros Hh Hs horz vis. unfold _fit.
  destruct (fitHandles_count widgets (_handles L) Hh) as [hs ->].
  fold horz. fold vis.
  set (fixed := fixedSpace (_spacing L) (length vis)).
  destruct (fitSizersLoop_spec horz widgets 0 (_sizers L)
              (initialBounds horz fixed (length vis)))
    as (sizers' & -> & _); [simpl; lia|].
  set (F := fold_left (fun b w => fitBounds horz w b) widgets
                      (initialBounds horz fixed (length vis))).
  eexists _, _. split; [reflexivity|]. cbn [_fixed].
  destruct (addBox_parts horz box F) as (-> & -> & -> & ->).
  destruct (initialBounds_parts horz fixed (length vis))
    as (I1 & I2 & I3 & I4).
  pose proof (fold_alongMin horz widgets (initialBounds horz fixed (length vis)))
    as Hmin.
  pose proof (fold_alongMax horz widgets (initialBounds horz fixed (length vis)))
    as Hmax.
  destruct (fold_acrossMin horz widgets
              (initialBounds horz fixed (length vis))) as [Hc1 Hc2].
  destruct (fold_acrossMax horz widgets
              (initialBounds horz fixed (length vis))) as [_ Hd2].
  fold F in Hmin, Hmax, Hc1, Hc2, Hd2. fold vis in Hmin, Hmax, Hc2, Hd2.
  rewrite I1 in Hmin. rewrite I2 in Hmax. rewrite I3 in Hc1.
  assert (HmaxB :
    Num.eq (Num.add (alongMax horz F) (Fin (boxAlong horz box)))
      (match vis with
       | [] => Infinity
       | _ => Num.add (Fin (fixed + boxAlong horz box))
                (Num.sum (map (fun w => maxAlong horz (itemLimits w)) vis))
       end)).
  { destruct vis as [|v vis'] eqn:Hvis.
    - simpl in Hmax. destruct (alongMax horz F); [contradiction|exact I].
    - change (0 <? length (v :: vis'))%nat with true in Hmax.
      set (S := Num.sum (map (fun w => maxAlong horz (itemLimits w))
                             (v :: vis'))) in *.
      destruct (alongMax horz F) as [m|], S as [s|]; simpl in *;
        try contradiction; try exact I. lra. }
  split; [reflexivity|]. split; [rewrite Hmin; lra|].
  split; [exact HmaxB|]. split; [lra|]. split; [|split].
  - eapply Forall_impl; [exact Hc2|]. intros w Hw. simpl in Hw. lra.
  - eapply Forall_impl; [exact Hd2|]. intros w Hw. simpl in Hw.
    apply numLe_add, Hw.
  - intros Hall. eapply Num_le_eq; [|apply Num_eq_sym, HmaxB].
    pose proof (sum_le_sum horz vis Hall) as Hsum.
    destruct vis as [|v vis'] eqn:Hvis; [exact I|].
    set (S := Num.sum (map (fun w => maxAlong horz (itemLimits w))
                           (v :: vis'))) in *.
    destruct S as [s|]; simpl in *; [|exact I]. rewrite Hmin. lra.
Qed.

Lemma fit_bounds_witness :
  let horz := sameOrientation (_orientation fit_layout) Horizontal in
  let vis := shown fit_widgets in
  exists L' b,
    _fit fit_layout fit_widgets (mkBox 2 4) = Some (L', b) /\
    _fixed L' = fixedSpace (_spacing fit_layout) (length vis) /\
    alongMin horz b
    == _fixed L' + Qsum (map (fun w => minAlong horz (itemLimits w)) vis)
       + boxAlong horz (mkBox 2 4) /\
    Num.eq (alongMax horz b)
      (match vis with
       | [] => Infinity
       | _ => Num.add (Fin (_fixed L' + boxAlong horz (mkBox 2 4)))
                (Num.sum (map (fun w => maxAlong horz (itemLimits w)) vis))
       end) /\
    boxAcross horz (mkBox 2 4) <= acrossMin horz b /\
    Forall (fun w => minAcross horz (itemLimits w)
                     + boxAcross horz (mkBox 2 4)
                     <= acrossMin horz b) vis /\
    Forall (fun w => numLe (acrossMax horz b)
                       (Num.add (maxAcross horz (itemLimits w))
                                (Fin (boxAcross horz (mkBox 2 4))))) vis /\
    (Forall (fun w => Num.le (minAlong horz (itemLimits w))
                             (maxAlong horz (itemLimits w))) vis ->
     Num.le (alongMin horz b) (alongMax horz b)).
Proof.
  apply (fit_bounds fit_layout fit_widgets (mkBox 2 4)); simpl; lia.
Defined.

(** ** The placement of the children *)

Lemma placeLoop_spec (horz : bool) (spacing width height : Q)
      (sizers : list BoxSizer) (handles : list Handle)
      (widgets : list Child) :
  forall i left top,
  (i + length widgets <= length sizers)%nat ->
  (i + length widgets <= length handles)%nat ->
  exists ps,
    placeLoop horz spacing width height i widgets sizers handles left top
    = Some ps /\
    map (fun e => fst (fst e)) ps = visibleFrom i widgets /\
    chained horz spacing sizers (if horz then left else top) ps /\
    Forall (fun e =>
              (if horz
               then rTop (snd (fst e)) = top /\ rHeight (snd (fst e)) = height
                    /\ rTop (snd e) = top /\ rHeight (snd e) = height
               else rLeft (snd (fst e)) = left /\ rWidth (snd (fst e)) = width
                    /\ rLeft (snd e) = left /\ rWidth (snd e) = width)) ps.
Proof.
  induction widgets as [|w rest IH]; intros i left top Hs Hh.
  - exists []. simpl. repeat split; constructor.
  - simpl in Hs, Hh. simpl. destruct (isHidden w).
    + apply IH; lia.
    + destruct (lookup_lt_is_Some_2 sizers i) as [z Hz]; [lia|].
      destruct (lookup_lt_is_Some_2 handles i) as [h Hhd]; [lia|].
      rewrite Hz, Hhd. destruct horz.
      * destruct (IH (S i) (left + size z + spacing) top)
          as (ps & -> & Hidx & Hch & Hcross); [lia|lia|].
        eexists. split; [reflexivity|]. simpl. split; [now rewrite Hidx|].
        split; [|constructor; [simpl; auto|exact Hcross]].
        split; [exists z; auto|]. auto.
      * destruct (IH (S i) left (top + size z + spacing))
          as (ps & -> & Hidx & Hch & Hcross); [lia|lia|].
        eexists. split; [reflexivity|]. simpl. split; [now rewrite Hidx|].
        split; [|constructor; [simpl; auto|exact Hcross]].
        split; [exists z; auto|]. auto.
Qed.

(** In a chain nothing begins before [start], and every later widget
    begins at or after the end of an earlier handle. *)
Lemma chained_order (horz : bool) (spacing : Q) (sizers : list BoxSizer) :
  0 <= spacing -> Forall (fun z => 0 <= size z) sizers ->
  forall ps start, chained horz spacing sizers start ps ->
  (forall q e, ps !! q = Some e -> start <= startOf horz (snd (fst e))) /\
  (forall p q e e', (p < q)%nat -> ps !! p = Some e -> ps !! q = Some e' ->
     startOf horz (snd e) + extentOf horz (snd e)
     <= startOf horz (snd (fst e'))).
Proof.
  intros Hsp Hsz. induction ps as [|[[k g] h] rest IH]; intros start Hch.
  - split; intros; discriminate.
  - simpl in Hch. destruct Hch as ((z & Hz & Hext) & Hg & Hh & Hhe & Hrest).
    destruct (IH _ Hrest) as [Hfrom Hlater].
    assert (Hpos : 0 <= extentOf horz g).
    { rewrite Hext. rewrite Forall_lookup in Hsz. apply (Hsz k z Hz). }
    split.
    + intros [|q] e Hq; simpl in Hq.
      * injection Hq as <-. simpl. rewrite Hg. lra.
      * specialize (Hfrom q e Hq). lra.
    + intros [|p] [|q] e e' Hlt Hp Hq; try lia; simpl in Hp, Hq.
      * injection Hp as <-. simpl. specialize (Hfrom q e' Hq).
        rewrite Hh, Hhe. lra.
      * apply (Hlater p q e e'); [lia|exact Hp|exact Hq].
Qed.

(** The last loop of [_update] places the widgets that are not hidden,
    and only those, in the order of the vector: each has the extent of
    its sizer along the layout direction, its handle begins where it
    ends and has the extent of the spacing, and the next widget begins
    where the handle ends; across the direction all share one position
    and extent.  With sizes and a spacing that are not negative, no
    widget begins before the end of the handle of an earlier one. *)
Theorem placement_in_order (horz : bool) (spacing width height : Q)
        (widgets : list Child) (sizers : list BoxSizer)
        (handles : list Handle) (left top : Q) :
  (length widgets <= length sizers)%nat ->
  (length widgets <= length handles)%nat ->
  exists ps,
    placeLoop horz spacing width height 0 widgets sizers handles left top
    = Some ps /\
    map (fun e => fst (fst e)) ps = visibleFrom 0 widgets /\
    chained horz spacing sizers (if horz then left else top) ps /\
    Forall (fun e =>
              (if horz
               then rTop (snd (fst e)) = top /\ rHeight (snd (fst e)) = height
                    /\ rTop (snd e) = top /\ rHeight (snd e) = height
               else rLeft (snd (fst e)) = left /\ rWidth (snd (fst e)) = width
                    /\ rLeft (snd e) = left /\ rWidth (snd e) = width)) ps /\
    (0 <= spacing -> Forall (fun z => 0 <= size z) sizers ->
     forall p q e e', (p < q)%nat -> ps !! p = Some e -> ps !! q = Some e' ->
       startOf horz (snd e) + extentOf horz (snd e)
       <= startOf horz (snd (fst e'))).
Proof.
  intros Hs Hh.
  destruct (placeLoop_spec horz spacing width height sizers handles widgets
              0 left top) as (ps & Hrun & Hidx & Hch & Hcross);
    [simpl; lia|simpl; lia|].
  exists ps. split; [exact Hrun|]. split; [exact Hidx|].
  split; [exact Hch|]. split; [exact Hcross|].
  intros Hsp Hsz. eapply chained_order; eauto.
Qed.

Lemma placement_in_order_witness :
  exists ps,
    placeLoop true 3 103 80 0 place_widgets place_sizers place_handles 5 7
    = Some ps /\
    map (fun e => fst (fst e)) ps = visibleFrom 0 place_widgets /\
    chained true 3 place_sizers 5 ps /\
    Forall (fun e =>
              rTop (snd (fst e)) = 7 /\ rHeight (snd (fst e)) = 80
              /\ rTop (snd e) = 7 /\ rHeight (snd e) = 80) ps /\
    (0 <= 3 -> Forall (fun z => 0 <= size z) place_sizers ->
     forall p q e e', (p < q)%nat -> ps !! p = Some e -> ps !! q = Some e' ->
       startOf true (snd e) + extentOf true (snd e)
       <= startOf true (snd (fst e'))).
Proof.
  apply (placement_in_order true 3 103 80 place_widgets place_sizers
           place_handles 5 7); simpl; lia.
Defined.

